(** * Interactive 3D scene session: a shallow embedding

  The development follows the TypeScript sources of the viewer:
  - [three-setup.ts]: material snapshot store, part extraction, part listing,
    picking and camera framing;
  - [view-3d.tsx]: the React component that owns one scene per effect run,
    loads the model, and reacts to clicks;
  - [Miniatura3D.tsx] and [GaleriaComponente.tsx]: the cached thumbnails
    and the pages of the gallery.

  JavaScript strings are modelled by [string] restricted to ASCII
  (so [toLowerCase] and [trim] act on ASCII letters and ASCII white space),
  JavaScript numbers by binary64 floats ([PrimFloat.float]); the camera
  framing code is written once over an interface of number operations, so
  that it can also be read in exact real arithmetic.  Objects that the
  code mutates through references (materials, the material slot of a mesh,
  geometries, positions) live in an explicit heap. *)

From Stdlib Require Import String Ascii ZArith List Bool Lia.
From Stdlib Require Import Reals Lra.
From Stdlib Require Import PrimFloat.
From Stdlib Require FloatOps FloatAxioms SpecFloat.
From Stdlib Require Uint63.
From Stdlib Require QArith Qround.
From stdpp Require Import base option list gmap.

Local Open Scope string_scope.

(* ================================================================== *)
(** ** Part names *)
(* ================================================================== *)

Module Names.

Definition isUpper (c : ascii) : bool :=
  let n := nat_of_ascii c in Nat.leb 65 n && Nat.leb n 90.

Definition lowerChar (c : ascii) : ascii :=
  if isUpper c then ascii_of_nat (nat_of_ascii c + 32) else c.

(** [String.prototype.toLowerCase] on ASCII. *)
Fixpoint toLowerCase (s : string) : string :=
  match s with
  | EmptyString => EmptyString
  | String c r => String (lowerChar c) (toLowerCase r)
  end.

(** ASCII white space: TAB, LF, VT, FF, CR and SPACE. *)
Definition isWhite (c : ascii) : bool :=
  let n := nat_of_ascii c in (Nat.leb 9 n && Nat.leb n 13) || Nat.eqb n 32.

Definition isEmpty (s : string) : bool :=
  match s with EmptyString => true | String _ _ => false end.

Fixpoint trimStart (s : string) : string :=
  match s with
  | EmptyString => EmptyString
  | String c r => if isWhite c then trimStart r else s
  end.

Fixpoint trimEnd (s : string) : string :=
  match s with
  | EmptyString => EmptyString
  | String c r =>
      let r' := trimEnd r in
      if isWhite c && isEmpty r' then EmptyString else String c r'
  end.

(** [String.prototype.trim]. *)
Definition trim (s : string) : string := trimEnd (trimStart s).

(** [s.split(sep)[0]]: the text before the first separator, the whole
    string when there is none. *)
Fixpoint splitHead (sep : ascii) (s : string) : string :=
  match s with
  | EmptyString => EmptyString
  | String c r =>
      if Ascii.eqb c sep then EmptyString else String c (splitHead sep r)
  end.

Definition dash : ascii := "-"%char.

(** The four places where the sources derive a key from a node name. *)

(** [extractPartByName]: [name.split("-")[0].toLowerCase().trim()]. *)
Definition cleanNodeName (name : string) : string :=
  trim (toLowerCase (splitHead dash name)).

(** [getTopLevelNodes]: [name.split("-")[0].trim().toLowerCase()]. *)
Definition clean (name : string) : string :=
  toLowerCase (trim (splitHead dash name)).

(** [findNodeByBaseName]: [child.name.split("-")[0].toLowerCase()]. *)
Definition childBase (name : string) : string :=
  toLowerCase (splitHead dash name).

(** [handleClick]: [sel.name ? sel.name.split("-")[0].trim() : null]. *)
Definition clickPartName (name : string) : option string :=
  if isEmpty name then None else Some (trim (splitHead dash name)).

(** The key of the data model: prefix before the first dash, lower-cased
    and trimmed. *)
Definition partIdentity (name : string) : string := cleanNodeName name.

End Names.

(* ================================================================== *)
(** ** Numbers, vectors, boxes, camera framing and picking coordinates *)
(* ================================================================== *)

Module Numbers.

(** The arithmetic on JavaScript numbers that the viewer uses.  [ofZ] gives
    integer literals; a decimal literal such as [0.01] is the correctly
    rounded quotient [ofZ 1 / ofZ 100]. *)
Class JsNumber (num : Type) : Type := {
  ofZ : Z -> num;
  nadd : num -> num -> num;
  nsub : num -> num -> num;
  nmul : num -> num -> num;
  ndiv : num -> num -> num;
  nneg : num -> num;
  nabs : num -> num;            (* Math.abs *)
  nsqrt : num -> num;           (* Math.sqrt *)
  nmax : num -> num -> num;     (* Math.max *)
  nltb : num -> num -> bool;    (* a < b *)
  neqb : num -> num -> bool;    (* a === b *)
  truthy : num -> bool          (* the test of [a || b] *)
}.

(** [Math.tan] and [Math.PI]. *)
Class JsMath (num : Type) : Type := {
  ntan : num -> num;
  npi : num
}.

Declare Scope num_scope.
Delimit Scope num_scope with num.
Infix "+" := nadd : num_scope.
Infix "-" := nsub : num_scope.
Infix "*" := nmul : num_scope.
Infix "/" := ndiv : num_scope.
Notation "- a" := (nneg a) : num_scope.
Infix "<?" := nltb : num_scope.
Notation "a >? b" := (nltb b a) : num_scope.
Infix "=?" := neqb : num_scope.

(** *** Binary64 numbers *)

Definition float_ofZ (z : Z) : float :=
  match z with
  | Z0 => PrimFloat.of_uint63 (Uint63.of_Z 0)
  | Zpos _ => PrimFloat.of_uint63 (Uint63.of_Z z)
  | Zneg p => PrimFloat.opp (PrimFloat.of_uint63 (Uint63.of_Z (Zpos p)))
  end.

(** [Math.max]: NaN when an argument is NaN, and [+0] above [-0]. *)
Definition float_max (a b : float) : float :=
  if PrimFloat.is_nan a || PrimFloat.is_nan b then PrimFloat.nan
  else if PrimFloat.ltb a b then b
  else if PrimFloat.ltb b a then a
  else if PrimFloat.is_zero a then PrimFloat.add a b
  else a.

(** [Math.PI]. *)
Definition float_pi : float := 0x1.921fb54442d18p+1%float.

#[export] Instance floatNumber : JsNumber float := {|
  ofZ := float_ofZ;
  nadd := PrimFloat.add;
  nsub := PrimFloat.sub;
  nmul := PrimFloat.mul;
  ndiv := PrimFloat.div;
  nneg := PrimFloat.opp;
  nabs := PrimFloat.abs;
  nsqrt := PrimFloat.sqrt;
  nmax := float_max;
  nltb := PrimFloat.ltb;
  neqb := PrimFloat.eqb;
  truthy := fun a => negb (PrimFloat.is_nan a || PrimFloat.is_zero a)
|}.

(** JavaScript leaves the precision of [Math.tan] to the engine: the
    tangent is a parameter of the binary64 reading. *)
Definition floatMath (tan : float -> float) : JsMath float := {|
  ntan := tan;
  npi := float_pi
|}.

(** [isFinite] on numbers. *)
Definition isFinite (a : float) : bool :=
  negb (PrimFloat.is_nan a || PrimFloat.is_infinity a).

(** *** Exact real arithmetic *)

Definition real_ltb (a b : R) : bool := if Rlt_dec a b then true else false.
Definition real_eqb (a b : R) : bool := if Req_dec_T a b then true else false.

Definition realNumber : JsNumber R := {|
  ofZ := IZR;
  nadd := Rplus;
  nsub := Rminus;
  nmul := Rmult;
  ndiv := Rdiv;
  nneg := Ropp;
  nabs := Rabs;
  nsqrt := R_sqrt.sqrt;
  nmax := Rmax;
  nltb := real_ltb;
  neqb := real_eqb;
  truthy := fun a => negb (real_eqb a 0%R)
|}.

Definition realMath : JsMath R := {|
  ntan := Rtrigo1.tan;
  npi := PI
|}.

(** *** Vectors and boxes (three.js [Vector3], [Vector2], [Box3]) *)

Record Vector3 (num : Type) : Type := mkVector3 { vx : num; vy : num; vz : num }.
Arguments mkVector3 {num} _ _ _.
Arguments vx {num} _.
Arguments vy {num} _.
Arguments vz {num} _.

Record Vector2 (num : Type) : Type := mkVector2 { px : num; py : num }.
Arguments mkVector2 {num} _ _.
Arguments px {num} _.
Arguments py {num} _.

Record Box3 (num : Type) : Type := mkBox3 { bmin : Vector3 num; bmax : Vector3 num }.
Arguments mkBox3 {num} _ _.
Arguments bmin {num} _.
Arguments bmax {num} _.

Record PerspectiveCamera (num : Type) : Type := mkCamera {
  position : Vector3 num;
  fov : num;                   (* vertical field of view, in degrees *)
  lookingAt : Vector3 num      (* the point of the last [lookAt] *)
}.
Arguments mkCamera {num} _ _ _.
Arguments position {num} _.
Arguments fov {num} _.
Arguments lookingAt {num} _.

Record OrbitControls (num : Type) : Type := mkControls {
  target : Vector3 num;
  enabled : bool;
  controlsDisposed : bool
}.
Arguments mkControls {num} _ _ _.
Arguments target {num} _.
Arguments enabled {num} _.
Arguments controlsDisposed {num} _.

(** [DOMRect] of the container. *)
Record Rect (num : Type) : Type := mkRect {
  left : num; top : num; width : num; height : num
}.
Arguments mkRect {num} _ _ _ _.
Arguments left {num} _.
Arguments top {num} _.
Arguments width {num} _.
Arguments height {num} _.

Section Generic.
Context {num : Type} {JN : JsNumber num} {JM : JsMath num}.
Local Open Scope num_scope.

(** A decimal literal [n/d]. *)
Definition dec (n d : Z) : num := ofZ n / ofZ d.

Definition zero3 : Vector3 num := mkVector3 (ofZ 0) (ofZ 0) (ofZ 0).

Definition vadd (a b : Vector3 num) : Vector3 num :=
  mkVector3 (vx a + vx b) (vy a + vy b) (vz a + vz b).

Definition vsub (a b : Vector3 num) : Vector3 num :=
  mkVector3 (vx a - vx b) (vy a - vy b) (vz a - vz b).

Definition multiplyScalar (a : Vector3 num) (s : num) : Vector3 num :=
  mkVector3 (vx a * s) (vy a * s) (vz a * s).

Definition divideScalar (a : Vector3 num) (s : num) : Vector3 num :=
  multiplyScalar a (ofZ 1 / s).

Definition lengthSq (a : Vector3 num) : num :=
  vx a * vx a + vy a * vy a + vz a * vz a.

Definition length3 (a : Vector3 num) : num := nsqrt (lengthSq a).

(** [normalize]: [divideScalar(length() || 1)]. *)
Definition normalize (a : Vector3 num) : Vector3 num :=
  let l := length3 a in
  divideScalar a (if truthy l then l else ofZ 1).

(** [Box3.isEmpty], [getSize] and [getCenter]. *)
Definition boxIsEmpty (b : Box3 num) : bool :=
  (vx (bmax b) <? vx (bmin b)) || (vy (bmax b) <? vy (bmin b))
  || (vz (bmax b) <? vz (bmin b)).

Definition getSize (b : Box3 num) : Vector3 num :=
  if boxIsEmpty b then zero3 else vsub (bmax b) (bmin b).

Definition getCenter (b : Box3 num) : Vector3 num :=
  if boxIsEmpty b then zero3
  else multiplyScalar (vadd (bmin b) (bmax b)) (dec 5 10).

(** **** [fitCameraToObject] *)

Definition SAFE_DIM : num := ofZ 200.

(** [Math.max(size.x, size.y, size.z)]. *)
Definition maxDim (box : Box3 num) : num :=
  let size := getSize box in nmax (nmax (vx size) (vy size)) (vz size).

Definition effectiveDim (box : Box3 num) : num :=
  if maxDim box >? dec 1 100 then maxDim box else SAFE_DIM.

(** The value of [cameraZ] after [cameraZ *= 1.3]. *)
Definition cameraZ (camera : PerspectiveCamera num) (box : Box3 num) : num :=
  let fovRad := fov camera * (npi / ofZ 180) in
  nabs (effectiveDim box / ofZ 2 / ntan (fovRad / ofZ 2)) * dec 13 10.

(** The direction kept from the previous view, or the default diagonal. *)
Definition viewDirection (camera : PerspectiveCamera num)
    (controls : OrbitControls num) : Vector3 num :=
  let originalPos := vsub (position camera) (target controls) in
  if lengthSq originalPos <? dec 1 100
  then mkVector3 (ofZ 1) (dec 6 10) (ofZ 1)
  else originalPos.

(** [box] is the result of [new THREE.Box3().setFromObject(object)].
    [controls.update()] does not move a camera that already looks at the
    target, so it is left out. *)
Definition fitCameraToObject (camera : PerspectiveCamera num)
    (controls : OrbitControls num) (box : Box3 num)
  : PerspectiveCamera num * OrbitControls num :=
  let center := getCenter box in
  let originalPos :=
    multiplyScalar (normalize (viewDirection camera controls))
                   (cameraZ camera box * dec 15 10) in
  (mkCamera (vadd center originalPos) (fov camera) center,
   mkControls center (enabled controls) (controlsDisposed controls)).

Definition distanceTo (a b : Vector3 num) : num := length3 (vsub a b).

(** **** Picking coordinates of [getIntersects] *)

(** Normalised device coordinates of a client point in the container. *)
Definition deviceCoordinates (clientX clientY : num) (rect : Rect num)
  : Vector2 num :=
  mkVector2 ((clientX - left rect) / width rect * ofZ 2 - ofZ 1)
            (- ((clientY - top rect) / height rect) * ofZ 2 + ofZ 1).

Definition degenerateRect (rect : Rect num) : bool :=
  (width rect =? ofZ 0) || (height rect =? ofZ 0).

End Generic.

End Numbers.
(* ================================================================== *)
(** ** The scene graph and the heap of mutable objects *)
(* ================================================================== *)

Module Scene.
Import Names Numbers.
Local Open Scope list_scope.

(** A node of the hierarchy.  [uid] stands for the identity of the
    JavaScript object; the material, geometry and position of the node are
    mutable and live in the heap under that identity. *)
#[warnings="-register-all"]
Inductive Object3D : Type := mkObject3D {
  uid : nat;
  name : string;
  isMesh : bool;
  children : list Object3D
}.

(** [mesh.material] is one material or an array of materials. *)
Inductive MaterialSlot : Type :=
| Single (m : nat)
| Multi (ms : list nat).

(** What the viewer reads or writes of a material. *)
Record Material : Type := mkMaterial {
  color : Z;
  emissive : Z;
  emissiveIntensity : float;
  roughness : float;
  metalness : float;
  transparent : bool;
  opacity : float;
  textures : list nat
}.

Record Heap : Type := mkHeap {
  materialOf : gmap nat MaterialSlot;    (* mesh.material, by object *)
  geometryOf : gmap nat nat;             (* mesh.geometry, by object *)
  positionOf : gmap nat (Vector3 float); (* object.position, by object *)
  materials : gmap nat Material;         (* the material objects *)
  disposedGeometries : list nat;         (* calls of geometry.dispose() *)
  disposedMaterials : list nat;          (* calls of material.dispose() *)
  disposedTextures : list nat;           (* calls of texture.dispose() *)
  nextObject : nat;
  nextMaterial : nat;
  nextGeometry : nat
}.

Definition emptyHeap : Heap := mkHeap ∅ ∅ ∅ ∅ [] [] [] 0 0 0.

(** *** Heap computations *)

Definition M (A : Type) : Type := Heap -> A * Heap.

Definition ret {A} (a : A) : M A := fun h => (a, h).

Definition bind {A B} (m : M A) (k : A -> M B) : M B :=
  fun h => let (a, h') := m h in k a h'.

Notation "x <- m ;; k" := (bind m (fun x => k))
  (at level 100, m at next level, right associativity).
Notation "m ;;; k" := (bind m (fun _ => k))
  (at level 100, right associativity).

Definition get : M Heap := fun h => (h, h).
Definition modify (f : Heap -> Heap) : M unit := fun h => (tt, f h).

Fixpoint foldM {A S} (f : S -> A -> M S) (s : S) (l : list A) : M S :=
  match l with
  | [] => ret s
  | a :: r => s' <- f s a ;; foldM f s' r
  end.

Fixpoint forEachM {A} (f : A -> M unit) (l : list A) : M unit :=
  match l with
  | [] => ret tt
  | a :: r => f a ;;; forEachM f r
  end.

Fixpoint mapM {A B} (f : A -> M B) (l : list A) : M (list B) :=
  match l with
  | [] => ret []
  | a :: r => b <- f a ;; bs <- mapM f r ;; ret (b :: bs)
  end.

(** *** Field updates *)

Definition withMaterialOf (f : gmap nat MaterialSlot -> gmap nat MaterialSlot)
    (h : Heap) : Heap :=
  mkHeap (f (materialOf h)) (geometryOf h) (positionOf h) (materials h)
         (disposedGeometries h) (disposedMaterials h) (disposedTextures h)
         (nextObject h) (nextMaterial h) (nextGeometry h).

Definition withGeometryOf (f : gmap nat nat -> gmap nat nat) (h : Heap) : Heap :=
  mkHeap (materialOf h) (f (geometryOf h)) (positionOf h) (materials h)
         (disposedGeometries h) (disposedMaterials h) (disposedTextures h)
         (nextObject h) (nextMaterial h) (nextGeometry h).

Definition withPositionOf
    (f : gmap nat (Vector3 float) -> gmap nat (Vector3 float)) (h : Heap) : Heap :=
  mkHeap (materialOf h) (geometryOf h) (f (positionOf h)) (materials h)
         (disposedGeometries h) (disposedMaterials h) (disposedTextures h)
         (nextObject h) (nextMaterial h) (nextGeometry h).

(** A new material object with the given content. *)
Definition newMaterial (m : option Material) : M nat := fun h =>
  let r := nextMaterial h in
  (r, mkHeap (materialOf h) (geometryOf h) (positionOf h)
             (match m with
              | Some c => <[r := c]> (materials h)
              | None => delete r (materials h)
              end)
             (disposedGeometries h) (disposedMaterials h) (disposedTextures h)
             (nextObject h) (S r) (nextGeometry h)).

(** [material.clone()]: a new object with the same content. *)
Definition cloneMaterial (r : nat) : M nat := fun h =>
  newMaterial (materials h !! r) h.

Definition cloneSlot (s : MaterialSlot) : M MaterialSlot :=
  match s with
  | Single r => r' <- cloneMaterial r ;; ret (Single r')
  | Multi rs => rs' <- mapM cloneMaterial rs ;; ret (Multi rs')
  end.

(** [geometry.clone()]. *)
Definition cloneGeometry (g : nat) : M nat := fun h =>
  let g' := nextGeometry h in
  (g', mkHeap (materialOf h) (geometryOf h) (positionOf h) (materials h)
              (disposedGeometries h) (disposedMaterials h) (disposedTextures h)
              (nextObject h) (nextMaterial h) (S g')).

Definition getMaterial (o : Object3D) : M (option MaterialSlot) := fun h =>
  (materialOf h !! uid o, h).

Definition setMaterial (o : Object3D) (s : MaterialSlot) : M unit :=
  modify (withMaterialOf (fun m => <[uid o := s]> m)).

Definition getGeometry (o : Object3D) : M (option nat) := fun h =>
  (geometryOf h !! uid o, h).

Definition setGeometry (o : Object3D) (g : nat) : M unit :=
  modify (withGeometryOf (fun m => <[uid o := g]> m)).

Definition origin : Vector3 float := zero3.

Definition getPosition (o : Object3D) : M (Vector3 float) := fun h =>
  (default origin (positionOf h !! uid o), h).

Definition setPosition (o : Object3D) (p : Vector3 float) : M unit :=
  modify (withPositionOf (fun m => <[uid o := p]> m)).

(** *** Traversal *)

(** [object.traverse(callback)] visits the object, then its children in
    order, each with its own subtree: this is the list of visited nodes. *)
Fixpoint traverse (o : Object3D) : list Object3D :=
  o :: (fix visit (l : list Object3D) : list Object3D :=
          match l with
          | [] => []
          | c :: r => traverse c ++ visit r
          end) (children o).

(** The meshes below a node, in traversal order
    ([traverse(c => { if (c.isMesh) meshes.push(c) })]). *)
Definition meshesOf (o : Object3D) : list Object3D :=
  filter (fun c => isMesh c = true) (traverse o).

(** [object.clone(true)]: new objects for the node and its descendants;
    positions are copied, geometries are shared, a single material is
    shared and an array of materials is copied with the same elements. *)
Definition copyFields (src dst : nat) (h : Heap) : Heap :=
  let put {V} (m : gmap nat V) : gmap nat V :=
    match m !! src with
    | Some v => <[dst := v]> m
    | None => delete dst m
    end in
  mkHeap (put (materialOf h)) (put (geometryOf h)) (put (positionOf h))
         (materials h)
         (disposedGeometries h) (disposedMaterials h) (disposedTextures h)
         (S dst) (nextMaterial h) (nextGeometry h).

Fixpoint cloneObject (o : Object3D) (h : Heap) : Object3D * Heap :=
  let n := nextObject h in
  let h1 := copyFields (uid o) n h in
  let (cs, h2) :=
    (fix cloneChildren (l : list Object3D) (h : Heap) : list Object3D * Heap :=
       match l with
       | [] => ([], h)
       | c :: r =>
           let (c', h') := cloneObject c h in
           let (r', h'') := cloneChildren r h' in
           (c' :: r', h'')
       end) (children o) h1 in
  (mkObject3D n (name o) (isMesh o) cs, h2).

(** *** The material snapshot store *)

(** [Map<Mesh, Material | Material[]>], in insertion order. *)
Definition Store : Type := list (Object3D * MaterialSlot).

Definition sameObject (a b : Object3D) : bool := Nat.eqb (uid a) (uid b).

Fixpoint storeGet (mesh : Object3D) (store : Store) : option MaterialSlot :=
  match store with
  | [] => None
  | (k, v) :: r => if sameObject k mesh then Some v else storeGet mesh r
  end.

(** [Map.prototype.set]: replaces the value of a present key in place,
    appends a new key. *)
Fixpoint storeSet (mesh : Object3D) (v : MaterialSlot) (store : Store) : Store :=
  match store with
  | [] => [(mesh, v)]
  | (k, w) :: r =>
      if sameObject k mesh then (k, v) :: r else (k, w) :: storeSet mesh v r
  end.

(** [collectOriginalMaterials]. *)
Definition collectOne (store : Store) (child : Object3D) : M Store :=
  if isMesh child then
    material <- getMaterial child ;;
    match material with
    | None => ret store
    | Some slot => clone <- cloneSlot slot ;; ret (storeSet child clone store)
    end
  else ret store.

Definition collectOriginalMaterials (model : Object3D) (originalMaterials : Store)
  : M Store :=
  foldM collectOne originalMaterials (traverse model).

(** [resetModelColor]. *)
Definition resetOne (entry : Object3D * MaterialSlot) : M unit :=
  let (mesh, originalMaterial) := entry in
  if negb (isMesh mesh) then ret tt
  else clone <- cloneSlot originalMaterial ;; setMaterial mesh clone.

Definition resetModelColor (originalMaterials : Store) : M unit :=
  forEachM resetOne originalMaterials.

(** [highlightPart]. *)
Definition fdec (n d : Z) : float := dec n d.

Definition highlightMaterial : Material := {|
  color := 0xff8c00;
  emissive := 0xff8c00;
  emissiveIntensity := fdec 15 100;
  roughness := fdec 45 100;
  metalness := fdec 5 100;
  transparent := true;
  opacity := fdec 95 100;
  textures := []
|}.

Definition highlightPart (meshOrMeshes : Object3D + list Object3D) : M unit :=
  baseMat <- newMaterial (Some highlightMaterial) ;;
  let apply (m : Object3D) : M unit :=
    clone <- cloneMaterial baseMat ;; setMaterial m (Single clone) in
  match meshOrMeshes with
  | inr meshes => forEachM apply meshes
  | inl mesh => apply mesh
  end.

(** *** Disposal *)

Definition slotMaterials (s : MaterialSlot) : list nat :=
  match s with Single r => [r] | Multi rs => rs end.

Definition disposeGeometry (g : nat) : M unit := fun h =>
  (tt, mkHeap (materialOf h) (geometryOf h) (positionOf h) (materials h)
              (disposedGeometries h ++ [g]) (disposedMaterials h)
              (disposedTextures h)
              (nextObject h) (nextMaterial h) (nextGeometry h)).

Definition disposeMaterial (r : nat) : M unit := fun h =>
  let texs := match materials h !! r with Some m => textures m | None => [] end in
  (tt, mkHeap (materialOf h) (geometryOf h) (positionOf h) (materials h)
              (disposedGeometries h) (disposedMaterials h ++ [r])
              (disposedTextures h ++ texs)
              (nextObject h) (nextMaterial h) (nextGeometry h)).

Definition disposeOne (child : Object3D) : M unit :=
  if isMesh child then
    g <- getGeometry child ;;
    match g with Some g => disposeGeometry g | None => ret tt end ;;;
    material <- getMaterial child ;;
    match material with
    | Some slot =>
        forEachM disposeMaterial (slotMaterials slot) ;;;
        setMaterial child (Multi [])
    | None => ret tt
    end
  else ret tt.

(** [disposeObject], up to the final [obj.parent.remove(obj)], which acts on
    the hierarchy and is done where the hierarchy is kept. *)
Definition disposeObject (obj : Object3D) : M unit :=
  forEachM disposeOne (traverse obj).

(** *** Hierarchy search *)

(** [findNodeByBaseName]: the first node, in traversal order, whose base
    name matches. *)
Definition findNodeByBaseName (root : Object3D) (baseName : string)
  : option Object3D :=
  let targetBase := toLowerCase baseName in
  fold_left
    (fun found child =>
       match found with
       | Some _ => found
       | None =>
           if negb (isEmpty (name child))
              && String.eqb (childBase (name child)) targetBase
           then Some child else None
       end)
    (traverse root) None.

(** *** Listing the part names of an asset *)

Inductive LoadResult : Type :=
| Loaded (scene : Object3D)
| Failed (error : string).

(** [Set.prototype.add] on a set kept in insertion order. *)
Definition setAdd (c : string) (s : list string) : list string :=
  if existsb (String.eqb c) s then s else s ++ [c].

Definition reserved (c : string) : bool :=
  String.eqb c "default" || String.eqb c "scene".

Definition listStep (nodesSet : list string) (child : Object3D) : list string :=
  if isEmpty (name child) then nodesSet
  else
    let c := clean (name child) in
    if negb (isEmpty c) && negb (reserved c) then setAdd c nodesSet
    else nodesSet.

(** [getTopLevelNodes]; [loadAsync] is the loader of the asset backend. *)
Definition getTopLevelNodes (loadAsync : string -> LoadResult) (url : string)
  : list string :=
  match loadAsync url with
  | Failed _ => []
  | Loaded model =>
      let nodesSet := fold_left listStep (traverse model) [] in
      if Nat.eqb (List.length nodesSet) 0 && negb (isEmpty (name model))
      then setAdd (clean (name model)) nodesSet
      else nodesSet
  end.

(** *** Normalising and extracting *)

Section WithBoxes.

(** [new THREE.Box3().setFromObject(object)]: the world bounding box that
    three.js computes from the geometries below an object. *)
Variable setFromObject : Heap -> Object3D -> Box3 float.

(** [normalizeModelSizeAndPosition]. *)
Definition normalizeModelSizeAndPosition (mesh : Object3D) (floatingY : float)
  : M unit :=
  h <- get ;;
  let box := setFromObject h mesh in
  let size := getSize box in
  let center := getCenter box in
  if negb (isFinite (vx size)) || negb (isFinite (vy size))
     || negb (isFinite (vz size))
  then ret tt
  else
    p <- getPosition mesh ;;
    let p := vsub p center in
    setPosition mesh
      (mkVector3 (vx p)
                 (PrimFloat.add (PrimFloat.add (vy p)
                                   (PrimFloat.div (vy size) (ofZ 2)))
                                floatingY)
                 (vz p)).

(** The callback of the inner [traverse] of [extractPartByName]. *)
Definition cloneMeshData (c : Object3D) : M unit :=
  if isMesh c then
    g <- getGeometry c ;;
    match g with
    | Some g => g' <- cloneGeometry g ;; setGeometry c g'
    | None => ret tt
    end ;;;
    material <- getMaterial c ;;
    match material with
    | Some slot => slot' <- cloneSlot slot ;; setMaterial c slot'
    | None => ret tt
    end
  else ret tt.

(** The callback of the outer [traverse]: it runs on every node, and every
    match assigns [targetObject]. *)
Definition extractStep (cleanedTarget : string) (targetObject : option Object3D)
    (child : Object3D) : M (option Object3D) :=
  if isEmpty (name child) then ret targetObject
  else if String.eqb (cleanNodeName (name child)) cleanedTarget then
    target <- cloneObject child ;;
    forEachM cloneMeshData (traverse target) ;;;
    ret (Some target)
  else ret targetObject.

(** [extractPartByName]. *)
Definition extractPartByName (model : Object3D) (partName : string)
  : M (option Object3D) :=
  let cleanedTarget := trim (toLowerCase partName) in
  targetObject <- foldM (extractStep cleanedTarget) None (traverse model) ;;
  match targetObject with
  | Some target =>
      normalizeModelSizeAndPosition target (ofZ 0) ;;; ret (Some target)
  | None => ret None
  end.

End WithBoxes.

End Scene.
(* ================================================================== *)
(** ** The viewer component: scene sessions, loading, clicks *)
(* ================================================================== *)

Module Session.
Import Names Numbers Scene.
Local Open Scope list_scope.

(** [THREE.Intersection]: the object that the ray hit. *)
Record Intersection : Type := mkIntersection { object : Object3D }.

(** The ray of a [THREE.Raycaster]: the arguments of the last
    [setFromCamera], if any. *)
Definition Raycaster : Type := option (Vector2 float * PerspectiveCamera float).

(** [InteractiveThreeScene].  [scene] is the [THREE.Scene] node with the
    objects added to it as children. *)
Record InteractiveThreeScene : Type := mkInteractive {
  scene : Object3D;
  camera : PerspectiveCamera float;
  controls : OrbitControls float;
  mesh : option Object3D;
  raycaster : Raycaster;
  mouse : Vector2 float;
  originalMaterials : Store;
  rendererDisposed : bool
}.

Definition withScene (f : Object3D -> Object3D) (s : InteractiveThreeScene) :=
  mkInteractive (f (scene s)) (camera s) (controls s) (mesh s) (raycaster s)
                (mouse s) (originalMaterials s) (rendererDisposed s).

Definition withView (cam : PerspectiveCamera float) (ctl : OrbitControls float)
    (s : InteractiveThreeScene) :=
  mkInteractive (scene s) cam ctl (mesh s) (raycaster s)
                (mouse s) (originalMaterials s) (rendererDisposed s).

Definition withMesh (m : option Object3D) (s : InteractiveThreeScene) :=
  mkInteractive (scene s) (camera s) (controls s) m (raycaster s)
                (mouse s) (originalMaterials s) (rendererDisposed s).

Definition withRay (p : Vector2 float) (s : InteractiveThreeScene) :=
  mkInteractive (scene s) (camera s) (controls s) (mesh s)
                (Some (p, camera s)) p (originalMaterials s) (rendererDisposed s).

Definition withStore (st : Store) (s : InteractiveThreeScene) :=
  mkInteractive (scene s) (camera s) (controls s) (mesh s) (raycaster s)
                (mouse s) st (rendererDisposed s).

Definition withRendererDisposed (s : InteractiveThreeScene) :=
  mkInteractive (scene s) (camera s) (controls s) (mesh s) (raycaster s)
                (mouse s) (originalMaterials s) true.

(** [scene.add(obj)] and [scene.remove(obj)]. *)
Definition addChild (obj : Object3D) (parent : Object3D) : Object3D :=
  mkObject3D (uid parent) (name parent) (isMesh parent) (children parent ++ [obj]).

Definition removeChild (obj : Object3D) (parent : Object3D) : Object3D :=
  mkObject3D (uid parent) (name parent) (isMesh parent)
             (filter (fun c => sameObject c obj = false) (children parent)).

(** The chain of [parent] links inside a hierarchy: the nodes from [o] down
    to the parent of the object [x], when [x] is strictly below [o]. *)
Fixpoint pathTo (x : nat) (o : Object3D) : option (list Object3D) :=
  if Nat.eqb (uid o) x then Some []
  else
    match (fix search (l : list Object3D) : option (list Object3D) :=
             match l with
             | [] => None
             | c :: r =>
                 match pathTo x c with
                 | Some p => Some p
                 | None => search r
                 end
             end) (children o) with
    | Some p => Some (o :: p)
    | None => None
    end.

(** The parents of [x], the nearest first. *)
Definition parentsOf (x : Object3D) (root : Object3D) : list Object3D :=
  match pathTo (uid x) root with
  | Some p => rev p
  | None => []
  end.

(** [while (sel.parent && sel.parent !== current.mesh) sel = sel.parent]. *)
Fixpoint climb (meshObject : Object3D) (sel : Object3D) (parents : list Object3D)
  : Object3D :=
  match parents with
  | [] => sel
  | p :: rest => if sameObject p meshObject then sel else climb meshObject p rest
  end.

(** The props of [View3D] that the modelled code reads.  A callback is
    modelled by whether it is given; its calls are logged in the
    component. *)
Record Props : Type := mkProps {
  modelUrl : string;
  thumbnailMode : bool;
  isolatedPart : option Object3D;
  onModelLoaded : bool;     (* is the callback given? *)
  onModelError : bool;
  onPartSelected : bool
}.

(** One run of the setup effect: its scene and the variables of its
    closure. *)
Record EffectRun : Type := mkEffectRun {
  interactive : InteractiveThreeScene;
  addedObject : option Object3D;
  animating : bool;          (* rafId is scheduled *)
  loadPending : bool;        (* [await loadGLB] has not settled *)
  runProps : Props
}.

Record Component : Type := mkComponent {
  runs : list EffectRun;             (* the effect runs, oldest first *)
  sceneRef : option nat;             (* sceneRef.current, as an index in [runs] *)
  container : option (Rect float);   (* containerRef.current *)
  isModelLoaded : bool;
  isLoadingPart : bool;
  loadProgress : Z;
  currentSelectedPart : option string;
  modelLoadedCalls : list Object3D;        (* onModelLoaded(...) *)
  modelErrorCalls : list string;           (* onModelError(...) *)
  partSelectedCalls : list (option string) (* onPartSelected(...) *)
}.

Definition initialComponent (rect : option (Rect float)) : Component :=
  mkComponent [] None rect false true 0 None [] [] [].

Definition withRuns (f : list EffectRun -> list EffectRun) (c : Component) :=
  mkComponent (f (runs c)) (sceneRef c) (container c) (isModelLoaded c)
              (isLoadingPart c) (loadProgress c) (currentSelectedPart c)
              (modelLoadedCalls c) (modelErrorCalls c) (partSelectedCalls c).

Definition withSceneRef (r : option nat) (c : Component) :=
  mkComponent (runs c) r (container c) (isModelLoaded c)
              (isLoadingPart c) (loadProgress c) (currentSelectedPart c)
              (modelLoadedCalls c) (modelErrorCalls c) (partSelectedCalls c).

Definition setIsModelLoaded (b : bool) (c : Component) :=
  mkComponent (runs c) (sceneRef c) (container c) b
              (isLoadingPart c) (loadProgress c) (currentSelectedPart c)
              (modelLoadedCalls c) (modelErrorCalls c) (partSelectedCalls c).

Definition setIsLoadingPart (b : bool) (c : Component) :=
  mkComponent (runs c) (sceneRef c) (container c) (isModelLoaded c)
              b (loadProgress c) (currentSelectedPart c)
              (modelLoadedCalls c) (modelErrorCalls c) (partSelectedCalls c).

Definition setLoadProgress (p : Z) (c : Component) :=
  mkComponent (runs c) (sceneRef c) (container c) (isModelLoaded c)
              (isLoadingPart c) p (currentSelectedPart c)
              (modelLoadedCalls c) (modelErrorCalls c) (partSelectedCalls c).

Definition setCurrentSelectedPart (p : option string) (c : Component) :=
  mkComponent (runs c) (sceneRef c) (container c) (isModelLoaded c)
              (isLoadingPart c) (loadProgress c) p
              (modelLoadedCalls c) (modelErrorCalls c) (partSelectedCalls c).

(** [onModelLoaded?.(model)], [onModelError?.(err)], [onPartSelected?.(p)]. *)
Definition callModelLoaded (given : bool) (model : Object3D) (c : Component) :=
  if given then
    mkComponent (runs c) (sceneRef c) (container c) (isModelLoaded c)
                (isLoadingPart c) (loadProgress c) (currentSelectedPart c)
                (modelLoadedCalls c ++ [model]) (modelErrorCalls c)
                (partSelectedCalls c)
  else c.

Definition callModelError (given : bool) (err : string) (c : Component) :=
  if given then
    mkComponent (runs c) (sceneRef c) (container c) (isModelLoaded c)
                (isLoadingPart c) (loadProgress c) (currentSelectedPart c)
                (modelLoadedCalls c) (modelErrorCalls c ++ [err])
                (partSelectedCalls c)
  else c.

Definition callPartSelected (given : bool) (p : option string) (c : Component) :=
  if given then
    mkComponent (runs c) (sceneRef c) (container c) (isModelLoaded c)
                (isLoadingPart c) (loadProgress c) (currentSelectedPart c)
                (modelLoadedCalls c) (modelErrorCalls c)
                (partSelectedCalls c ++ [p])
  else c.

(** The component together with the heap of three.js objects. *)
Definition World : Type := Component * Heap.

Definition updateRun (k : nat) (f : EffectRun -> EffectRun) (c : Component) :=
  withRuns (fun rs => match rs !! k with
                      | Some r => <[k := f r]> rs
                      | None => rs
                      end) c.

Definition withInteractive (f : InteractiveThreeScene -> InteractiveThreeScene)
    (r : EffectRun) : EffectRun :=
  mkEffectRun (f (interactive r)) (addedObject r) (animating r) (loadPending r)
              (runProps r).

Definition withAddedObject (o : option Object3D) (r : EffectRun) : EffectRun :=
  mkEffectRun (interactive r) o (animating r) (loadPending r) (runProps r).

Definition withLoadPending (b : bool) (r : EffectRun) : EffectRun :=
  mkEffectRun (interactive r) (addedObject r) (animating r) b (runProps r).

Definition stopAnimating (r : EffectRun) : EffectRun :=
  mkEffectRun (interactive r) (addedObject r) false (loadPending r) (runProps r).

Section WithBackends.

(** The render and asset backends: bounding boxes, the tangent, and the
    objects that a ray intersects below a root (nearest first). *)
Variable setFromObject : Heap -> Object3D -> Box3 float.
Variable tan : float -> float.
Variable intersectObject : Raycaster -> Heap -> Object3D -> list Intersection.

(** [fitCameraToObject(camera, controls, object)] on a session. *)
Definition fitCamera (obj : Object3D) (h : Heap) (s : InteractiveThreeScene)
  : InteractiveThreeScene :=
  let (cam, ctl) :=
    @fitCameraToObject float floatNumber (floatMath tan)
      (camera s) (controls s) (setFromObject h obj) in
  withView cam ctl s.

(** [getIntersects]. *)
Definition getIntersects (clientX clientY : float) (rect : Rect float)
    (h : Heap) (s : InteractiveThreeScene)
  : option Intersection * InteractiveThreeScene :=
  if degenerateRect rect then (None, s)
  else
    let s := withRay (deviceCoordinates clientX clientY rect) s in
    match mesh s with
    | None => (None, s)
    | Some m => (head (intersectObject (raycaster s) h m), s)
    end.

(** [setupScene] followed by [setupInteraction]: a scene with the three
    lights, the camera at (200, 150, 200) with a 45 degree field of view. *)
Definition setupScene : M InteractiveThreeScene := fun h =>
  let n := nextObject h in
  let light (k : nat) := mkObject3D (n + k) "" false [] in
  let sc := mkObject3D n "" false [light 1; light 2; light 3] in
  let cam := mkCamera (mkVector3 (ofZ 200) (ofZ 150) (ofZ 200)) (ofZ 45) zero3 in
  let ctl := mkControls zero3 true false in
  (mkInteractive sc cam ctl None None (mkVector2 (ofZ 0) (ofZ 0)) [] false,
   mkHeap (materialOf h) (geometryOf h) (positionOf h) (materials h)
          (disposedGeometries h) (disposedMaterials h) (disposedTextures h)
          (n + 4) (nextMaterial h) (nextGeometry h)).

(** The block [if (addedObject) { resetModelColor; remove; dispose }] used
    by the load and by the cleanup. *)
Definition dropAdded (r : EffectRun) (h : Heap) : EffectRun * Heap :=
  match addedObject r with
  | Some added =>
      let (_, h1) := resetModelColor (originalMaterials (interactive r)) h in
      let r1 := withInteractive (withScene (removeChild added)) r in
      let (_, h2) := disposeObject added h1 in
      (withAddedObject None r1, h2)
  | None => (r, h)
  end.

(** The part of [load] after the model is at hand: [if (objToAdd) {...}]. *)
Definition attach (objToAdd : Object3D) (r : EffectRun) (h : Heap)
  : EffectRun * Heap :=
  let (r, h) := dropAdded r h in
  let r := withInteractive (withScene (addChild objToAdd)) r in
  let r := withInteractive (withMesh (Some objToAdd)) r in
  let r := withAddedObject (Some objToAdd) r in
  let (r, h) :=
    match isolatedPart (runProps r) with
    | Some _ =>
        let (st, h) :=
          collectOriginalMaterials objToAdd (originalMaterials (interactive r)) h in
        let r := withInteractive (withStore st) r in
        let meshesToHighlight := meshesOf objToAdd in
        match meshesToHighlight with
        | [] => (r, h)
        | _ :: _ => let (_, h) := highlightPart (inr meshesToHighlight) h in (r, h)
        end
    | None => (r, h)
    end in
  (withInteractive (fitCamera objToAdd h) r, h).

(** What [load] does with a model: normalise, capture, report, attach,
    and finally clear the loading flag.  [k] is the effect run whose
    closure executes. *)
Definition loadWith (k : nat) (model : Object3D) (w : World) : World :=
  let (c, h) := w in
  match runs c !! k with
  | None => w
  | Some r =>
      let (_, h) := normalizeModelSizeAndPosition setFromObject model (ofZ 4) h in
      let (st, h) :=
        collectOriginalMaterials model (originalMaterials (interactive r)) h in
      let r := withInteractive (withStore st) r in
      let c := callModelLoaded (onModelLoaded (runProps r)) model c in
      let c := setIsModelLoaded true c in
      let (r, h) := attach model r h in
      let c := updateRun k (fun _ => r) c in
      (setIsLoadingPart false c, h)
  end.

(** The setup effect: a new scene, then [load()] up to its first
    suspension.  With an isolated part the load has no suspension and
    completes at once. *)
Definition runEffect (p : Props) (w : World) : World :=
  let (c, h) := w in
  match container c with
  | None => w
  | Some _ =>
      let (s, h) := setupScene h in
      let s := withView (camera s)
                 (mkControls (target (controls s)) (negb (thumbnailMode p))
                             (controlsDisposed (controls s))) s in
      let k := List.length (runs c) in
      let r := mkEffectRun s None true false p in
      let c := withSceneRef (Some k) (withRuns (fun rs => rs ++ [r]) c) in
      let c := setLoadProgress 0 (setIsLoadingPart true c) in
      match isolatedPart p with
      | Some part => loadWith k part (c, h)
      | None => (updateRun k (withLoadPending true) c, h)
      end
  end.

(** The cleanup of the setup effect that is current. *)
Definition cleanupEffect (w : World) : World :=
  let (c, h) := w in
  match sceneRef c with
  | None => w
  | Some k =>
      match runs c !! k with
      | None => w
      | Some r =>
          let r := stopAnimating r in
          let (r, h) :=
            match addedObject r with
            | Some _ =>
                let (r, h) := dropAdded r h in
                (withInteractive (withMesh None) r, h)
            | None => (r, h)
            end in
          let s := interactive r in
          let s := withView (camera s)
                     (mkControls (target (controls s)) (enabled (controls s)) true) s in
          let s := withStore [] (withRendererDisposed s) in
          let c := updateRun k (fun _ => withInteractive (fun _ => s) r) c in
          (withSceneRef None c, h)
      end
  end.

(** The asset backend settles the [loadGLB] promise of effect run [k]. *)
Definition loadSettled (k : nat) (result : LoadResult) (w : World) : World :=
  let (c, h) := w in
  match runs c !! k with
  | None => w
  | Some r =>
      if loadPending r then
        let c := updateRun k (withLoadPending false) c in
        match result with
        | Loaded gltfGroup => loadWith k gltfGroup (c, h)
        | Failed err =>
            (setIsLoadingPart false
               (callModelError (onModelError (runProps r)) err c), h)
        end
      else w
  end.

(** The three branches of [handleClick] that end in "no selection". *)
Definition clearSelection (k : nat) (r : EffectRun) (w : World) : World :=
  let (c, h) := w in
  let c := setCurrentSelectedPart None c in
  let c := callPartSelected (onPartSelected (runProps r)) None c in
  let (_, h) := resetModelColor (originalMaterials (interactive r)) h in
  (c, h).

(** [handleClick]. *)
Definition handleClick (clientX clientY : float) (w : World) : World :=
  let (c, h) := w in
  match sceneRef c with
  | None => w
  | Some k =>
  match runs c !! k with
  | None => w
  | Some r =>
  match mesh (interactive r) with
  | None => w
  | Some root =>
  if thumbnailMode (runProps r) then w
  else
  match container c with
  | None => w
  | Some rect =>
      let (intersect, s) := getIntersects clientX clientY rect h (interactive r) in
      let r := withInteractive (fun _ => s) r in
      let c := updateRun k (fun _ => r) c in
      match intersect with
      | None => clearSelection k r (c, h)
      | Some hit =>
          let sel := climb root (object hit) (parentsOf (object hit) (scene s)) in
          if sameObject sel root then clearSelection k r (c, h)
          else
            match clickPartName (name sel) with
            | None => clearSelection k r (c, h)
            | Some partName =>
                if isEmpty partName then clearSelection k r (c, h)
                else
                  let newSel :=
                    match currentSelectedPart c with
                    | Some cur =>
                        if String.eqb cur partName then None else Some partName
                    | None => Some partName
                    end in
                  let (_, h) := resetModelColor (originalMaterials s) h in
                  let (r, h) :=
                    match newSel with
                    | Some _ =>
                        match meshesOf sel with
                        | [] => (r, h)
                        | meshesToHighlight =>
                            let (st, h) :=
                              collectOriginalMaterials root (originalMaterials s) h in
                            let (_, h) := highlightPart (inr meshesToHighlight) h in
                            (withInteractive
                               (fun s => fitCamera sel h (withStore st s)) r, h)
                        end
                    | None => (withInteractive (fitCamera root h) r, h)
                    end in
                  let c := updateRun k (fun _ => r) c in
                  let c := setCurrentSelectedPart newSel c in
                  (callPartSelected (onPartSelected (runProps r)) newSel c, h)
            end
      end
  end
  end
  end
  end.

(** What can happen to a viewer.  A [Render] stands for the first render
    or for a render that changes a dependency of the setup effect, so that
    the effect is cleaned up and run again: the handlers always see the
    props of the current effect run.  Progress reports of a pending load
    only move the progress bar and are left out. *)
Inductive Event : Type :=
| Render (p : Props)                       (* first render, or a render that
                                              changes a dependency of the
                                              setup effect *)
| Unmount
| LoadSettled (k : nat) (result : LoadResult)
| Click (clientX clientY : float).

Definition step (w : World) (e : Event) : World :=
  match e with
  | Render p => runEffect p (cleanupEffect w)
  | Unmount => cleanupEffect w
  | LoadSettled k result => loadSettled k result w
  | Click x y => handleClick x y w
  end.

Definition run (w : World) (es : list Event) : World := fold_left step es w.

End WithBackends.

End Session.
(* ================================================================== *)
(** ** Notions used to state the properties *)
(* ================================================================== *)

Module Properties.
Import Names Numbers Scene Session.
Local Open Scope list_scope.

(** *** Looks of materials *)

(** What a material slot looks like: the content of its material(s). *)
Definition materialLook (h : Heap) (s : MaterialSlot)
  : option Material + list (option Material) :=
  match s with
  | Single r => inl (materials h !! r)
  | Multi rs => inr (map (fun r => materials h !! r) rs)
  end.

(** The look of a mesh: [None] when [mesh.material] is unset. *)
Definition meshLook (h : Heap) (mesh : Object3D)
  : option (option Material + list (option Material)) :=
  materialLook h <$> (materialOf h !! uid mesh).

(** Every material referenced by a mesh has been allocated. *)
Definition heapOk (h : Heap) : Prop :=
  map_Forall (fun _ s => Forall (fun r => r < nextMaterial h) (slotMaterials s))
             (materialOf h).

(** [h'] has the materials of [h], unchanged, and possibly more. *)
Definition extends (h h' : Heap) : Prop :=
  nextMaterial h <= nextMaterial h'
  /\ forall r, r < nextMaterial h -> materials h' !! r = materials h !! r.

Definition slotBelow (n : nat) (s : MaterialSlot) : Prop :=
  forall r, r ∈ slotMaterials s -> r < n.

Definition slotFresh (lo hi : nat) (s : MaterialSlot) : Prop :=
  forall r, r ∈ slotMaterials s -> lo <= r < hi.

(** A store whose keys are distinct meshes. *)
Definition storeOk (store : Store) : Prop :=
  NoDup (map (fun e => uid (fst e)) store)
  /\ forall e, e ∈ store -> isMesh (fst e) = true.

Definition storeBelow (n : nat) (store : Store) : Prop :=
  forall e, e ∈ store -> slotBelow n (snd e).

(** [s'] is a snapshot of the look that [m] had in [h0], made of materials
    allocated from [lo] on. *)
Definition captured (h0 : Heap) (lo : nat) (h' : Heap) (m : Object3D)
    (s' : MaterialSlot) : Prop :=
  Some (materialLook h' s') = meshLook h0 m
  /\ slotFresh lo (nextMaterial h') s'.


(** Highlights and restores, in any order. *)
Inductive HighlightOp : Type :=
| DoHighlight (meshOrMeshes : Object3D + list Object3D)
| DoRestore.

Definition runOp (store : Store) (h : Heap) (op : HighlightOp) : Heap :=
  match op with
  | DoHighlight arg => snd (highlightPart arg h)
  | DoRestore => snd (resetModelColor store h)
  end.

Definition runOps (store : Store) (ops : list HighlightOp) (h : Heap) : Heap :=
  fold_left (runOp store) ops h.

(** *** Part identities of an asset *)

(** A node qualifies for the listing when it is named and its identity is
    neither empty nor reserved. *)
Definition qualifies (child : Object3D) : bool :=
  negb (isEmpty (name child))
  && negb (isEmpty (clean (name child)))
  && negb (reserved (clean (name child))).

Definition identitiesOf (model : Object3D) : list string :=
  map (fun child => clean (name child))
      (List.filter qualifies (traverse model)).

(** A node matches a requested part when it is named and its identity is
    the cleaned request. *)
Definition matchesPart (partName : string) (child : Object3D) : bool :=
  negb (isEmpty (name child))
  && String.eqb (cleanNodeName (name child)) (trim (toLowerCase partName)).

(** *** Framing, in exact arithmetic *)

(** The two constant factors of the code, [1.3] and [1.5]. *)
Definition marginFactor : R := (13 / 10 * (15 / 10))%R.

(** Half the vertical field of view, in radians. *)
Definition halfFov (camera : PerspectiveCamera R) : R :=
  (fov camera * (PI / 180) / 2)%R.

(** The diagonal used when the previous direction is negligible. *)
Definition defaultDirection : Vector3 R := mkVector3 1%R (6 / 10)%R 1%R.

Definition previousDirection (camera : PerspectiveCamera R)
    (controls : OrbitControls R) : Vector3 R :=
  @vsub R realNumber (position camera) (target controls).







(** *** Clicks *)

(** The hit resolves to the root: either the test [sel === current.mesh] of
    the code holds after the climb, or the ray hit the root object itself
    and the root sits directly in the unnamed scene of [setupScene]. *)
Definition resolvesToRoot (s : InteractiveThreeScene) (root : Object3D)
    (hit : Intersection) : Prop :=
  sameObject (climb root (object hit) (parentsOf (object hit) (scene s))) root
  = true
  \/ (sameObject (object hit) root = true
      /\ parentsOf (object hit) (scene s) = [scene s]
      /\ name (scene s) = "").

End Properties.
(* ================================================================== *)
(** ** Sample assets, cameras and backends *)
(* ================================================================== *)

Module Samples.
Import Names Numbers Scene Session Properties.
Local Open Scope list_scope.

(** *** A small assembly *)

Definition steel : Material := {|
  color := 0x8899aa; emissive := 0; emissiveIntensity := fdec 1 1;
  roughness := fdec 5 10; metalness := fdec 1 1; transparent := false;
  opacity := fdec 1 1; textures := [7]
|}.

Definition brass : Material := {|
  color := 0xb5a642; emissive := 0; emissiveIntensity := fdec 1 1;
  roughness := fdec 3 10; metalness := fdec 1 1; transparent := false;
  opacity := fdec 1 1; textures := []
|}.

Definition bracket : Object3D := mkObject3D 1 "Bracket-01" true [].
Definition bolt : Object3D := mkObject3D 2 "bolt-01" true [].
Definition assembly : Object3D := mkObject3D 0 "Scene" false [bracket; bolt].

(** The bracket has one material, the bolt an array of two. *)
Definition assemblyHeap : Heap :=
  mkHeap (<[1 := Single 0]> (<[2 := Multi [0; 1]]> ∅)) ∅ ∅
         (<[0 := steel]> (<[1 := brass]> ∅)) [] [] [] 3 2 0.

Definition assemblyStore : Store :=
  fst (collectOriginalMaterials assembly [] assemblyHeap).

Definition assemblyCaptured : Heap :=
  snd (collectOriginalMaterials assembly [] assemblyHeap).

Definition someHighlights : list HighlightOp :=
  [DoHighlight (inr [bracket; bolt]); DoHighlight (inl bolt); DoRestore;
   DoHighlight (inl bracket)].

(** *** Two brackets side by side *)

Definition firstBracket : Object3D := mkObject3D 1 "bracket-01" true [].
Definition secondBracket : Object3D := mkObject3D 2 "Bracket-02" true [].
Definition twoBrackets : Object3D :=
  mkObject3D 0 "Scene" false [firstBracket; secondBracket].

Definition twoBracketsHeap : Heap :=
  mkHeap (<[1 := Single 0]> (<[2 := Single 0]> ∅))
         (<[1 := 0]> (<[2 := 1]> ∅)) ∅
         (<[0 := steel]> ∅) [] [] [] 3 1 2.

(** *** A scene whose only named node is the root ["Scene"] *)

Definition unnamedMesh : Object3D := mkObject3D 1 "" true [].
Definition sceneOnly : Object3D := mkObject3D 0 "Scene" false [unnamedMesh].

(** *** Cameras and boxes *)


Definition initialControls : OrbitControls R :=
  mkControls (mkVector3 0 0 0)%R true false.

(** A box of extents 2 x 4 x 2, and a box reduced to a point. *)
Definition someBox : Box3 R := mkBox3 (mkVector3 1 1 1)%R (mkVector3 3 5 3)%R.

Definition pointBox : Box3 R := mkBox3 (mkVector3 1 2 3)%R (mkVector3 1 2 3)%R.

(** A box whose bounds are not numbers. *)
Definition nanVector : Vector3 float :=
  mkVector3 PrimFloat.nan PrimFloat.nan PrimFloat.nan.

Definition nanBox : Box3 float := mkBox3 nanVector nanVector.

(** *** Backends to run the component on *)

(** Every object is bounded by the unit cube. *)
Definition unitBox (h : Heap) (o : Object3D) : Box3 float :=
  mkBox3 zero3 (mkVector3 (ofZ 1) (ofZ 1) (ofZ 1)).

(** The tangent as far as the camera of [setupScene] needs it: its value at
    half of 45 degrees. *)
Definition halfOf45 : float :=
  PrimFloat.div (PrimFloat.mul (ofZ 45) (PrimFloat.div float_pi (ofZ 180))) (ofZ 2).

Definition tanAtHalfOf45 (a : float) : float :=
  if PrimFloat.eqb a halfOf45 then 0x1.a827999fcef32p-2%float else PrimFloat.nan.

(** A ray that hits nothing, and a ray that hits the root itself. *)
Definition hitNothing (ray : Raycaster) (h : Heap) (root : Object3D)
  : list Intersection := [].

Definition hitRoot (ray : Raycaster) (h : Heap) (root : Object3D)
  : list Intersection := [mkIntersection root].

Definition viewport : Rect float := mkRect (ofZ 0) (ofZ 0) (ofZ 800) (ofZ 600).

Definition viewerProps (url : string) : Props :=
  mkProps url false None true true true.

(** The assembly is loaded in a viewer. *)
Definition loadedWorld : World :=
  run unitBox tanAtHalfOf45 hitNothing
      (initialComponent (Some viewport), assemblyHeap)
      [Render (viewerProps "a.glb"); LoadSettled 0 (Loaded assembly)].

(** An isolated bracket shown in thumbnail mode: the load highlights it. *)
Definition thumbnailProps : Props :=
  mkProps "a.glb" true (Some bracket) true true true.

Definition thumbnailWorld : World :=
  run unitBox tanAtHalfOf45 hitNothing
      (initialComponent (Some viewport), assemblyHeap)
      [Render thumbnailProps].

(** The viewer is rendered for [a.glb]; before that load settles it is
    rendered for [b.glb]; then the first load settles. *)
Definition supersededTrace : list Event :=
  [Render (viewerProps "a.glb"); Render (viewerProps "b.glb");
   LoadSettled 0 (Loaded assembly)].

(** The viewer is unmounted before its load settles. *)
Definition unmountedTrace : list Event :=
  [Render (viewerProps "a.glb"); Unmount; LoadSettled 0 (Loaded assembly)].

Definition afterTrace (es : list Event) : World :=
  run unitBox tanAtHalfOf45 hitNothing
      (initialComponent (Some viewport), assemblyHeap) es.

End Samples.
(* ================================================================== *)
(** ** Further notions: frames, ownership, well-formed heaps *)
(* ================================================================== *)

Module Notions.
Import Names Numbers Scene Session Properties.
Local Open Scope list_scope.

(** *** Searching by base name *)

(** The test of [findNodeByBaseName] on one node. *)
Definition baseMatches (baseName : string) (child : Object3D) : bool :=
  negb (isEmpty (name child))
  && String.eqb (childBase (name child)) (toLowerCase baseName).

(** *** What a computation leaves alone *)

(** The per-object fields and the disposal logs are the same: only
    material objects may have been allocated in between. *)
Definition sameScene (h h' : Heap) : Prop :=
  materialOf h' = materialOf h
  /\ geometryOf h' = geometryOf h
  /\ positionOf h' = positionOf h
  /\ disposedGeometries h' = disposedGeometries h
  /\ disposedMaterials h' = disposedMaterials h
  /\ disposedTextures h' = disposedTextures h
  /\ nextObject h' = nextObject h
  /\ nextGeometry h' = nextGeometry h.

(** The objects with an identity below [n] have the same material slot,
    geometry and position. *)
Definition untouchedBelow (n : nat) (h h' : Heap) : Prop :=
  forall u, u < n ->
    materialOf h' !! u = materialOf h !! u
    /\ geometryOf h' !! u = geometryOf h !! u
    /\ positionOf h' !! u = positionOf h !! u.

(** Geometries, positions, material objects and the allocation counters
    are the same: only material slots and disposal logs may differ. *)
Definition sameObjects (h h' : Heap) : Prop :=
  geometryOf h' = geometryOf h
  /\ positionOf h' = positionOf h
  /\ materials h' = materials h
  /\ nextObject h' = nextObject h
  /\ nextMaterial h' = nextMaterial h
  /\ nextGeometry h' = nextGeometry h.

(** At most the position of the object [u] differs. *)
Definition onlyPositionOf (u : nat) (h h' : Heap) : Prop :=
  materialOf h' = materialOf h
  /\ geometryOf h' = geometryOf h
  /\ materials h' = materials h
  /\ nextObject h' = nextObject h
  /\ nextMaterial h' = nextMaterial h
  /\ nextGeometry h' = nextGeometry h
  /\ disposedGeometries h' = disposedGeometries h
  /\ disposedMaterials h' = disposedMaterials h
  /\ disposedTextures h' = disposedTextures h
  /\ forall v, v <> u -> positionOf h' !! v = positionOf h !! v.

(** Nothing was disposed in between. *)
Definition sameDisposals (h h' : Heap) : Prop :=
  disposedGeometries h' = disposedGeometries h
  /\ disposedMaterials h' = disposedMaterials h
  /\ disposedTextures h' = disposedTextures h.

(** *** Well-formed heaps and models *)

(** Every geometry referenced by an object has been allocated. *)
Definition geometryOk (h : Heap) : Prop :=
  map_Forall (fun _ g => g < nextGeometry h) (geometryOf h).

(** The disposal logs mention allocated materials and geometries only. *)
Definition logsOk (h : Heap) : Prop :=
  Forall (fun r => r < nextMaterial h) (disposedMaterials h)
  /\ Forall (fun g => g < nextGeometry h) (disposedGeometries h).

(** The nodes of the model are objects that have been allocated. *)
Definition allocated (h : Heap) (model : Object3D) : Prop :=
  Forall (fun c => uid c < nextObject h) (traverse model).

(** The material references of a mesh, as [disposeObject] reads them. *)
Definition materialsOfMesh (h : Heap) (m : Object3D) : list nat :=
  match materialOf h !! uid m with
  | Some slot => slotMaterials slot
  | None => []
  end.

(** The geometry reference of a mesh, if it has one. *)
Definition geometriesOfMesh (h : Heap) (m : Object3D) : list nat :=
  match geometryOf h !! uid m with
  | Some g => [g]
  | None => []
  end.

(** The textures of a material. *)
Definition texturesOf (h : Heap) (r : nat) : list nat :=
  match materials h !! r with
  | Some m => textures m
  | None => []
  end.

(** The meshes that a call of [highlightPart] is given. *)
Definition highlightTargets (meshOrMeshes : Object3D + list Object3D)
  : list Object3D :=
  match meshOrMeshes with
  | inl mesh => [mesh]
  | inr meshes => meshes
  end.

(** The look of a mesh that shows one material with the given content. *)
Definition showsOnly (h : Heap) (mesh : Object3D) (content : Material) : Prop :=
  meshLook h mesh = Some (inl (Some content)).

(** *** The inner loop of [cloneObject] *)

(** The children are cloned one after the other, each with its subtree. *)
Fixpoint cloneChildren (l : list Object3D) (h : Heap) : list Object3D * Heap :=
  match l with
  | [] => ([], h)
  | c :: r =>
      let (c', h') := cloneObject c h in
      let (r', h'') := cloneChildren r h' in
      (c' :: r', h'')
  end.

(** [h'] is [h] after objects were cloned: the new objects [ts] have the
    identities from [nextObject h] on, the objects that existed keep their
    fields, and no material or geometry was allocated or disposed. *)
Definition clonedFrom (h : Heap) (ts : list Object3D) (h' : Heap) : Prop :=
  nextObject h <= nextObject h'
  /\ untouchedBelow (nextObject h) h h'
  /\ Forall (fun c => nextObject h <= uid c < nextObject h') ts
  /\ materials h' = materials h
  /\ nextMaterial h' = nextMaterial h
  /\ nextGeometry h' = nextGeometry h
  /\ sameDisposals h h'.

(** *** Ownership of the resources of a mesh *)

(** The mesh has no material, or a material slot made of materials
    allocated from [lo] on. *)
Definition ownsMaterials (lo : nat) (h : Heap) (c : Object3D) : Prop :=
  forall r, r ∈ materialsOfMesh h c -> lo <= r < nextMaterial h.

(** The mesh has no geometry, or a geometry allocated from [lo] on. *)
Definition ownsGeometry (lo : nat) (h : Heap) (c : Object3D) : Prop :=
  forall g, g ∈ geometriesOfMesh h c -> lo <= g < nextGeometry h.

(** Between [h] and [h'] the material slot of the object [u] was left as
    it was, or was replaced by a slot of materials allocated from [lo]
    on. *)
Definition slotKeptOrOwned (lo : nat) (h h' : Heap) (u : nat) : Prop :=
  materialOf h' !! u = materialOf h !! u
  \/ exists s, materialOf h' !! u = Some s
               /\ slotFresh lo (nextMaterial h') s.

(** The same for the geometry of the object. *)
Definition geometryKeptOrOwned (lo : nat) (h h' : Heap) (u : nat) : Prop :=
  geometryOf h' !! u = geometryOf h !! u
  \/ exists g, geometryOf h' !! u = Some g /\ lo <= g < nextGeometry h'.

(** [ct] in [h'] is a copy of [co] in [h]: same name, same kind, same
    material slot and same geometry. *)
Definition copyOf (h h' : Heap) (ct co : Object3D) : Prop :=
  name ct = name co /\ isMesh ct = isMesh co
  /\ materialOf h' !! uid ct = materialOf h !! uid co
  /\ geometryOf h' !! uid ct = geometryOf h !! uid co.

(** [ct] in [h'] has the name, the kind and the look of [co] in [h]. *)
Definition looksLike (h h' : Heap) (ct co : Object3D) : Prop :=
  name ct = name co /\ isMesh ct = isMesh co
  /\ meshLook h' ct = meshLook h co.

(** Every material of [h'] has the content, and so the textures, of a
    material of [h]: cloning a material copies its content and shares its
    textures. *)
Definition contentsFrom (h h' : Heap) : Prop :=
  forall r m, materials h' !! r = Some m -> exists r0, materials h !! r0 = Some m.

(** *** Sessions in good order *)

(** The store holds snapshots, made of allocated materials, of distinct
    meshes, and every mesh references allocated materials. *)
Definition sessionOk (h : Heap) (store : Store) : Prop :=
  storeOk store /\ storeBelow (nextMaterial h) store /\ heapOk h.

(** Every look that [store] records in [h] is recorded by [store'] in
    [h'], for the same mesh. *)
Definition recordsSameLooks (h : Heap) (store : Store) (h' : Heap)
    (store' : Store) : Prop :=
  forall mesh stored, storeGet mesh store = Some stored ->
    exists stored', storeGet mesh store' = Some stored'
                    /\ materialLook h' stored' = materialLook h stored.

(** Every mesh that [store] records shows in [h'] the look recorded in
    [h], unless it is one of [highlighted]. *)
Definition showsRecordedLooks (h : Heap) (store : Store) (h' : Heap)
    (highlighted : list Object3D) : Prop :=
  forall mesh stored, storeGet mesh store = Some stored ->
    uid mesh ∉ map uid highlighted ->
    meshLook h' mesh = Some (materialLook h stored).

(** A list of click points as events. *)
Definition clicks (points : list (float * float)) : list Event :=
  map (fun p => Click (fst p) (snd p)) points.

(** *** Effect runs that are live or torn down *)

(** Whether the render loop of the run is scheduled, and whether its
    controls and its renderer have been disposed. *)
Definition status (r : EffectRun) : bool * bool * bool :=
  (animating r, controlsDisposed (controls (interactive r)),
   rendererDisposed (interactive r)).

Definition live (r : EffectRun) : Prop := status r = (true, false, false).

Definition tornDown (r : EffectRun) : Prop := status r = (false, true, true).

(** At most one scene is live: the current effect run, which is the last
    one started; every other run has been torn down. *)
Definition oneLiveScene (c : Component) : Prop :=
  match sceneRef c with
  | Some k => S k = List.length (runs c)
              /\ exists r, runs c !! k = Some r /\ live r
  | None => True
  end
  /\ forall j r, runs c !! j = Some r -> sceneRef c <> Some j -> tornDown r.

(** The same runs with the same status, and the same current run. *)
Definition sameStatuses (c c' : Component) : Prop :=
  sceneRef c' = sceneRef c
  /\ List.length (runs c') = List.length (runs c)
  /\ forall j r', runs c' !! j = Some r' ->
       exists r, runs c !! j = Some r /\ status r' = status r.

(** No model is attached to the current effect run: there is no current
    run, or its [mesh] is [null]. *)
Definition noModelAttached (c : Component) : Prop :=
  forall k r, sceneRef c = Some k -> runs c !! k = Some r ->
    mesh (interactive r) = None.

(** *** The state of an extraction *)

(** What holds of the result [acc] and the heap [h] while
    [extractPartByName] runs from the heap [h0]: the objects of [h0] keep
    their fields and the materials of [h0] their content, nothing is
    disposed, and the nodes of the result are new objects whose meshes own
    their materials and geometries. *)
Definition extractionState (h0 : Heap) (acc : option Object3D) (h : Heap)
  : Prop :=
  nextObject h0 <= nextObject h
  /\ untouchedBelow (nextObject h0) h0 h
  /\ extends h0 h
  /\ nextGeometry h0 <= nextGeometry h
  /\ sameDisposals h0 h
  /\ forall t, acc = Some t ->
       Forall (fun c => nextObject h0 <= uid c < nextObject h) (traverse t)
       /\ forall c, c ∈ traverse t -> isMesh c = true ->
            ownsMaterials (nextMaterial h0) h c
            /\ ownsGeometry (nextGeometry h0) h c.

End Notions.
(* ================================================================== *)
(** ** Placement of a model, in any arithmetic *)
(* ================================================================== *)

Module Placement.
Import Numbers.

Section Generic.
Context {num : Type} {JN : JsNumber num}.
Local Open Scope num_scope.

(** The position that [normalizeModelSizeAndPosition] gives to an object
    at position [p] whose bounding box is [box]:
    [position.sub(center)], then
    [position.y = position.y + size.y / 2 + floatingY]. *)
Definition normalizedPosition (box : Box3 num) (p : Vector3 num)
    (floatingY : num) : Vector3 num :=
  let size := getSize box in
  let center := getCenter box in
  let p := vsub p center in
  mkVector3 (vx p) (vy p + vy size / ofZ 2 + floatingY) (vz p).

(** A box moved by [d], as the world box of an object is when the position
    of the object moves by [d]. *)
Definition translateBox (b : Box3 num) (d : Vector3 num) : Box3 num :=
  mkBox3 (vadd (bmin b) d) (vadd (bmax b) d).

End Generic.

End Placement.
(* ================================================================== *)
(** ** Selecting a part from outside: the prop and the imperative handle *)
(* ================================================================== *)

Module Selection.
Import Names Numbers Scene Session.
Local Open Scope list_scope.

(** A part name that passes the test [if (selectedPartName)]: neither
    [null] nor the empty string. *)
Definition truthyName (partName : option string) : option string :=
  match partName with
  | Some s => if isEmpty s then None else Some s
  | None => None
  end.

Section WithBackends.

Variable setFromObject : Heap -> Object3D -> Box3 float.
Variable tan : float -> float.

(** The block shared by the effect and the handle: collect the meshes of
    the target and, when there are some, capture the materials of the model
    again, highlight the meshes and frame the target. *)
Definition highlightTarget (root target : Object3D) (r : EffectRun) (h : Heap)
  : EffectRun * Heap :=
  match meshesOf target with
  | [] => (r, h)
  | meshesToHighlight =>
      let (st, h) :=
        collectOriginalMaterials root (originalMaterials (interactive r)) h in
      let (_, h) := highlightPart (inr meshesToHighlight) h in
      (withInteractive
         (fun s => fitCamera setFromObject tan target h (withStore st s)) r, h)
  end.

(** The effect of [View3D] that runs when the prop [selectedPartName]
    changes.  The prop [isolatedPart] it tests is read from the props of
    the current run of the setup effect: that effect depends on
    [isolatedPart] and has run again, before this one, whenever the prop
    changed. *)
Definition selectionEffect (selectedPartName : option string) (w : World)
  : World :=
  let (c, h) := w in
  match sceneRef c with
  | None => w
  | Some k =>
  match runs c !! k with
  | None => w
  | Some r =>
  match mesh (interactive r) with
  | None => w
  | Some root =>
  match isolatedPart (runProps r) with
  | Some _ => w
  | None =>
      let (_, h) := resetModelColor (originalMaterials (interactive r)) h in
      match truthyName selectedPartName with
      | Some partName =>
          match findNodeByBaseName root partName with
          | Some target =>
              let (r, h) := highlightTarget root target r h in
              (setCurrentSelectedPart (Some partName)
                 (updateRun k (fun _ => r) c), h)
          | None => (setCurrentSelectedPart None c, h)
          end
      | None =>
          let r := withInteractive (fitCamera setFromObject tan root h) r in
          (setCurrentSelectedPart None (updateRun k (fun _ => r) c), h)
      end
  end
  end
  end
  end.

(** The callback that [highlightPartByName] of the imperative handle
    schedules with [setTimeout]. *)
Definition highlightPartByName (partName : option string) (w : World) : World :=
  let (c, h) := w in
  let current :=
    match sceneRef c with
    | Some k => match runs c !! k with Some r => Some (k, r) | None => None end
    | None => None
    end in
  match partName with
  | None =>
      match current with
      | Some (k, r) =>
          let (_, h) := resetModelColor (originalMaterials (interactive r)) h in
          let r :=
            match mesh (interactive r) with
            | Some root =>
                withInteractive (fitCamera setFromObject tan root h) r
            | None => r
            end in
          (setCurrentSelectedPart None (updateRun k (fun _ => r) c), h)
      | None => (setCurrentSelectedPart None c, h)
      end
  | Some name =>
      match current with
      | None => (setCurrentSelectedPart (Some name) c, h)
      | Some (k, r) =>
          match mesh (interactive r) with
          | None => (setCurrentSelectedPart (Some name) c, h)
          | Some root =>
              match findNodeByBaseName root name with
              | Some target =>
                  let (_, h) :=
                    resetModelColor (originalMaterials (interactive r)) h in
                  let (r, h) := highlightTarget root target r h in
                  (setCurrentSelectedPart (Some name)
                     (updateRun k (fun _ => r) c), h)
              | None => (setCurrentSelectedPart None c, h)
              end
          end
      end
  end.

End WithBackends.

End Selection.
(* ================================================================== *)
(** ** The gallery: pages of thumbnails *)
(* ================================================================== *)

Module Gallery.
Local Open Scope Z_scope.

Definition MODELOS_POR_PAGINA : Z := 6.

(** [Math.ceil(a / b)] on integers, as the ceiling of the exact quotient.
    The code divides the length of an array, an integer below 2^32, by 6:
    the binary64 quotient of such numbers has the ceiling of the exact
    one. *)
Definition ceilOfQuotient (a b : Z) : Z :=
  Qround.Qceiling
    (QArith_base.Qdiv (QArith_base.inject_Z a) (QArith_base.inject_Z b)).

(** [Array.prototype.slice(start, end)] for integer arguments: a negative
    index counts from the end, and both indices are clamped to the
    array. *)
Definition relativeIndex (len i : Z) : Z :=
  if i <? 0 then Z.max (len + i) 0 else Z.min i len.

Definition slice {A} (l : list A) (start end_ : Z) : list A :=
  let len := Z.of_nat (length l) in
  let k := relativeIndex len start in
  let final := relativeIndex len end_ in
  take (Z.to_nat (Z.max (final - k) 0)) (drop (Z.to_nat k) l).

(** The values that [GaleriaComponente] computes at each render from the
    prop [modelos] and the state [paginaAtual]. *)
Definition totalPaginas {A} (modelos : list A) : Z :=
  Z.max 1 (ceilOfQuotient (Z.of_nat (length modelos)) MODELOS_POR_PAGINA).

Definition modelosParaExibir {A} (modelos : list A) (paginaAtual : Z) : list A :=
  let start := paginaAtual * MODELOS_POR_PAGINA in
  let end_ := start + MODELOS_POR_PAGINA in
  slice modelos start end_.

(** The two handlers, as the functions that they pass to
    [setPaginaAtual]. *)
Definition proximaPagina {A} (modelos : list A) (p : Z) : Z :=
  Z.min (p + 1) (totalPaginas modelos - 1).

Definition paginaAnterior (p : Z) : Z := Z.max (p - 1) 0.

(** The presses of the two buttons. *)
Inductive Press : Type := Proxima | Anterior.

Definition press {A} (modelos : list A) (p : Z) (b : Press) : Z :=
  match b with
  | Proxima => proximaPagina modelos p
  | Anterior => paginaAnterior p
  end.

(** The page after a sequence of presses, the prop [modelos] being the
    same at every render. *)
Definition navigate {A} (modelos : list A) (pressed : list Press) (p : Z) : Z :=
  fold_left (press modelos) pressed p.

(** The [disabled] attributes of the two buttons. *)
Definition proximaDisabled {A} (modelos : list A) (p : Z) : bool :=
  p >=? totalPaginas modelos - 1.
Definition anteriorDisabled (p : Z) : bool := p =? 0.

End Gallery.

(* ================================================================== *)
(** ** Thumbnails of models and parts *)
(* ================================================================== *)

Module Thumbnails.
Import Names Numbers Scene Selection.
Local Open Scope list_scope.

(** The state of a [Miniatura3D] that [generateThumbnail] writes. *)
Record Miniatura : Type := mkMiniatura {
  thumbDataUrl : option string;
  hasError : bool
}.

Definition setThumbDataUrl (url : option string) (m : Miniatura) : Miniatura :=
  mkMiniatura url (hasError m).

Definition setHasError (b : bool) (m : Miniatura) : Miniatura :=
  mkMiniatura (thumbDataUrl m) b.

(** [thumbnailCache], the map shared by all thumbnails of the page. *)
Definition ThumbnailCache : Type := gmap string string.

(** [getCacheKey]: an absent or empty part name stands for the whole
    model. *)
Definition getCacheKey (url : string) (partName : option string) : string :=
  url ++ "::" ++ match truthyName partName with
                 | Some p => p
                 | None => "FULL_MODEL"
                 end.

(** [thumbnailCache.get(key)] where the code tests it: an entry that is
    the empty string counts as absent. *)
Definition cachedThumbnail (cache : ThumbnailCache) (key : string)
  : option string :=
  truthyName (cache !! key).

Section WithBackends.

Variable setFromObject : Heap -> Object3D -> Box3 float.

(** [sharedGLTFLoader.loadAsync]: the asset behind a URL. *)
Variable loadAsync : string -> LoadResult.

(** [canvas.toDataURL("image/png")] after the object was framed and
    rendered, alone, on a canvas of the given size and background. *)
Variable toDataURL : Heap -> Object3D -> Z -> Z -> Z -> string.

(** [renderThumbnailToDataURL]: the scene, the camera and the renderer are
    local to the call; of the objects that outlive it, the call changes
    what [disposeObject] changes. *)
Definition renderThumbnailToDataURL (model : Object3D)
    (width height backgroundColor : Z) : M string := fun h =>
  let dataUrl := toDataURL h model width height backgroundColor in
  let (_, h) := disposeObject model h in
  (dataUrl, h).

(** [generateThumbnail(retry)], run to completion. *)
Definition generateThumbnail (urlModelo : string) (partName : option string)
    (retry : bool) (m : Miniatura) (cache : ThumbnailCache) (h : Heap)
  : Miniatura * ThumbnailCache * Heap :=
  let key := getCacheKey urlModelo partName in
  match (if retry then None else cachedThumbnail cache key) with
  | Some dataUrl => (setThumbDataUrl (Some dataUrl) m, cache, h)
  | None =>
      let m := setHasError false m in
      let failed (h : Heap) := (setThumbDataUrl None (setHasError true m), cache, h) in
      match loadAsync urlModelo with
      | Failed _ => failed h
      | Loaded modelGroup =>
          let (objectToRender, h) :=
            match truthyName partName with
            | Some name => extractPartByName setFromObject modelGroup name h
            | None => (Some modelGroup, h)
            end in
          match objectToRender with
          | None => failed h
          | Some object =>
              let (dataUrl, h) :=
                renderThumbnailToDataURL object 256 256 0xf0f0f0 h in
              (setHasError false (setThumbDataUrl (Some dataUrl) m),
               <[key := dataUrl]> cache, h)
          end
      end
  end.

End WithBackends.

End Thumbnails.

(* ================================================================== *)
(** ** Further sample data *)
(* ================================================================== *)

Module Fixtures.
Import Names Numbers Scene Session Properties Notions Placement Samples.
Local Open Scope list_scope.

(** A camera with a field of view of 90 degrees, over the reals. *)
Definition wideCamera : PerspectiveCamera R :=
  mkCamera (mkVector3 200 150 200)%R 90%R (mkVector3 0 0 0)%R.

(** The container of the viewer, over the reals. *)
Definition realViewport : Rect R := mkRect 0%R 0%R 800%R 600%R.



(** The camera and the controls of [setupScene], in binary64. *)
Definition floatCamera : PerspectiveCamera float :=
  mkCamera (mkVector3 (ofZ 200) (ofZ 150) (ofZ 200)) (ofZ 45) zero3.

Definition floatControls : OrbitControls float := mkControls zero3 true false.

(** Degenerate boxes with finite bounds, in binary64: all-zero extent at
    the origin, a single point, and the empty box of three.js (from
    [+Infinity] to [-Infinity]); and the unit cube. *)
Definition zeroFloatBox : Box3 float := mkBox3 zero3 zero3.

Definition pointFloatBox : Box3 float :=
  mkBox3 (mkVector3 (ofZ 1) (ofZ 2) (ofZ 3)) (mkVector3 (ofZ 1) (ofZ 2) (ofZ 3)).

Definition emptyFloatBox : Box3 float :=
  mkBox3 (mkVector3 PrimFloat.infinity PrimFloat.infinity PrimFloat.infinity)
         (mkVector3 PrimFloat.neg_infinity PrimFloat.neg_infinity
                    PrimFloat.neg_infinity).

Definition unitFloatBox : Box3 float :=
  mkBox3 zero3 (mkVector3 (ofZ 1) (ofZ 1) (ofZ 1)).

(** Whether the three coordinates are finite numbers. *)
Definition finiteVector (v : Vector3 float) : bool :=
  isFinite (vx v) && isFinite (vy v) && isFinite (vz v).

Definition nanVectorb (v : Vector3 float) : bool :=
  PrimFloat.is_nan (vx v) && PrimFloat.is_nan (vy v) && PrimFloat.is_nan (vz v).

(** The store of the viewer in which the assembly is loaded. *)
Definition loadedStore : Store := [(bracket, Single 2); (bolt, Multi [3; 4])].

(** A ray that hits the bracket. *)
Definition hitBracket (ray : Raycaster) (h : Heap) (root : Object3D)
  : list Intersection := [mkIntersection bracket].

(** The viewer after a click on the bracket: the bracket is selected and
    highlighted. *)
Definition selectedWorld : World :=
  handleClick unitBox tanAtHalfOf45 hitBracket (ofZ 10) (ofZ 10) loadedWorld.

(** Two clicks at the same point. *)
Definition twoClicks : list (float * float) :=
  [(ofZ 10, ofZ 10); (ofZ 10, ofZ 10)].

(** A loader that serves the two brackets for every URL, and a canvas
    whose image is always the same. *)
Definition loadsTwoBrackets (url : string) : LoadResult := Loaded twoBrackets.

Definition somePng (h : Heap) (object : Object3D) (width height color : Z)
  : string := "data:image/png;base64,iVBORw0KGgo=".

End Fixtures.
(* ------------------------------------------------------------------ *)
(** *** Facts about names *)

Module NamesFacts.
Import Names.

Lemma isWhite_lowerChar c : isWhite (lowerChar c) = isWhite c.
Proof.
  destruct c as [[] [] [] [] [] [] [] []]; reflexivity.
Qed.

Lemma isEmpty_toLowerCase s : isEmpty (toLowerCase s) = isEmpty s.
Proof. destruct s; reflexivity. Qed.

Lemma trimStart_toLowerCase s :
  trimStart (toLowerCase s) = toLowerCase (trimStart s).
Proof.
  induction s as [|c r IH]; simpl; [reflexivity|].
  rewrite isWhite_lowerChar. destruct (isWhite c); [exact IH | reflexivity].
Qed.

Lemma trimEnd_toLowerCase s :
  trimEnd (toLowerCase s) = toLowerCase (trimEnd s).
Proof.
  induction s as [|c r IH]; simpl; [reflexivity|].
  rewrite isWhite_lowerChar, IH, isEmpty_toLowerCase.
  destruct (isWhite c && isEmpty (trimEnd r)); reflexivity.
Qed.

Lemma trim_toLowerCase s : trim (toLowerCase s) = toLowerCase (trim s).
Proof.
  unfold trim. rewrite trimStart_toLowerCase. apply trimEnd_toLowerCase.
Qed.

(** Extraction and listing agree on every name. *)
Lemma cleanNodeName_clean name : cleanNodeName name = clean name.
Proof. apply trim_toLowerCase. Qed.

Lemma toLowerCase_idem s : toLowerCase (toLowerCase s) = toLowerCase s.
Proof.
  induction s as [|c r IH]; simpl; [reflexivity|]. rewrite IH. f_equal.
  destruct c as [[] [] [] [] [] [] [] []]; reflexivity.
Qed.

Example bracket_identities :
  partIdentity "Bracket-01" = "bracket" /\ partIdentity "bracket-02" = "bracket".
Proof. split; reflexivity. Qed.

(** C4 (part identity is derived identically at every call site).
    Evaluation of the four derivations on two node names: part extraction
    and part listing yield the lower-cased, trimmed prefix ["bracket"], but
    click selection keeps the case (["Bracket"]) and the hierarchy search
    keeps the trailing blank (["bracket "]); so the call sites do not
    compute the same key. *)
Theorem part_identity_call_sites_disagree :
  cleanNodeName "Bracket-01" = "bracket"
  /\ clean "Bracket-01" = "bracket"
  /\ childBase "Bracket-01" = "bracket"
  /\ clickPartName "Bracket-01" = Some "Bracket"
  /\ cleanNodeName "bracket -01" = "bracket"
  /\ clean "bracket -01" = "bracket"
  /\ clickPartName "bracket -01" = Some "bracket"
  /\ childBase "bracket -01" = "bracket ".
Proof. repeat split; reflexivity. Qed.

End NamesFacts.
(* ------------------------------------------------------------------ *)
(** *** Facts about the material snapshot store *)

Module SnapshotFacts.
Import Names Numbers Scene Properties Samples.
Local Open Scope list_scope.

#[local] Arguments newMaterial : simpl never.
#[local] Arguments cloneMaterial : simpl never.
#[local] Arguments cloneSlot : simpl never.
#[local] Arguments getMaterial : simpl never.
#[local] Arguments setMaterial : simpl never.
#[local] Arguments collectOne : simpl never.
#[local] Arguments resetOne : simpl never.
#[local] Arguments highlightPart : simpl never.

(** **** The order on heaps *)

Lemma extends_refl h : extends h h.
Proof. split; [lia | auto]. Qed.

Lemma extends_trans h1 h2 h3 : extends h1 h2 -> extends h2 h3 -> extends h1 h3.
Proof.
  intros [Hn1 Hm1] [Hn2 Hm2]. split; [lia|].
  intros r Hr. rewrite Hm2 by lia. apply Hm1, Hr.
Qed.

Lemma materialLook_extends h h' s :
  extends h h' -> slotBelow (nextMaterial h) s ->
  materialLook h' s = materialLook h s.
Proof.
  intros [_ Hm] Hs. destruct s as [r|rs]; simpl.
  - f_equal. apply Hm, Hs. simpl. apply list_elem_of_singleton. reflexivity.
  - f_equal. apply map_ext_in. intros r Hr. apply Hm, Hs. simpl.
    apply list_elem_of_In, Hr.
Qed.

Lemma slotBelow_mono n n' s : n <= n' -> slotBelow n s -> slotBelow n' s.
Proof. intros Hle Hs r Hr. specialize (Hs r Hr). lia. Qed.

(** **** Allocation and cloning *)

Lemma newMaterial_spec m h :
  let r := fst (newMaterial m h) in
  let h' := snd (newMaterial m h) in
  r = nextMaterial h
  /\ nextMaterial h' = S (nextMaterial h)
  /\ materials h' !! r = m
  /\ materialOf h' = materialOf h
  /\ extends h h'.
Proof.
  unfold newMaterial; simpl.
  split; [reflexivity|]. split; [reflexivity|]. split; [|split; [reflexivity|]].
  - destruct m; [apply lookup_insert_eq | apply lookup_delete_eq].
  - split; simpl; [lia|]. intros r Hr. destruct m;
      [apply lookup_insert_ne | apply lookup_delete_ne]; lia.
Qed.

Lemma cloneMaterial_spec r h :
  let r' := fst (cloneMaterial r h) in
  let h' := snd (cloneMaterial r h) in
  r' = nextMaterial h
  /\ nextMaterial h' = S (nextMaterial h)
  /\ materials h' !! r' = materials h !! r
  /\ materialOf h' = materialOf h
  /\ extends h h'.
Proof. unfold cloneMaterial. apply newMaterial_spec. Qed.

Lemma mapM_cloneMaterial_spec rs : forall h,
  (forall r, r ∈ rs -> r < nextMaterial h) ->
  let rs' := fst (mapM cloneMaterial rs h) in
  let h' := snd (mapM cloneMaterial rs h) in
  map (fun r => materials h' !! r) rs' = map (fun r => materials h !! r) rs
  /\ (forall r, r ∈ rs' -> nextMaterial h <= r < nextMaterial h')
  /\ materialOf h' = materialOf h
  /\ extends h h'.
Proof.
  induction rs as [|r rs IH]; intros h Hb; simpl.
  - split; [reflexivity|]. split; [|split; [reflexivity | apply extends_refl]].
    intros r Hr. apply elem_of_nil in Hr. destruct Hr.
  - unfold bind.
    destruct (cloneMaterial_spec r h) as (Hr' & Hn & Hl & Hmo & Hext).
    destruct (cloneMaterial r h) as [r' h1] eqn:E1. cbn [fst snd] in *.
    assert (Hb1 : forall x, x ∈ rs -> x < nextMaterial h1).
    { intros x Hx. rewrite Hn.
      assert (x < nextMaterial h) by (apply Hb; right; exact Hx). lia. }
    specialize (IH h1 Hb1). cbn zeta in IH.
    destruct (mapM cloneMaterial rs h1) as [rs' h2] eqn:E2.
    unfold ret. cbn [fst snd map] in *.
    destruct IH as (IHl & IHf & IHmo & IHext).
    split; [|split; [|split]].
    + f_equal.
      * destruct IHext as [_ Hkeep]. rewrite Hkeep by lia. exact Hl.
      * rewrite IHl. apply map_ext_in. intros x Hx.
        destruct Hext as [_ Hkeep]. apply Hkeep, Hb. right.
        apply list_elem_of_In, Hx.
    + intros x Hx. destruct IHext as [Hle _].
      apply elem_of_cons in Hx as [->|Hin]; [lia|].
      specialize (IHf _ Hin). lia.
    + congruence.
    + eapply extends_trans; eassumption.
Qed.

Lemma cloneSlot_spec s h :
  slotBelow (nextMaterial h) s ->
  let s' := fst (cloneSlot s h) in
  let h' := snd (cloneSlot s h) in
  materialLook h' s' = materialLook h s
  /\ slotFresh (nextMaterial h) (nextMaterial h') s'
  /\ materialOf h' = materialOf h
  /\ extends h h'.
Proof.
  intros Hs. destruct s as [r|rs]; unfold cloneSlot, bind.
  - destruct (cloneMaterial_spec r h) as (Hr' & Hn & Hl & Hmo & Hext).
    destruct (cloneMaterial r h) as [r' h1]. unfold ret. cbn [fst snd] in *.
    split; [simpl; f_equal; exact Hl|]. split; [|split; assumption].
    intros x Hx. simpl in Hx. apply list_elem_of_singleton in Hx. lia.
  - destruct (mapM_cloneMaterial_spec rs h Hs) as (Hl & Hf & Hmo & Hext).
    destruct (mapM cloneMaterial rs h) as [rs' h1]. unfold ret.
    cbn [fst snd] in *.
    split; [simpl; f_equal; exact Hl|]. split; [|split; assumption].
    intros x Hx. apply Hf, Hx.
Qed.

(** **** The store *)

Lemma storeGet_storeSet mesh v store m :
  storeGet m (storeSet mesh v store) =
  if sameObject mesh m then Some v else storeGet m store.
Proof.
  induction store as [|[k w] r IH]; simpl.
  - reflexivity.
  - destruct (sameObject k mesh) eqn:Ek; simpl.
    + unfold sameObject in *. apply Nat.eqb_eq in Ek. rewrite Ek.
      destruct (Nat.eqb (uid mesh) (uid m)); reflexivity.
    + rewrite IH.
      destruct (sameObject k m) eqn:Ekm; destruct (sameObject mesh m) eqn:Emm;
        try reflexivity.
      unfold sameObject in *.
      apply Nat.eqb_eq in Ekm. apply Nat.eqb_eq in Emm.
      apply Nat.eqb_neq in Ek. congruence.
Qed.

Lemma storeSet_keys mesh v store :
  map (fun e => uid (fst e)) (storeSet mesh v store) =
  if existsb (fun e => sameObject (fst e) mesh) store
  then map (fun e => uid (fst e)) store
  else map (fun e => uid (fst e)) store ++ [uid mesh].
Proof.
  induction store as [|[k w] r IH]; simpl; [reflexivity|].
  destruct (sameObject k mesh) eqn:Ek; simpl; [reflexivity|].
  rewrite IH. destruct (existsb _ r); reflexivity.
Qed.


Lemma storeGet_elem m v store :
  storeGet m store = Some v ->
  exists k, (k, v) ∈ store /\ uid k = uid m.
Proof.
  induction store as [|[k w] r IH]; simpl; [discriminate|].
  destruct (sameObject k m) eqn:Ek.
  - intros [= ->]. exists k. split; [left|]. apply Nat.eqb_eq, Ek.
  - intros Hg. destruct (IH Hg) as (k' & Hin & Hk'). exists k'.
    split; [right; exact Hin | exact Hk'].
Qed.

Lemma elem_storeGet k v store :
  NoDup (map (fun e => uid (fst e)) store) -> (k, v) ∈ store ->
  storeGet k store = Some v.
Proof.
  induction store as [|[k' w] r IH]; simpl; intros Hnd Hin.
  - apply elem_of_nil in Hin. destruct Hin.
  - apply NoDup_cons in Hnd as [Hnotin Hnd].
    apply elem_of_cons in Hin as [[= -> ->]|Hin].
    + unfold sameObject. rewrite Nat.eqb_refl. reflexivity.
    + destruct (sameObject k' k) eqn:Ek.
      * exfalso. apply Hnotin. apply Nat.eqb_eq in Ek. simpl in Ek. rewrite Ek.
        apply (list_elem_of_fmap_2 (fun e => uid (fst e)) r (k, v)), Hin.
      * apply IH; assumption.
Qed.

Lemma storeSet_elem mesh v store e :
  e ∈ storeSet mesh v store ->
  e ∈ store
  \/ (snd e = v /\ (fst e = mesh \/ exists w, (fst e, w) ∈ store)).
Proof.
  induction store as [|[k w] r IH]; simpl; intros Hin.
  - apply list_elem_of_singleton in Hin as ->. right. split; [reflexivity|].
    left. reflexivity.
  - destruct (sameObject k mesh) eqn:Ek.
    + apply elem_of_cons in Hin as [->|Hin].
      * right. split; [reflexivity|]. right. exists w. left.
      * left. right. exact Hin.
    + apply elem_of_cons in Hin as [->|Hin].
      * left. left.
      * destruct (IH Hin) as [Hold|(Hv & [Hk|(w' & Hw')])].
        -- left. right. exact Hold.
        -- right. split; [exact Hv|]. left. exact Hk.
        -- right. split; [exact Hv|]. right. exists w'. right. exact Hw'.
Qed.

Lemma storeOk_storeSet mesh v store :
  isMesh mesh = true -> storeOk store -> storeOk (storeSet mesh v store).
Proof.
  intros Hm [Hnd Hall]. split.
  - rewrite storeSet_keys.
    destruct (existsb (fun e => sameObject (fst e) mesh) store) eqn:Ex;
      [exact Hnd|].
    apply NoDup_app. split; [exact Hnd|]. split; [|apply NoDup_singleton].
    intros u Hu Hu'. apply list_elem_of_singleton in Hu'. subst u.
    apply list_elem_of_fmap in Hu as (e & He & Hin).
    assert (existsb (fun e => sameObject (fst e) mesh) store = true) as Hex.
    { apply existsb_exists. exists e. split; [apply list_elem_of_In, Hin|].
      unfold sameObject. apply Nat.eqb_eq. symmetry. exact He. }
    congruence.
  - intros e He. apply storeSet_elem in He as [Hold|(_ & [->|(w & Hw)])].
    + apply Hall, Hold.
    + exact Hm.
    + apply (Hall _ Hw).
Qed.

Lemma heapOk_lookup h o s :
  heapOk h -> materialOf h !! o = Some s -> slotBelow (nextMaterial h) s.
Proof.
  intros Hok Hs r Hr. specialize (Hok o s Hs). simpl in Hok.
  rewrite Forall_forall in Hok. apply Hok, Hr.
Qed.

Lemma heapOk_later h h' :
  heapOk h -> materialOf h' = materialOf h ->
  nextMaterial h <= nextMaterial h' -> heapOk h'.
Proof.
  intros Hok Hmo Hle o s Hs. rewrite Hmo in Hs. specialize (Hok o s Hs).
  simpl in *. eapply Forall_impl; [exact Hok|]. simpl. intros r Hr. lia.
Qed.

Lemma meshLook_same_uid h a b : uid a = uid b -> meshLook h a = meshLook h b.
Proof. unfold meshLook. intros ->. reflexivity. Qed.


(** **** Heap effects of the primitive steps *)

Lemma setMaterial_spec o s h :
  let h' := snd (setMaterial o s h) in
  materialOf h' = <[uid o := s]> (materialOf h)
  /\ materials h' = materials h
  /\ nextMaterial h' = nextMaterial h.
Proof. unfold setMaterial, modify, withMaterialOf; simpl. auto. Qed.

Lemma setMaterial_extends o s h : extends h (snd (setMaterial o s h)).
Proof.
  destruct (setMaterial_spec o s h) as (_ & Hm & Hn). split.
  - rewrite Hn. lia.
  - intros r _. rewrite Hm. reflexivity.
Qed.

Lemma forEachM_extends {A} (f : A -> M unit) l :
  (forall a h, extends h (snd (f a h))) ->
  forall h, extends h (snd (forEachM f l h)).
Proof.
  intros Hf. induction l as [|a l IH]; intros h; simpl.
  - apply extends_refl.
  - unfold bind. specialize (Hf a h). destruct (f a h) as [[] h1].
    eapply extends_trans; [exact Hf | apply IH].
Qed.

Lemma highlightPart_extends arg h : extends h (snd (highlightPart arg h)).
Proof.
  unfold highlightPart, bind.
  destruct (newMaterial_spec (Some highlightMaterial) h) as (_ & _ & _ & _ & He).
  destruct (newMaterial (Some highlightMaterial) h) as [baseMat h1].
  cbn [fst snd] in He. eapply extends_trans; [exact He|].
  assert (Hstep : forall (m : Object3D) h,
    extends h (snd (let (clone, h') := cloneMaterial baseMat h in
                    setMaterial m (Single clone) h'))).
  { intros m h2. destruct (cloneMaterial_spec baseMat h2) as (_ & _ & _ & _ & He2).
    destruct (cloneMaterial baseMat h2) as [c h3]. cbn [fst snd] in He2.
    eapply extends_trans; [exact He2 | apply setMaterial_extends]. }
  destruct arg as [mesh|meshes].
  - apply Hstep.
  - apply forEachM_extends. intros a h2. apply Hstep.
Qed.

(** **** [resetModelColor] *)

Lemma resetModelColor_cons e rest h :
  snd (resetModelColor (e :: rest) h) =
  snd (resetModelColor rest (snd (resetOne e h))).
Proof.
  unfold resetModelColor. cbn [forEachM]. unfold bind.
  destruct (resetOne e h) as [[] h1]. reflexivity.
Qed.

Lemma resetOne_mesh mesh stored h :
  isMesh mesh = true ->
  snd (resetOne (mesh, stored) h) =
  snd (setMaterial mesh (fst (cloneSlot stored h)) (snd (cloneSlot stored h))).
Proof.
  intros Him. unfold resetOne. rewrite Him. cbn [negb]. unfold bind.
  destruct (cloneSlot stored h) as [clone ha]. reflexivity.
Qed.

Lemma resetModelColor_spec store : forall h,
  storeOk store -> storeBelow (nextMaterial h) store ->
  let h' := snd (resetModelColor store h) in
  extends h h'
  /\ (forall u, u ∉ map (fun e => uid (fst e)) store ->
                materialOf h' !! u = materialOf h !! u)
  /\ (forall e, e ∈ store ->
        exists slot, materialOf h' !! uid (fst e) = Some slot
                     /\ materialLook h' slot = materialLook h (snd e)
                     /\ slotFresh (nextMaterial h) (nextMaterial h') slot).
Proof.
  induction store as [|[mesh stored] rest IH]; intros h [Hnd Hall] Hbelow h';
    subst h'.
  - simpl. split; [apply extends_refl|]. split; [reflexivity|].
    intros e He. apply elem_of_nil in He. destruct He.
  - assert (Him : isMesh mesh = true) by (apply (Hall (mesh, stored)); left).
    assert (Hsb : slotBelow (nextMaterial h) stored)
      by (apply (Hbelow (mesh, stored)); left).
    rewrite resetModelColor_cons, (resetOne_mesh _ _ _ Him).
    destruct (cloneSlot_spec stored h Hsb) as (Hl & Hf & Hmo & Hext).
    destruct (cloneSlot stored h) as [clone ha]. cbn [fst snd] in *.
    destruct (setMaterial_spec mesh clone ha) as (Hmo1 & Hm1 & Hn1).
    pose proof (setMaterial_extends mesh clone ha) as Hext1.
    destruct (setMaterial mesh clone ha) as [[] h1]. cbn [fst snd] in *.
    apply NoDup_cons in Hnd as [Hnotin Hnd]. cbn [fst snd] in Hnotin.
    assert (Hext01 : extends h h1) by (eapply extends_trans; eassumption).
    assert (Hok' : storeOk rest).
    { split; [exact Hnd|]. intros e He. apply Hall. right. exact He. }
    assert (Hb' : storeBelow (nextMaterial h1) rest).
    { intros e He. eapply slotBelow_mono; [apply Hext01|].
      apply Hbelow. right. exact He. }
    destruct (IH h1 Hok' Hb') as (IHext & IHframe & IHel).
    split; [eapply extends_trans; eassumption|]. split.
    + intros u Hu. apply not_elem_of_cons in Hu as [Hne Hu].
      rewrite (IHframe u Hu), Hmo1.
      rewrite lookup_insert_ne by (intros Heq; apply Hne; symmetry; exact Heq).
      rewrite Hmo. reflexivity.
    + intros e He. apply elem_of_cons in He as [->|He].
      * exists clone. cbn [fst snd].
        split; [rewrite (IHframe _ Hnotin), Hmo1; apply lookup_insert_eq|].
        assert (Hcb : slotBelow (nextMaterial h1) clone).
        { intros r Hr. specialize (Hf r Hr). lia. }
        split.
        -- rewrite (materialLook_extends h1 _ clone IHext Hcb). rewrite <- Hl.
           destruct clone; simpl; rewrite Hm1; reflexivity.
        -- intros r Hr. specialize (Hf r Hr). destruct IHext as [Hle _]. lia.
      * destruct (IHel e He) as (slot & Hs & Hlook & Hfresh).
        exists slot. split; [exact Hs|]. split.
        -- rewrite Hlook. apply materialLook_extends; [exact Hext01|].
           apply Hbelow. right. exact He.
        -- intros r Hr. specialize (Hfresh r Hr). destruct Hext01 as [Hle _]. lia.
Qed.

Lemma resetModelColor_extends store h :
  storeOk store -> storeBelow (nextMaterial h) store ->
  extends h (snd (resetModelColor store h)).
Proof. intros Hok Hb. apply (resetModelColor_spec store h Hok Hb). Qed.


(** **** [collectOriginalMaterials] *)

Lemma collectOne_run store child h :
  collectOne store child h =
  if isMesh child then
    match materialOf h !! uid child with
    | None => (store, h)
    | Some slot =>
        (storeSet child (fst (cloneSlot slot h)) store, snd (cloneSlot slot h))
    end
  else (store, h).
Proof.
  unfold collectOne. destruct (isMesh child); [|reflexivity].
  unfold bind, getMaterial. destruct (materialOf h !! uid child) as [slot|];
    [|reflexivity].
  destruct (cloneSlot slot h) as [clone h1]. reflexivity.
Qed.

Lemma captured_later h0 lo h1 h2 m s :
  captured h0 lo h1 m s -> extends h1 h2 -> captured h0 lo h2 m s.
Proof.
  intros [Hl Hf] Hext. split.
  - rewrite <- Hl. f_equal. apply materialLook_extends; [exact Hext|].
    intros r Hr. apply (Hf r Hr).
  - intros r Hr. specialize (Hf r Hr). destruct Hext as [Hle _]. lia.
Qed.

Lemma captured_lower h0 lo lo' h m s :
  lo' <= lo -> captured h0 lo h m s -> captured h0 lo' h m s.
Proof.
  intros Hle [Hl Hf]. split; [exact Hl|].
  intros r Hr. specialize (Hf r Hr). lia.
Qed.

Lemma collect_spec h0 l : forall store h,
  heapOk h0 -> extends h0 h -> materialOf h = materialOf h0 ->
  let store' := fst (foldM collectOne store l h) in
  let h' := snd (foldM collectOne store l h) in
  extends h h'
  /\ materialOf h' = materialOf h
  /\ (storeOk store -> storeOk store')
  /\ (forall m s, storeGet m store = Some s -> is_Some (storeGet m store'))
  /\ (forall m s', storeGet m store' = Some s' ->
        storeGet m store = Some s' \/ captured h0 (nextMaterial h) h' m s')
  /\ (forall m child, child ∈ l -> uid child = uid m -> isMesh child = true ->
        is_Some (materialOf h0 !! uid m) ->
        exists s', storeGet m store' = Some s'
                   /\ captured h0 (nextMaterial h) h' m s').
Proof.
  intros store h Hok. revert store h.
  induction l as [|a l IH]; intros store h Hext0 Hmo0 store' h';
    subst store' h'.
  - simpl. split; [apply extends_refl|]. split; [reflexivity|].
    split; [auto|]. split; [eauto|]. split; [auto|].
    intros m child Hin. apply elem_of_nil in Hin. destruct Hin.
  - cbn [foldM]. unfold bind. rewrite collectOne_run.
    (* the step on [a]: either nothing happens, or its entry is set *)
    assert (Hstep : exists store1 h1,
      (if isMesh a then
         match materialOf h !! uid a with
         | None => (store, h)
         | Some slot =>
             (storeSet a (fst (cloneSlot slot h)) store, snd (cloneSlot slot h))
         end
       else (store, h)) = (store1, h1)
      /\ extends h h1 /\ materialOf h1 = materialOf h
      /\ (storeOk store -> storeOk store1)
      /\ (forall m, storeGet m store1 = storeGet m store
                    \/ (sameObject a m = true
                        /\ exists s', storeGet m store1 = Some s'
                                      /\ captured h0 (nextMaterial h) h1 m s'))
      /\ (isMesh a = true -> is_Some (materialOf h0 !! uid a) ->
          forall m, uid a = uid m ->
            exists s', storeGet m store1 = Some s'
                       /\ captured h0 (nextMaterial h) h1 m s')).
    { destruct (isMesh a) eqn:Him.
      2:{ exists store, h. split; [reflexivity|]. split; [apply extends_refl|].
          split; [reflexivity|]. split; [auto|]. split; [auto|]. discriminate. }
      destruct (materialOf h !! uid a) as [slot|] eqn:Hslot.
      2:{ exists store, h. split; [reflexivity|]. split; [apply extends_refl|].
          split; [reflexivity|]. split; [auto|]. split; [auto|].
          intros _ [x Hx]. rewrite Hmo0 in Hslot. congruence. }
      assert (Hb0 : slotBelow (nextMaterial h0) slot).
      { apply (heapOk_lookup h0 (uid a)); [exact Hok|]. rewrite <- Hmo0. exact Hslot. }
      assert (Hb : slotBelow (nextMaterial h) slot).
      { eapply slotBelow_mono; [apply Hext0 | exact Hb0]. }
      destruct (cloneSlot_spec slot h Hb) as (Hl & Hf & Hmo & Hext).
      destruct (cloneSlot slot h) as [clone h1]. cbn [fst snd] in *.
      assert (Hcap : forall m, uid a = uid m ->
                captured h0 (nextMaterial h) h1 m clone).
      { intros m Hu. split; [|exact Hf].
        rewrite Hl, (materialLook_extends h0 h slot Hext0 Hb0).
        unfold meshLook. rewrite <- Hu, <- Hmo0, Hslot. reflexivity. }
      exists (storeSet a clone store), h1. split; [reflexivity|].
      split; [exact Hext|]. split; [exact Hmo|].
      split; [apply storeOk_storeSet, Him|]. split.
      - intros m. rewrite storeGet_storeSet.
        destruct (sameObject a m) eqn:Eam; [right | left; reflexivity].
        split; [reflexivity|]. exists clone. split; [reflexivity|].
        apply Hcap. apply Nat.eqb_eq, Eam.
      - intros _ _ m Hu. exists clone. split; [|apply Hcap, Hu].
        rewrite storeGet_storeSet. unfold sameObject.
        rewrite (proj2 (Nat.eqb_eq _ _) Hu). reflexivity. }
    destruct Hstep as (store1 & h1 & -> & Hext & Hmo & Hok1 & Hget1 & Hnew1).
    assert (Hext01 : extends h0 h1) by (eapply extends_trans; eassumption).
    assert (Hmo01 : materialOf h1 = materialOf h0) by congruence.
    destruct (IH store1 h1 Hext01 Hmo01) as (IHext & IHmo & IHok & IHsome & IHget & IHnew).
    assert (Hle : nextMaterial h <= nextMaterial h1) by apply Hext.
    split; [eapply extends_trans; eassumption|].
    split; [congruence|]. split; [auto|]. split; [|split].
    + intros m s Hs. destruct (Hget1 m) as [Heq|(_ & s' & Hs' & _)].
      * apply (IHsome m s). rewrite Heq. exact Hs.
      * apply (IHsome m s'). exact Hs'.
    + intros m s' Hs'. destruct (IHget m s' Hs') as [Hold|Hcap].
      * destruct (Hget1 m) as [Heq|(_ & s1 & Hs1 & Hcap1)].
        -- left. rewrite <- Heq. exact Hold.
        -- right. assert (s1 = s') by congruence. subst s1.
           eapply captured_later; eassumption.
      * right. eapply captured_lower; eassumption.
    + intros m child Hin Hu Him Hmat.
      apply elem_of_cons in Hin as [->|Hin].
      * rewrite <- Hu in Hmat.
        destruct (Hnew1 Him Hmat m Hu) as (s1 & Hs1 & Hcap1).
        destruct (IHsome m s1 Hs1) as [s' Hs']. exists s'. split; [exact Hs'|].
        destruct (IHget m s' Hs') as [Hold|Hcap].
        -- assert (s1 = s') by congruence. subst s1.
           eapply captured_later; eassumption.
        -- eapply captured_lower; eassumption.
      * destruct (IHnew m child Hin Hu Him Hmat) as (s' & Hs' & Hcap).
        exists s'. split; [exact Hs'|]. eapply captured_lower; eassumption.
Qed.


Lemma storeOk_nil : storeOk [].
Proof.
  split; [apply NoDup_nil_2|]. intros e He. apply elem_of_nil in He. destruct He.
Qed.

Lemma runOps_extends store ops : forall h,
  storeOk store -> storeBelow (nextMaterial h) store ->
  extends h (runOps store ops h).
Proof.
  induction ops as [|op ops IH]; intros h Hok Hb; simpl.
  - apply extends_refl.
  - assert (Hstep : extends h (runOp store h op)).
    { destruct op as [arg|]; simpl.
      - apply highlightPart_extends.
      - apply resetModelColor_extends; assumption. }
    eapply extends_trans; [exact Hstep|]. apply IH; [exact Hok|].
    intros e He. eapply slotBelow_mono; [apply Hstep | apply Hb, He].
Qed.

(** A store captured from scratch holds, for every recorded mesh, a
    snapshot of the look that the mesh had. *)
Lemma capture_from_scratch h0 model :
  heapOk h0 ->
  let store := fst (collectOriginalMaterials model [] h0) in
  let h1 := snd (collectOriginalMaterials model [] h0) in
  extends h0 h1 /\ storeOk store /\ storeBelow (nextMaterial h1) store
  /\ forall m s, storeGet m store = Some s ->
       captured h0 (nextMaterial h0) h1 m s.
Proof.
  intros Hok store h1. subst store h1. unfold collectOriginalMaterials.
  destruct (collect_spec h0 (traverse model) [] h0 Hok (extends_refl h0) eq_refl)
    as (Hext & _ & Hsok & _ & Hget & _).
  specialize (Hsok storeOk_nil).
  assert (Hcap : forall m s,
    storeGet m (fst (foldM collectOne [] (traverse model) h0)) = Some s ->
    captured h0 (nextMaterial h0) (snd (foldM collectOne [] (traverse model) h0)) m s).
  { intros m s Hs. destruct (Hget m s Hs) as [Hold|Hcap]; [discriminate|exact Hcap]. }
  split; [exact Hext|]. split; [exact Hsok|]. split; [|exact Hcap].
  intros [k v] He r Hr. cbn [snd] in Hr.
  pose proof (elem_storeGet k v _ (proj1 Hsok) He) as Hs.
  destruct (Hcap k v Hs) as [_ Hf]. apply (Hf r Hr).
Qed.

(** C2 (restore after highlights).  Capture the materials of a model whose
    meshes reference allocated materials; then apply any finite sequence of
    highlights (and restores); then restore once.  Every recorded mesh looks
    as it did before any highlight, and the materials it now holds were
    allocated by this restore: none of them is a material held by the
    store. *)
Theorem restore_after_highlights (h0 : Heap) (model : Object3D)
    (ops : list HighlightOp) :
  heapOk h0 ->
  let store := fst (collectOriginalMaterials model [] h0) in
  let h1 := snd (collectOriginalMaterials model [] h0) in
  let h2 := runOps store ops h1 in
  let h3 := snd (resetModelColor store h2) in
  forall mesh stored, storeGet mesh store = Some stored ->
    meshLook h3 mesh = meshLook h0 mesh
    /\ exists slot,
         materialOf h3 !! uid mesh = Some slot
         /\ forall r, r ∈ slotMaterials slot ->
              nextMaterial h2 <= r
              /\ forall mesh' stored', storeGet mesh' store = Some stored' ->
                   r ∉ slotMaterials stored'.
Proof.
  intros Hok store h1 h2 h3 mesh stored Hget.
  destruct (capture_from_scratch h0 model Hok) as (Hext01 & Hsok & Hbelow & Hcap).
  fold store h1 in Hext01, Hsok, Hbelow, Hcap.
  pose proof (runOps_extends store ops h1 Hsok Hbelow) as Hext12. fold h2 in Hext12.
  assert (Hbelow2 : storeBelow (nextMaterial h2) store).
  { intros e He. eapply slotBelow_mono; [apply Hext12 | apply Hbelow, He]. }
  destruct (resetModelColor_spec store h2 Hsok Hbelow2) as (_ & _ & Hel).
  fold h3 in Hel.
  destruct (storeGet_elem _ _ _ Hget) as (k & Hin & Hk).
  destruct (Hel _ Hin) as (slot & Hslot & Hlook & Hfresh).
  cbn [fst snd] in *. rewrite Hk in Hslot.
  destruct (Hcap mesh stored Hget) as [Hl Hf].
  split.
  - unfold meshLook at 1. rewrite Hslot. cbn. rewrite Hlook.
    rewrite <- Hl. f_equal. apply materialLook_extends; [exact Hext12|].
    intros r Hr. apply (Hf r Hr).
  - exists slot. split; [exact Hslot|]. intros r Hr.
    specialize (Hfresh r Hr). split; [lia|].
    intros mesh' stored' Hget' Hr'.
    destruct (storeGet_elem _ _ _ Hget') as (k' & Hin' & _).
    specialize (Hbelow2 _ Hin' r Hr'). lia.
Qed.


Lemma assemblyHeap_ok : heapOk assemblyHeap.
Proof.
  unfold heapOk, assemblyHeap; cbn [materialOf nextMaterial slotMaterials].
  apply map_Forall_insert_2; [repeat constructor|].
  apply map_Forall_insert_2; [repeat constructor|].
  apply map_Forall_empty.
Qed.

Example assemblyStore_value :
  assemblyStore = [(bracket, Single 2); (bolt, Multi [3; 4])].
Proof. reflexivity. Qed.

Lemma restore_after_highlights_witness :
  meshLook (snd (resetModelColor assemblyStore
                   (runOps assemblyStore someHighlights assemblyCaptured)))
           bolt
  = meshLook assemblyHeap bolt.
Proof.
  refine (proj1 (restore_after_highlights assemblyHeap assembly someHighlights
                   _ bolt (Multi [3; 4]) _)).
  - exact assemblyHeap_ok.
  - reflexivity.
Defined.

(** **** Capturing again *)

Lemma resetModelColor_heapOk store h :
  storeOk store -> storeBelow (nextMaterial h) store -> heapOk h ->
  heapOk (snd (resetModelColor store h)).
Proof.
  intros Hsok Hb Hok.
  destruct (resetModelColor_spec store h Hsok Hb) as (Hext & Hframe & Hel).
  intros o s Hs. cbn beta. apply Forall_forall. intros r Hr.
  destruct (decide (o ∈ map (fun e => uid (fst e)) store)) as [Hin|Hnotin].
  - apply list_elem_of_fmap in Hin as (e & -> & He).
    destruct (Hel e He) as (slot & Hslot & _ & Hfresh).
    assert (slot = s) by congruence. subst slot. apply (Hfresh r Hr).
  - rewrite (Hframe o Hnotin) in Hs.
    pose proof (heapOk_lookup h o s Hok Hs r Hr). destruct Hext as [Hle _]. lia.
Qed.

(** Right after a restore every recorded leaf shows its recorded look, so
    that a capture at that point records the same looks again: this is the
    order in which the viewer calls the two functions. *)
Lemma capture_after_restore store h root :
  storeOk store -> storeBelow (nextMaterial h) store -> heapOk h ->
  let h1 := snd (resetModelColor store h) in
  let store' := fst (collectOriginalMaterials root store h1) in
  let h2 := snd (collectOriginalMaterials root store h1) in
  forall mesh stored, storeGet mesh store = Some stored ->
    exists stored', storeGet mesh store' = Some stored'
                    /\ materialLook h2 stored' = materialLook h stored.
Proof.
  intros Hsok Hb Hok h1 store' h2 mesh stored Hget.
  destruct (resetModelColor_spec store h Hsok Hb) as (Hext & _ & Hel).
  fold h1 in Hext, Hel.
  pose proof (resetModelColor_heapOk store h Hsok Hb Hok) as Hok1. fold h1 in Hok1.
  assert (Hb1 : storeBelow (nextMaterial h1) store).
  { intros e He. eapply slotBelow_mono; [apply Hext | apply Hb, He]. }
  destruct (storeGet_elem _ _ _ Hget) as (k & Hin & Hk).
  assert (Hkeep : materialLook h1 stored = materialLook h stored).
  { apply materialLook_extends; [exact Hext | apply (Hb _ Hin)]. }
  assert (Hlive : meshLook h1 mesh = Some (materialLook h stored)).
  { destruct (Hel _ Hin) as (slot & Hslot & Hlook & _). cbn [fst snd] in *.
    unfold meshLook. rewrite <- Hk, Hslot. cbn. rewrite Hlook. reflexivity. }
  subst store' h2. unfold collectOriginalMaterials.
  destruct (collect_spec h1 (traverse root) store h1 Hok1 (extends_refl h1) eq_refl)
    as (Hext2 & _ & _ & Hsome & Hold & _).
  destruct (Hsome mesh stored Hget) as [stored' Hget'].
  exists stored'. split; [exact Hget'|].
  destruct (Hold mesh stored' Hget') as [Hsame|[Hl _]].
  - assert (stored' = stored) by congruence. subst stored'.
    rewrite <- Hkeep. apply materialLook_extends; [exact Hext2 | apply (Hb1 _ Hin)].
  - rewrite Hlive in Hl. congruence.
Qed.





End SnapshotFacts.
(* ------------------------------------------------------------------ *)
(** *** Facts about part extraction and part listing *)

Module PartsFacts.
Import Names Numbers Scene Properties Samples.
Local Open Scope list_scope.

#[local] Arguments normalizeModelSizeAndPosition : simpl never.

(** **** Extraction *)

(** Normalising the position does not change which object is returned. *)
Lemma extractPartByName_result setFromObject model partName h :
  fst (extractPartByName setFromObject model partName h) =
  fst (foldM (extractStep (trim (toLowerCase partName))) None (traverse model) h).
Proof.
  unfold extractPartByName, bind.
  destruct (foldM _ None (traverse model) h) as [[target|] h1]; [|reflexivity].
  destruct (normalizeModelSizeAndPosition setFromObject target (ofZ 0) h1)
    as [[] h2].
  reflexivity.
Qed.

(** Nodes that do not match leave the result as it is. *)
Lemma extractStep_no_match cleanedTarget l : forall init h,
  Forall (fun child =>
            isEmpty (name child) = true
            \/ String.eqb (cleanNodeName (name child)) cleanedTarget = false) l ->
  foldM (extractStep cleanedTarget) init l h = (init, h).
Proof.
  induction l as [|a l IH]; intros init h Hall; [reflexivity|].
  apply Forall_cons in Hall as [Ha Hall].
  cbn [foldM]. unfold bind, extractStep at 1.
  destruct Ha as [->| Hne].
  - unfold ret. apply IH, Hall.
  - destruct (isEmpty (name a)); [unfold ret; apply IH, Hall|].
    rewrite Hne. unfold ret. apply IH, Hall.
Qed.

Lemma matchesPart_false partName child :
  matchesPart partName child = false ->
  isEmpty (name child) = true
  \/ String.eqb (cleanNodeName (name child)) (trim (toLowerCase partName)) = false.
Proof.
  unfold matchesPart. destruct (isEmpty (name child)); [auto|].
  cbn [negb andb]. auto.
Qed.

Lemma matchesPart_true partName child :
  matchesPart partName child = true ->
  isEmpty (name child) = false
  /\ String.eqb (cleanNodeName (name child)) (trim (toLowerCase partName)) = true.
Proof.
  unfold matchesPart. destruct (isEmpty (name child)); [discriminate|].
  cbn [negb andb]. auto.
Qed.

(** No node of the hierarchy matches: nothing is returned. *)
Lemma extractPartByName_none setFromObject model partName h :
  Forall (fun child => matchesPart partName child = false) (traverse model) ->
  fst (extractPartByName setFromObject model partName h) = None.
Proof.
  intros Hall. rewrite extractPartByName_result, extractStep_no_match.
  - reflexivity.
  - eapply Forall_impl; [exact Hall|]. intros child. apply matchesPart_false.
Qed.

Lemma foldM_app {A S} (f : S -> A -> M S) l1 l2 : forall s h,
  foldM f s (l1 ++ l2) h =
  foldM f (fst (foldM f s l1 h)) l2 (snd (foldM f s l1 h)).
Proof.
  induction l1 as [|a l1 IH]; intros s h; [reflexivity|].
  cbn [foldM app]. unfold bind. destruct (f s a h) as [s1 h1]. apply IH.
Qed.

Lemma cloneObject_name o h :
  name (fst (cloneObject o h)) = name o
  /\ isMesh (fst (cloneObject o h)) = isMesh o
  /\ uid (fst (cloneObject o h)) = nextObject h.
Proof.
  destruct o as [u n m cs]. cbn [cloneObject].
  match goal with
  | |- context [let (_, _) := ?X in _] => destruct X as [cs' h2]
  end.
  auto.
Qed.

(** In general the extraction returns a clone of the last node of the
    traversal that matches: a new object with the name of that node. *)
Lemma extractPartByName_last_match setFromObject model partName h pre c post :
  traverse model = pre ++ c :: post ->
  matchesPart partName c = true ->
  Forall (fun child => matchesPart partName child = false) post ->
  exists target,
    fst (extractPartByName setFromObject model partName h) = Some target
    /\ name target = name c /\ isMesh target = isMesh c.
Proof.
  intros Htrav [Hname Hmatch]%matchesPart_true Hpost.
  rewrite extractPartByName_result, Htrav, foldM_app.
  destruct (foldM (extractStep (trim (toLowerCase partName))) None pre h)
    as [t0 h0] eqn:Epre. cbn [fst snd foldM]. unfold bind.
  unfold extractStep at 1. rewrite Hname, Hmatch. unfold bind.
  pose proof (cloneObject_name c h0) as (Hn & Hm & Hu).
  destruct (cloneObject c h0) as [target h1]. cbn [fst] in *.
  destruct (forEachM cloneMeshData (traverse target) h1) as [[] h2].
  unfold ret. rewrite extractStep_no_match.
  - exists target. cbn [fst]. split; [reflexivity|]. split; [exact Hn|].
    exact Hm.
  - eapply Forall_impl; [exact Hpost|]. intros child. apply matchesPart_false.
Qed.

(** C3 (extraction returns a clone of the first match).  Both brackets
    have the identity ["bracket"]; the hierarchy search returns the first of
    them, but the extraction returns a clone of the second, the last match of
    the traversal: a match does not stop the traversal, and each match
    overwrites the result.  The clone is a new object with a new geometry
    and a new material of the same content. *)
Theorem extract_returns_last_match
    (setFromObject : Heap -> Object3D -> Box3 float) :
  let result := extractPartByName setFromObject twoBrackets "bracket" twoBracketsHeap in
  findNodeByBaseName twoBrackets "bracket" = Some firstBracket
  /\ partIdentity (name firstBracket) = partIdentity (name secondBracket)
  /\ fst result = Some (mkObject3D 4 "Bracket-02" true [])
  /\ geometryOf (snd result) !! 4 = Some 3
  /\ materialOf (snd result) !! 4 = Some (Single 2)
  /\ materials (snd result) !! 2 = Some steel.
Proof.
  cbv zeta. split; [reflexivity|]. split; [reflexivity|].
  rewrite extractPartByName_result.
  split; [reflexivity|].
  unfold extractPartByName, bind.
  destruct (foldM _ None (traverse twoBrackets) twoBracketsHeap)
    as [target h1] eqn:E.
  vm_compute in E. injection E as <- <-.
  unfold normalizeModelSizeAndPosition, bind, get.
  cbn [fst snd].
  destruct (negb _ || negb _ || negb _); split; try split; reflexivity.
Qed.

(** **** Listing *)

Lemma existsb_eqb_elem c (s : list string) :
  existsb (String.eqb c) s = true <-> c ∈ s.
Proof.
  rewrite existsb_exists. split.
  - intros (x & Hin & Heq). apply String.eqb_eq in Heq. subst x.
    apply list_elem_of_In, Hin.
  - intros Hin. exists c. split; [apply list_elem_of_In, Hin|].
    apply String.eqb_refl.
Qed.

Lemma setAdd_elem c s x : x ∈ setAdd c s <-> x = c \/ x ∈ s.
Proof.
  unfold setAdd. destruct (existsb (String.eqb c) s) eqn:E.
  - apply existsb_eqb_elem in E. split; [auto|]. intros [->|H]; assumption.
  - rewrite elem_of_app, list_elem_of_singleton. tauto.
Qed.

Lemma setAdd_NoDup c s : NoDup s -> NoDup (setAdd c s).
Proof.
  intros Hnd. unfold setAdd. destruct (existsb (String.eqb c) s) eqn:E;
    [exact Hnd|].
  apply NoDup_app. split; [exact Hnd|]. split; [|apply NoDup_singleton].
  intros x Hx Hx'. apply list_elem_of_singleton in Hx'. subst x.
  apply existsb_eqb_elem in Hx. congruence.
Qed.

Lemma listStep_qualifies acc child :
  listStep acc child =
  if qualifies child then setAdd (clean (name child)) acc else acc.
Proof.
  unfold listStep, qualifies. destruct (isEmpty (name child)); [reflexivity|].
  cbn [negb andb]. reflexivity.
Qed.

Lemma fold_listStep_spec l : forall acc,
  NoDup acc ->
  NoDup (fold_left listStep l acc)
  /\ forall x, x ∈ fold_left listStep l acc <->
               x ∈ acc \/ x ∈ map (fun child => clean (name child))
                                   (List.filter qualifies l).
Proof.
  induction l as [|a l IH]; intros acc Hnd; simpl.
  - split; [exact Hnd|]. intros x. split; [auto|].
    intros [H|H]; [exact H|]. apply elem_of_nil in H. destruct H.
  - rewrite listStep_qualifies. destruct (qualifies a) eqn:Hq.
    + destruct (IH (setAdd (clean (name a)) acc) (setAdd_NoDup _ _ Hnd))
        as (Hnd' & Hel).
      split; [exact Hnd'|]. intros x. rewrite Hel, setAdd_elem. simpl.
      rewrite elem_of_cons. tauto.
    + apply IH, Hnd.
Qed.

(** C9 (listing part identities), as the code has it: the result has no
    duplicates; a failed load gives the empty list; when some named node
    qualifies (its identity is neither empty nor reserved) the result holds
    exactly the qualifying identities; when none does, the result is the
    identity derived from the name of the root alone if the root has a name
    (whatever that identity is), and empty otherwise. *)
Theorem getTopLevelNodes_spec (loadAsync : string -> LoadResult) (url : string) :
  NoDup (getTopLevelNodes loadAsync url)
  /\ match loadAsync url with
     | Failed _ => getTopLevelNodes loadAsync url = []
     | Loaded model =>
         match identitiesOf model with
         | _ :: _ =>
             forall x, x ∈ getTopLevelNodes loadAsync url <-> x ∈ identitiesOf model
         | [] =>
             getTopLevelNodes loadAsync url =
             if isEmpty (name model) then [] else [clean (name model)]
         end
     end.
Proof.
  unfold getTopLevelNodes. destruct (loadAsync url) as [model|err].
  2:{ split; [apply NoDup_nil_2 | reflexivity]. }
  destruct (fold_listStep_spec (traverse model) [] NoDup_nil_2)
    as (Hnd & Hel).
  fold (identitiesOf model) in Hel.
  destruct (fold_left listStep (traverse model) []) as [|y ys] eqn:Hfold.
  - assert (Hids : identitiesOf model = []).
    { destruct (identitiesOf model) as [|i is_]; [reflexivity|].
      exfalso. assert (Hi : i ∈ @nil string) by (apply Hel; right; left).
      apply elem_of_nil in Hi. exact Hi. }
    rewrite Hids. cbn [List.length Nat.eqb andb].
    destruct (isEmpty (name model)); cbn [negb].
    + split; [apply NoDup_nil_2 | reflexivity].
    + split; [apply NoDup_singleton | reflexivity].
  - cbn [List.length Nat.eqb andb].
    split; [exact Hnd|].
    destruct (identitiesOf model) as [|i is_] eqn:Hids.
    + exfalso. assert (Hy : y ∈ y :: ys) by left.
      apply Hel in Hy as [Hy|Hy]; apply elem_of_nil in Hy; exact Hy.
    + intros x. rewrite Hel. split; [|auto].
      intros [H|H]; [apply elem_of_nil in H; destruct H | exact H].
Qed.

Lemma listing_returns_reserved_name :
  getTopLevelNodes (fun _ => Loaded sceneOnly) "model.glb" = ["scene"]
  /\ reserved "scene" = true.
Proof. split; reflexivity. Qed.

End PartsFacts.
(* ------------------------------------------------------------------ *)
(** *** Facts about camera framing *)

Module CameraFacts.
Import Numbers Properties Samples Fixtures.
Local Open Scope R_scope.

(** The safe extent is substituted whenever the test [maxDim > 0.01]
    fails, in any arithmetic: for binary64 numbers this includes a NaN
    extent. *)
Lemma effectiveDim_safe {num : Type} {JN : JsNumber num} (box : Box3 num) :
  nltb (dec 1 100) (maxDim box) = false -> effectiveDim box = SAFE_DIM.
Proof. unfold effectiveDim. intros ->. reflexivity. Qed.

Lemma effectiveDim_kept {num : Type} {JN : JsNumber num} (box : Box3 num) :
  nltb (dec 1 100) (maxDim box) = true -> effectiveDim box = maxDim box.
Proof. unfold effectiveDim. intros ->. reflexivity. Qed.

(** **** Exact arithmetic *)

#[local] Existing Instance realNumber.
#[local] Existing Instance realMath.

Lemma real_ltb_true a b : a < b -> real_ltb a b = true.
Proof. intros H. unfold real_ltb. destruct (Rlt_dec a b); [reflexivity|contradiction]. Qed.

Lemma real_ltb_false a b : ~ a < b -> real_ltb a b = false.
Proof. intros H. unfold real_ltb. destruct (Rlt_dec a b); [contradiction|reflexivity]. Qed.

Lemma marginFactor_gt_1 : 1 < marginFactor.
Proof. unfold marginFactor. lra. Qed.

Lemma lengthSq_nonneg (d : Vector3 R) : 0 <= lengthSq d.
Proof.
  unfold lengthSq; simpl.
  pose proof (Rle_0_sqr (vx d)). pose proof (Rle_0_sqr (vy d)).
  pose proof (Rle_0_sqr (vz d)). unfold Rsqr in *. lra.
Qed.

Lemma length3_pos (d : Vector3 R) : 0 < lengthSq d -> 0 < length3 d.
Proof. intros H. unfold length3; simpl. apply sqrt_lt_R0, H. Qed.

Lemma length3_sqr (d : Vector3 R) : length3 d * length3 d = lengthSq d.
Proof. unfold length3; simpl. apply sqrt_sqrt, lengthSq_nonneg. Qed.

Lemma vsub_vadd (c o : Vector3 R) : vsub (vadd c o) c = o.
Proof.
  destruct c as [cx cy cz], o as [ox oy oz]. unfold vsub, vadd; simpl.
  f_equal; ring.
Qed.


Lemma lengthSq_scaled (d : Vector3 R) (k : R) :
  lengthSq (multiplyScalar d k) = k * k * lengthSq d.
Proof. unfold lengthSq, multiplyScalar; simpl. ring. Qed.

(** A direction of positive length, normalised and scaled by [c], has
    length [c] and is a multiple of the direction. *)
Lemma normalize_scaled (d : Vector3 R) (c : R) :
  0 < lengthSq d -> 0 <= c ->
  let off := multiplyScalar (normalize d) c in
  length3 off = c
  /\ off = multiplyScalar d (c / length3 d).
Proof.
  intros Hd Hc off. subst off.
  pose proof (length3_pos d Hd) as Hl. pose proof (length3_sqr d) as Hll.
  assert (Hn : normalize d = multiplyScalar d (1 / length3 d)).
  { unfold normalize, divideScalar.
    assert (truthy (length3 d) = true) as ->; [|reflexivity].
    cbn [truthy realNumber]. unfold real_eqb.
    destruct (Req_dec_T (length3 d) 0); [lra|reflexivity]. }
  rewrite Hn. split.
  - unfold length3 at 1. rewrite !lengthSq_scaled, <- Hll.
    set (l := length3 d) in *.
    assert (E : c * c * (1 / l * (1 / l) * (l * l)) = c * c) by (field; lra).
    cbn [nsqrt realNumber]. rewrite E. apply sqrt_square, Hc.
  - set (l := length3 d) in *. unfold multiplyScalar.
    cbn [vx vy vz nmul ndiv ofZ realNumber]. f_equal; field; lra.
Qed.

Lemma viewDirection_cases camera controls :
  (lengthSq (previousDirection camera controls) < 1 / 100
   /\ viewDirection camera controls = defaultDirection)
  \/ (~ lengthSq (previousDirection camera controls) < 1 / 100
      /\ viewDirection camera controls = previousDirection camera controls).
Proof.
  unfold viewDirection. fold (previousDirection camera controls). simpl.
  unfold dec; simpl.
  destruct (Rlt_dec (lengthSq (previousDirection camera controls)) (1 / 100))
    as [Hlt|Hge].
  - left. split; [exact Hlt|]. rewrite real_ltb_true by exact Hlt. reflexivity.
  - right. split; [exact Hge|]. rewrite real_ltb_false by exact Hge. reflexivity.
Qed.

Lemma viewDirection_pos camera controls :
  0 < lengthSq (viewDirection camera controls).
Proof.
  destruct (viewDirection_cases camera controls) as [[_ ->]|[Hge ->]].
  - unfold lengthSq, defaultDirection; simpl. lra.
  - lra.
Qed.

Lemma tan_halfFov_pos camera : 0 < fov camera < 180 -> 0 < tan (halfFov camera).
Proof.
  intros [H0 H180]. pose proof PI_RGT_0 as Hpi. unfold halfFov.
  apply tan_gt_0.
  - apply Rmult_lt_0_compat; [|lra]. apply Rmult_lt_0_compat; lra.
  - replace (PI / 2) with (180 * (PI / 180) / 2) by field.
    apply Rmult_lt_compat_r; [lra|]. apply Rmult_lt_compat_r; lra.
Qed.

(** The framing in exact arithmetic, in terms of the effective extent. *)
Lemma frame_real camera controls (box : Box3 R) :
  0 < fov camera < 180 -> 0 < effectiveDim box ->
  let out := fitCameraToObject camera controls box in
  let dist := effectiveDim box / (2 * tan (halfFov camera)) * marginFactor in
  0 < dist
  /\ distanceTo (position (fst out)) (getCenter box) = dist
  /\ vsub (position (fst out)) (getCenter box) =
     multiplyScalar (viewDirection camera controls)
                    (dist / length3 (viewDirection camera controls))
  /\ target (snd out) = getCenter box.
Proof.
  intros Hfov Hdim out dist.
  pose proof (tan_halfFov_pos camera Hfov) as Htan.
  assert (Hz : nmul (cameraZ camera box) (dec 15 10) = dist).
  { unfold cameraZ, dist, marginFactor, dec. simpl.
    fold (halfFov camera). rewrite Rabs_pos_eq.
    - field. lra.
    - apply Rlt_le. apply Rdiv_lt_0_compat; [lra | exact Htan]. }
  assert (Hdist : 0 < dist).
  { unfold dist. apply Rmult_lt_0_compat; [|pose proof marginFactor_gt_1; lra].
    apply Rdiv_lt_0_compat; lra. }
  destruct (normalize_scaled (viewDirection camera controls) dist
              (viewDirection_pos camera controls) (Rlt_le _ _ Hdist))
    as [Hlen Hoff].
  subst out. unfold fitCameraToObject. cbn [fst snd position target].
  rewrite Hz.
  split; [exact Hdist|]. split; [|split; [|reflexivity]].
  - unfold distanceTo. rewrite vsub_vadd. exact Hlen.
  - rewrite vsub_vadd. exact Hoff.
Qed.

(** **** The notions written out, and those of the code *)








Lemma someBox_maxDim : maxDim someBox = 4.
Proof.
  unfold maxDim, getSize, boxIsEmpty, someBox; simpl.
  rewrite !real_ltb_false by lra. simpl.
  unfold Rmax. repeat (destruct (Rle_dec _ _)); lra.
Qed.



(** **** Degenerate boxes *)

(** A box reduced to a point, and the empty box of three.js. *)
Lemma point_box_maxDim (p : Vector3 R) : maxDim (mkBox3 p p) = 0.
Proof.
  unfold maxDim, getSize, boxIsEmpty; simpl.
  rewrite !real_ltb_false by lra. simpl.
  unfold Rmax. repeat (destruct (Rle_dec _ _)); lra.
Qed.

Lemma empty_box_maxDim (b : Box3 R) : boxIsEmpty b = true -> maxDim b = 0.
Proof.
  intros He. unfold maxDim, getSize. rewrite He. simpl.
  unfold Rmax. repeat (destruct (Rle_dec _ _)); lra.
Qed.



(** **** Binary64 arithmetic *)

Lemma nan_add (y : float) : PrimFloat.is_nan (PrimFloat.add PrimFloat.nan y) = true.
Proof.
  unfold PrimFloat.is_nan.
  rewrite FloatAxioms.eqb_spec, FloatAxioms.add_spec.
  change (FloatOps.Prim2SF PrimFloat.nan) with SpecFloat.S754_nan. reflexivity.
Qed.

(** Where the test [maxDim > 0.01] fails, the extent of the box plays no
    part: in any arithmetic, the camera is put at the center of the box
    plus an offset that is the same for all such boxes. *)
Lemma frame_safe_offset {num : Type} {JN : JsNumber num} {JM : JsMath num}
    (camera : PerspectiveCamera num) (controls : OrbitControls num)
    (box box' : Box3 num) :
  nltb (dec 1 100) (maxDim box) = false ->
  nltb (dec 1 100) (maxDim box') = false ->
  exists offset,
    position (fst (fitCameraToObject camera controls box))
    = vadd (getCenter box) offset
    /\ position (fst (fitCameraToObject camera controls box'))
       = vadd (getCenter box') offset.
Proof.
  intros H H'. unfold fitCameraToObject, cameraZ. cbn [fst position].
  rewrite (effectiveDim_safe box H), (effectiveDim_safe box' H').
  eexists. split; reflexivity.
Qed.

(** C6 (framing of a degenerate box): the camera position is not finite
    for a numerically invalid box.  For the box whose bounds are NaN the
    safe extent is substituted, but the center of the box is used as it is:
    whatever the camera, the controls and the tangent function are, the
    three coordinates of the camera position and of the orbit target are
    NaN afterwards; and framing the unit cube from that camera and those
    controls gives a NaN position again.  For the degenerate boxes with
    finite bounds (zero extent, a point, the empty box) the safe extent is
    substituted and, evaluated for the camera of [setupScene], the position
    is finite. *)
Theorem frame_nan_box_not_finite :
  effectiveDim nanBox = SAFE_DIM
  /\ (forall (tan : float -> float) (camera : PerspectiveCamera float)
             (controls : OrbitControls float),
        let out := @fitCameraToObject float floatNumber (floatMath tan)
                     camera controls nanBox in
        nanVectorb (position (fst out)) = true
        /\ finiteVector (position (fst out)) = false
        /\ nanVectorb (target (snd out)) = true)
  /\ (let out := @fitCameraToObject float floatNumber (floatMath tanAtHalfOf45)
                   floatCamera floatControls nanBox in
      let again := @fitCameraToObject float floatNumber
                     (floatMath tanAtHalfOf45) (fst out) (snd out)
                     unitFloatBox in
      finiteVector (getCenter unitFloatBox) = true
      /\ nanVectorb (position (fst again)) = true)
  /\ Forall (fun box =>
               effectiveDim box = SAFE_DIM
               /\ finiteVector
                    (position (fst (@fitCameraToObject float floatNumber
                                      (floatMath tanAtHalfOf45) floatCamera
                                      floatControls box))) = true)
            [zeroFloatBox; pointFloatBox; emptyFloatBox].
Proof.
  split; [reflexivity|]. split; [|split].
  - intros tan camera controls out. subst out.
    unfold fitCameraToObject. cbn [fst snd position target].
    assert (Hc : getCenter nanBox = nanVector) by reflexivity.
    rewrite Hc.
    unfold nanVectorb, finiteVector, isFinite, vadd, nanVector.
    cbn [vx vy vz nadd floatNumber]. rewrite !nan_add. repeat split.
  - cbv zeta. split; vm_compute; reflexivity.
  - repeat constructor; vm_compute; reflexivity.
Qed.

End CameraFacts.
(* ------------------------------------------------------------------ *)
(** *** Facts about the viewer component *)

Module SessionFacts.
Import Names Numbers Scene Session Properties Samples.
Local Open Scope list_scope.

(** **** Picking *)

(** C10 (picking without a model).  When no model is attached to the
    session, [getIntersects] returns no intersection, for every point,
    container rectangle and ray backend. *)
Theorem getIntersects_without_model
    (intersectObject : Raycaster -> Heap -> Object3D -> list Intersection)
    (clientX clientY : float) (rect : Rect float) (h : Heap)
    (s : InteractiveThreeScene) :
  mesh s = None ->
  fst (getIntersects intersectObject clientX clientY rect h s) = None.
Proof.
  intros Hmesh. unfold getIntersects.
  destruct (degenerateRect rect); [reflexivity|].
  unfold withRay. cbn [mesh]. rewrite Hmesh. reflexivity.
Qed.

Lemma getIntersects_without_model_witness :
  fst (getIntersects hitRoot (ofZ 400) (ofZ 300) viewport emptyHeap
         (fst (setupScene emptyHeap))) = None.
Proof.
  apply getIntersects_without_model. reflexivity.
Defined.

Lemma getIntersects_frame intersectObject clientX clientY rect h s :
  let s' := snd (getIntersects intersectObject clientX clientY rect h s) in
  scene s' = scene s /\ originalMaterials s' = originalMaterials s
  /\ mesh s' = mesh s.
Proof.
  unfold getIntersects. destruct (degenerateRect rect); [auto|].
  unfold withRay. cbn [mesh]. destruct (mesh s); auto.
Qed.

(** **** Clicks *)

Lemma updateRun_fields k f c :
  sceneRef (updateRun k f c) = sceneRef c
  /\ container (updateRun k f c) = container c
  /\ currentSelectedPart (updateRun k f c) = currentSelectedPart c
  /\ partSelectedCalls (updateRun k f c) = partSelectedCalls c
  /\ modelLoadedCalls (updateRun k f c) = modelLoadedCalls c.
Proof. unfold updateRun, withRuns; simpl. auto. Qed.

Lemma clearSelection_spec k r c h :
  let w' := clearSelection k r (c, h) in
  currentSelectedPart (fst w') = None
  /\ partSelectedCalls (fst w') =
     partSelectedCalls c ++ (if onPartSelected (runProps r) then [None] else [])
  /\ snd w' = snd (resetModelColor (originalMaterials (interactive r)) h).
Proof.
  unfold clearSelection.
  destruct (resetModelColor (originalMaterials (interactive r)) h) as [[] h'].
  unfold callPartSelected, setCurrentSelectedPart.
  destruct (onPartSelected (runProps r)); simpl.
  - auto.
  - rewrite app_nil_r. auto.
Qed.

Lemma clearSelection_after k r s c h :
  originalMaterials s = originalMaterials (interactive r) ->
  let r' := withInteractive (fun _ => s) r in
  let w' := clearSelection k r' (updateRun k (fun _ => r') c, h) in
  currentSelectedPart (fst w') = None
  /\ partSelectedCalls (fst w') =
     partSelectedCalls c ++ (if onPartSelected (runProps r) then [None] else [])
  /\ snd w' = snd (resetModelColor (originalMaterials (interactive r)) h).
Proof.
  intros Hstore r' w'. subst w'.
  pose proof (clearSelection_spec k r' (updateRun k (fun _ => r') c) h) as Hspec.
  cbv zeta in Hspec.
  destruct (updateRun_fields k (fun _ => r') c) as (_ & _ & _ & Hcalls & _).
  rewrite Hcalls in Hspec. subst r'.
  cbn [withInteractive runProps interactive] in Hspec.
  rewrite Hstore in Hspec. exact Hspec.
Qed.

(** In thumbnail mode the bracket is attached and highlighted; a click on
    empty space changes nothing: nothing is reported through
    [onPartSelected], and the bracket keeps the highlight material although
    the store records the steel (restoring would give the steel back). *)
Lemma thumbnail_click_keeps_highlight :
  let w := thumbnailWorld in
  let w' := handleClick unitBox tanAtHalfOf45 hitNothing (ofZ 10) (ofZ 10) w in
  let store :=
    default [] (originalMaterials ∘ interactive <$> runs (fst w) !! 0) in
  sceneRef (fst w) = Some 0
  /\ container (fst w) = Some viewport
  /\ (mesh ∘ interactive <$> runs (fst w) !! 0) = Some (Some bracket)
  /\ (onPartSelected ∘ runProps <$> runs (fst w) !! 0) = Some true
  /\ ((fun r => fst (getIntersects hitNothing (ofZ 10) (ofZ 10) viewport (snd w)
                       (interactive r))) <$> runs (fst w) !! 0) = Some None
  /\ w' = w
  /\ partSelectedCalls (fst w') = []
  /\ meshLook (snd w') bracket
     = Some (inl (Some highlightMaterial))
  /\ meshLook (snd (resetModelColor store (snd w)))
                            bracket
     = Some (inl (Some steel))
  /\ snd w' <> snd (resetModelColor store (snd w)).
Proof.
  cbv zeta. do 9 (split; [vm_compute; reflexivity|]).
  intros H. apply (f_equal nextMaterial) in H. vm_compute in H. discriminate H.
Qed.

(** **** Superseded loads *)

(** A load that settles acts on the effect run that started it only: the
    other runs, among them the current one when it is another, keep their
    scene, mesh and store, and the selection is unchanged. *)
Lemma updateRun_other k f c j :
  j <> k -> runs (updateRun k f c) !! j = runs c !! j.
Proof.
  intros Hjk. unfold updateRun, withRuns; simpl.
  destruct (runs c !! k); [|reflexivity].
  apply list_lookup_insert_ne. congruence.
Qed.

Lemma loadSettled_other_runs setFromObject tan k result c h j :
  j <> k ->
  let w' := loadSettled setFromObject tan k result (c, h) in
  runs (fst w') !! j = runs c !! j
  /\ sceneRef (fst w') = sceneRef c
  /\ currentSelectedPart (fst w') = currentSelectedPart c.
Proof.
  intros Hjk. unfold loadSettled.
  destruct (runs c !! k) as [r|]; [|auto].
  destruct (loadPending r); [|auto].
  destruct result as [gltfGroup|err].
  - unfold loadWith.
    set (c1 := updateRun k (withLoadPending false) c).
    assert (Hc1 : runs c1 !! j = runs c !! j) by (apply updateRun_other, Hjk).
    destruct (runs c1 !! k) as [r1|]; [|cbn [fst]; auto].
    destruct (normalizeModelSizeAndPosition setFromObject gltfGroup (ofZ 4) h)
      as [[] h1].
    destruct (collectOriginalMaterials gltfGroup
                (originalMaterials (interactive r1)) h1) as [st h2].
    destruct (attach setFromObject tan gltfGroup _ h2) as [r2 h3].
    cbn [fst]. unfold setIsLoadingPart; cbn [runs sceneRef currentSelectedPart].
    rewrite updateRun_other by exact Hjk.
    unfold setIsModelLoaded, callModelLoaded.
    destruct (onModelLoaded _); cbn [runs sceneRef currentSelectedPart]; auto.
  - cbn [fst]. unfold setIsLoadingPart, callModelError.
    destruct (onModelError _); cbn [runs sceneRef currentSelectedPart];
      rewrite updateRun_other by exact Hjk; auto.
Qed.

(** C1 (a superseded load is discarded).  The viewer is rendered for
    [a.glb]; before that load settles it is rendered for [b.glb]; then the
    first load settles.  The second effect run is current and its load is
    still pending, with nothing attached; but the result of the first load
    was not dropped: it is attached to the scene of the first run, which was
    torn down, it is that run's mesh, its materials are recorded in the
    store that the cleanup had cleared, it was reported through
    [onModelLoaded], the model counts as loaded and the loading flag is
    cleared. *)
Theorem superseded_load_is_applied :
  let w := afterTrace supersededTrace in
  let superseded := runs (fst w) !! 0 in
  let newest := runs (fst w) !! 1 in
  sceneRef (fst w) = Some 1
  /\ (loadPending <$> newest) = Some true
  /\ (mesh ∘ interactive <$> newest) = Some None
  /\ (controlsDisposed ∘ controls ∘ interactive <$> superseded) = Some true
  /\ (rendererDisposed ∘ interactive <$> superseded) = Some true
  /\ (mesh ∘ interactive <$> superseded) = Some (Some assembly)
  /\ (addedObject <$> superseded) = Some (Some assembly)
  /\ (last ∘ children ∘ scene ∘ interactive <$> superseded)
     = Some (Some assembly)
  /\ (originalMaterials ∘ interactive <$> superseded)
     = Some [(bracket, Single 2); (bolt, Multi [3; 4])]
  /\ modelLoadedCalls (fst w) = [assembly]
  /\ isModelLoaded (fst w) = true
  /\ isLoadingPart (fst w) = false
  /\ disposedGeometries (snd w) = [] /\ disposedMaterials (snd w) = [].
Proof. cbv zeta. repeat split; reflexivity. Qed.

(** Under teardown the same happens: the load that settles after the
    unmount is applied to the scene that was torn down. *)
Lemma load_after_unmount_is_applied :
  let w := afterTrace unmountedTrace in
  sceneRef (fst w) = None
  /\ (mesh ∘ interactive <$> runs (fst w) !! 0) = Some (Some assembly)
  /\ (originalMaterials ∘ interactive <$> runs (fst w) !! 0)
     = Some [(bracket, Single 2); (bolt, Multi [3; 4])]
  /\ modelLoadedCalls (fst w) = [assembly].
Proof. cbv zeta. repeat split; reflexivity. Qed.

End SessionFacts.
(* ------------------------------------------------------------------ *)
(** *** Facts about part identities across the call sites *)

Module IdentityFacts.
Import Names Numbers Scene Properties Notions Samples NamesFacts PartsFacts.
Local Open Scope list_scope.

(** **** Trimming *)

Lemma trimStart_head s c r : trimStart s = String c r -> isWhite c = false.
Proof.
  induction s as [|a s IH]; simpl; [discriminate|].
  destruct (isWhite a) eqn:Ea; [exact IH|].
  intros [= <- _]. exact Ea.
Qed.

Lemma trimEnd_idem s : trimEnd (trimEnd s) = trimEnd s.
Proof.
  induction s as [|c r IH]; simpl; [reflexivity|].
  destruct (isWhite c && isEmpty (trimEnd r)) eqn:E; [reflexivity|].
  simpl. rewrite IH, E. reflexivity.
Qed.

Lemma trimStart_trimEnd s :
  trimStart (trimEnd (trimStart s)) = trimEnd (trimStart s).
Proof.
  destruct (trimStart s) as [|c r] eqn:E; [reflexivity|].
  apply trimStart_head in E. simpl. rewrite E. simpl. rewrite E. reflexivity.
Qed.

Lemma trim_idem s : trim (trim s) = trim s.
Proof.
  unfold trim. rewrite trimStart_trimEnd. apply trimEnd_idem.
Qed.

(** An identity produced by the listing is left as it is by the cleaning
    that the extraction applies to its argument. *)
Lemma clean_is_cleaned name : trim (toLowerCase (clean name)) = clean name.
Proof.
  unfold clean. rewrite toLowerCase_idem, trim_toLowerCase, trim_idem.
  reflexivity.
Qed.

(** **** The last match of a list *)

Lemma last_match {A} (P : A -> bool) (l : list A) :
  existsb P l = true ->
  exists pre c post,
    l = pre ++ c :: post /\ P c = true /\ Forall (fun x => P x = false) post.
Proof.
  induction l as [|a l IH]; simpl; [discriminate|].
  destruct (existsb P l) eqn:El.
  - intros _. destruct (IH eq_refl) as (pre & c & post & -> & Hc & Hpost).
    exists (a :: pre), c, post. auto.
  - rewrite orb_false_r. intros Ha. exists [], a, l.
    split; [reflexivity|]. split; [exact Ha|].
    apply Forall_forall. intros x Hx.
    destruct (P x) eqn:Ex; [|reflexivity].
    assert (existsb P l = true) as Hex; [|congruence].
    apply existsb_exists. exists x. split; [apply list_elem_of_In, Hx | exact Ex].
Qed.

Lemma traverse_head o : exists rest, traverse o = o :: rest.
Proof. destruct o as [u n m cs]. eexists. reflexivity. Qed.

(** Every identity of the listing belongs to a named node of the model. *)
Lemma listed_identity_has_node loadAsync url model i :
  loadAsync url = Loaded model -> i ∈ getTopLevelNodes loadAsync url ->
  exists child, child ∈ traverse model
                /\ isEmpty (name child) = false /\ clean (name child) = i.
Proof.
  intros Hload. unfold getTopLevelNodes. rewrite Hload.
  destruct (fold_listStep_spec (traverse model) [] NoDup_nil_2) as (_ & Hel).
  destruct (fold_left listStep (traverse model) []) as [|y ys] eqn:Hfold.
  - cbn [List.length Nat.eqb andb].
    destruct (isEmpty (name model)) eqn:Hname; cbn [negb].
    + intros Hi. apply elem_of_nil in Hi. destruct Hi.
    + unfold setAdd. cbn [existsb app]. intros Hi.
      apply list_elem_of_singleton in Hi. subst i.
      exists model. destruct (traverse_head model) as [rest ->].
      split; [left|]. split; [exact Hname | reflexivity].
  - cbn [List.length Nat.eqb andb]. intros Hi.
    apply Hel in Hi as [Hi|Hi]; [apply elem_of_nil in Hi; destruct Hi|].
    apply list_elem_of_fmap in Hi as (child & -> & Hchild).
    apply list_elem_of_In, filter_In in Hchild as [Hin Hq].
    exists child. split; [apply list_elem_of_In, Hin|].
    unfold qualifies in Hq. destruct (isEmpty (name child)); [discriminate|].
    split; reflexivity.
Qed.

(** X1 (listing, then extraction).  Every identity that [getTopLevelNodes]
    lists for a model is found by [extractPartByName] on that model: the
    extraction returns a part, and the part is a clone of a node with that
    identity. *)
Theorem listed_part_is_extractable
    (setFromObject : Heap -> Object3D -> Box3 float)
    (loadAsync : string -> LoadResult) (url : string) (model : Object3D)
    (i : string) (h : Heap) :
  loadAsync url = Loaded model -> i ∈ getTopLevelNodes loadAsync url ->
  exists target,
    fst (extractPartByName setFromObject model i h) = Some target
    /\ partIdentity (name target) = i.
Proof.
  intros Hload Hi.
  destruct (listed_identity_has_node _ _ _ _ Hload Hi)
    as (child & Hin & Hname & Hclean).
  assert (Hmatch : matchesPart i child = true).
  { unfold matchesPart. rewrite Hname. cbn [negb andb].
    apply String.eqb_eq. rewrite cleanNodeName_clean, Hclean. subst i.
    symmetry. apply clean_is_cleaned. }
  assert (Hex : existsb (matchesPart i) (traverse model) = true).
  { apply existsb_exists. exists child. split; [apply list_elem_of_In, Hin|].
    exact Hmatch. }
  destruct (last_match _ _ Hex) as (pre & c & post & Htrav & Hc & Hpost).
  destruct (extractPartByName_last_match setFromObject model i h pre c post
              Htrav Hc Hpost) as (target & Hres & Hn & _).
  exists target. split; [exact Hres|].
  unfold partIdentity. rewrite Hn.
  apply matchesPart_true in Hc as [_ Heq]. apply String.eqb_eq in Heq.
  rewrite Heq. subst i. apply clean_is_cleaned.
Qed.

Lemma listed_part_is_extractable_witness :
  exists target,
    fst (extractPartByName unitBox assembly "bracket" assemblyHeap) = Some target
    /\ partIdentity (name target) = "bracket".
Proof.
  apply (listed_part_is_extractable unitBox (fun _ => Loaded assembly) "a.glb").
  - reflexivity.
  - vm_compute. left.
Defined.

(** **** The hierarchy search *)

(** The loop with the [found] flag, for any test, is a search for the
    first element that passes the test. *)
Lemma fold_found {A} (P : A -> bool) (l : list A) (x : A) :
  fold_left (fun found child =>
               match found with
               | Some _ => found
               | None => if P child then Some child else None
               end) l (Some x) = Some x.
Proof. induction l as [|a l IH]; simpl; [reflexivity | exact IH]. Qed.

Lemma fold_find {A} (P : A -> bool) (l : list A) :
  fold_left (fun found child =>
               match found with
               | Some _ => found
               | None => if P child then Some child else None
               end) l None = List.find P l.
Proof.
  induction l as [|a l IH]; simpl; [reflexivity|].
  destruct (P a); [apply fold_found | exact IH].
Qed.

Lemma findNodeByBaseName_find root baseName :
  findNodeByBaseName root baseName
  = List.find (baseMatches baseName) (traverse root).
Proof. unfold findNodeByBaseName. apply (fold_find (baseMatches baseName)). Qed.

(** X2 (the hierarchy search returns the first match).  The result of
    [findNodeByBaseName] is a node of the hierarchy that is named and whose
    base name is the requested one up to case, and no node before it in
    traversal order passes that test; the search returns nothing exactly
    when no node of the hierarchy passes it. *)
Theorem findNodeByBaseName_first (root : Object3D) (baseName : string) :
  match findNodeByBaseName root baseName with
  | Some t =>
      exists pre post,
        traverse root = pre ++ t :: post
        /\ baseMatches baseName t = true
        /\ Forall (fun c => baseMatches baseName c = false) pre
  | None => Forall (fun c => baseMatches baseName c = false) (traverse root)
  end.
Proof.
  rewrite findNodeByBaseName_find.
  induction (traverse root) as [|a l IH]; simpl; [constructor|].
  destruct (baseMatches baseName a) eqn:Ea.
  - exists [], l. split; [reflexivity|]. split; [exact Ea | constructor].
  - destruct (List.find (baseMatches baseName) l) as [t|].
    + destruct IH as (pre & post & -> & Ht & Hpre).
      exists (a :: pre), post. split; [reflexivity|]. split; [exact Ht|].
      constructor; assumption.
    + constructor; assumption.
Qed.

(** X3 (a part selected by click is found by the hierarchy search).  When
    the prefix of the name of a node carries no blank at either end, the
    part name that a click on the node reports is found again by
    [findNodeByBaseName] in every hierarchy that contains the node, and the
    node found has the base name of the node clicked. *)
Theorem clicked_part_is_found (root n : Object3D) (partName : string) :
  n ∈ traverse root ->
  clickPartName (name n) = Some partName ->
  trim (splitHead dash (name n)) = splitHead dash (name n) ->
  exists t, findNodeByBaseName root partName = Some t
            /\ t ∈ traverse root
            /\ childBase (name t) = childBase (name n).
Proof.
  intros Hin Hclick Htrim. unfold clickPartName in Hclick.
  destruct (isEmpty (name n)) eqn:Hname; [discriminate|].
  injection Hclick as <-. rewrite Htrim.
  rewrite findNodeByBaseName_find.
  destruct (List.find (baseMatches (splitHead dash (name n))) (traverse root))
    as [t|] eqn:Hfind.
  - apply find_some in Hfind as [Ht Hm]. exists t.
    split; [reflexivity|]. split; [apply list_elem_of_In, Ht|].
    unfold baseMatches in Hm. apply andb_true_iff in Hm as [_ Hm].
    apply String.eqb_eq in Hm. exact Hm.
  - exfalso. apply list_elem_of_In in Hin.
    pose proof (find_none _ _ Hfind n Hin) as Hn.
    unfold baseMatches, childBase in Hn. rewrite Hname, String.eqb_refl in Hn.
    discriminate Hn.
Qed.

Lemma clicked_part_is_found_witness :
  exists t, findNodeByBaseName assembly "Bracket" = Some t
            /\ t ∈ traverse assembly
            /\ childBase (name t) = childBase (name bracket).
Proof.
  apply (clicked_part_is_found assembly bracket "Bracket").
  - vm_compute. right. left.
  - reflexivity.
  - reflexivity.
Defined.

End IdentityFacts.
(* ------------------------------------------------------------------ *)
(** *** Facts about capture, highlight and restore as heap computations *)

Module HeapFacts.
Import Names Numbers Scene Properties Notions Samples SnapshotFacts.
Local Open Scope list_scope.

#[local] Arguments newMaterial : simpl never.
#[local] Arguments cloneMaterial : simpl never.
#[local] Arguments cloneSlot : simpl never.
#[local] Arguments getMaterial : simpl never.
#[local] Arguments setMaterial : simpl never.
#[local] Arguments collectOne : simpl never.
#[local] Arguments resetOne : simpl never.
#[local] Arguments highlightPart : simpl never.

(** **** Allocation leaves the scene alone *)

Lemma sameScene_refl h : sameScene h h.
Proof. repeat split. Qed.

Lemma sameScene_trans h1 h2 h3 :
  sameScene h1 h2 -> sameScene h2 h3 -> sameScene h1 h3.
Proof.
  intros (A1 & A2 & A3 & A4 & A5 & A6 & A7 & A8)
         (B1 & B2 & B3 & B4 & B5 & B6 & B7 & B8).
  repeat split; congruence.
Qed.

Lemma newMaterial_sameScene m h : sameScene h (snd (newMaterial m h)).
Proof. unfold newMaterial. repeat split. Qed.

Lemma cloneMaterial_sameScene r h : sameScene h (snd (cloneMaterial r h)).
Proof. unfold cloneMaterial. apply newMaterial_sameScene. Qed.

Lemma cloneMaterial_extends r h : extends h (snd (cloneMaterial r h)).
Proof. apply (cloneMaterial_spec r h). Qed.

Lemma mapM_cloneMaterial_frame rs : forall h,
  sameScene h (snd (mapM cloneMaterial rs h))
  /\ extends h (snd (mapM cloneMaterial rs h))
  /\ forall r, r ∈ fst (mapM cloneMaterial rs h) ->
       nextMaterial h <= r < nextMaterial (snd (mapM cloneMaterial rs h)).
Proof.
  induction rs as [|r rs IH]; intros h; simpl.
  - split; [apply sameScene_refl|]. split; [apply extends_refl|].
    intros r Hr. apply elem_of_nil in Hr. destruct Hr.
  - unfold bind.
    pose proof (cloneMaterial_sameScene r h) as Hs.
    destruct (cloneMaterial_spec r h) as (Hr' & Hn & _ & _ & He).
    destruct (cloneMaterial r h) as [r' h1]. cbn [fst snd] in *.
    destruct (IH h1) as (IHs & IHe & IHf).
    destruct (mapM cloneMaterial rs h1) as [rs' h2]. unfold ret.
    cbn [fst snd] in *.
    split; [eapply sameScene_trans; eassumption|].
    split; [eapply extends_trans; eassumption|].
    intros x Hx. destruct IHe as [Hle _].
    apply elem_of_cons in Hx as [->|Hx]; [lia|].
    specialize (IHf x Hx). lia.
Qed.

(** A clone of a slot is made of newly allocated materials, and cloning
    changes nothing else. *)
Lemma cloneSlot_frame s h :
  sameScene h (snd (cloneSlot s h))
  /\ extends h (snd (cloneSlot s h))
  /\ slotFresh (nextMaterial h) (nextMaterial (snd (cloneSlot s h)))
               (fst (cloneSlot s h)).
Proof.
  destruct s as [r|rs]; unfold cloneSlot, bind.
  - pose proof (cloneMaterial_sameScene r h) as Hs.
    destruct (cloneMaterial_spec r h) as (Hr' & Hn & _ & _ & He).
    destruct (cloneMaterial r h) as [r' h1]. unfold ret. cbn [fst snd] in *.
    split; [exact Hs|]. split; [exact He|].
    intros x Hx. simpl in Hx. apply list_elem_of_singleton in Hx. lia.
  - destruct (mapM_cloneMaterial_frame rs h) as (Hs & He & Hf).
    destruct (mapM cloneMaterial rs h) as [rs' h1]. unfold ret.
    cbn [fst snd] in *. split; [exact Hs|]. split; [exact He|].
    intros x Hx. apply Hf, Hx.
Qed.

(** **** Capture *)

Lemma collectOne_frame store child h :
  sameScene h (snd (collectOne store child h))
  /\ extends h (snd (collectOne store child h)).
Proof.
  rewrite collectOne_run. destruct (isMesh child);
    [|split; [apply sameScene_refl | apply extends_refl]].
  destruct (materialOf h !! uid child) as [slot|];
    [|split; [apply sameScene_refl | apply extends_refl]].
  cbn [snd]. destruct (cloneSlot_frame slot h) as (Hs & He & _). auto.
Qed.

(** X4 (capture only reads the scene).  [collectOriginalMaterials] changes
    no object: the material slot, the geometry and the position of every
    object are the same afterwards, nothing is disposed, and the materials
    that existed keep their content; it only allocates the clones that it
    records. *)
Theorem capture_leaves_scene (model : Object3D) (store : Store) (h : Heap) :
  let h' := snd (collectOriginalMaterials model store h) in
  sameScene h h' /\ extends h h'.
Proof.
  unfold collectOriginalMaterials. revert store h.
  induction (traverse model) as [|a l IH]; intros store h.
  - split; [apply sameScene_refl | apply extends_refl].
  - cbn [foldM]. unfold bind.
    destruct (collectOne_frame store a h) as [Hs He].
    destruct (collectOne store a h) as [store1 h1]. cbn [snd] in *.
    destruct (IH store1 h1) as [IHs IHe].
    split; [eapply sameScene_trans | eapply extends_trans]; eassumption.
Qed.

(** **** Highlight *)

Lemma forEachM_cons {A} (f : A -> M unit) a l h :
  snd (forEachM f (a :: l) h) = snd (forEachM f l (snd (f a h))).
Proof. cbn [forEachM]. unfold bind. destruct (f a h) as [[] h1]. reflexivity. Qed.

Lemma applyHighlight_step base (m : Object3D) h :
  snd (bind (cloneMaterial base) (fun clone => setMaterial m (Single clone)) h)
  = snd (setMaterial m (Single (fst (cloneMaterial base h)))
                     (snd (cloneMaterial base h))).
Proof. unfold bind. destruct (cloneMaterial base h) as [c h1]. reflexivity. Qed.

Lemma applyHighlight_spec base content meshes : forall h,
  base < nextMaterial h -> materials h !! base = content ->
  let h' := snd (forEachM (fun m : Object3D =>
                    bind (cloneMaterial base)
                         (fun clone => setMaterial m (Single clone)))
                  meshes h) in
  extends h h'
  /\ (forall u, u ∉ map uid meshes -> materialOf h' !! u = materialOf h !! u)
  /\ (forall u, u ∈ map uid meshes ->
        exists r, materialOf h' !! u = Some (Single r)
                  /\ materials h' !! r = content
                  /\ nextMaterial h <= r < nextMaterial h')
  /\ (forall u1 u2 r, u1 ∈ map uid meshes -> u2 ∈ map uid meshes ->
        materialOf h' !! u1 = Some (Single r) ->
        materialOf h' !! u2 = Some (Single r) -> u1 = u2)
  /\ geometryOf h' = geometryOf h /\ positionOf h' = positionOf h
  /\ sameDisposals h h'.
Proof.
  induction meshes as [|a rest IH]; intros h Hbase Hcontent h'; subst h'.
  - simpl. split; [apply extends_refl|]. split; [reflexivity|].
    split; [intros u Hu; apply elem_of_nil in Hu; destruct Hu|].
    split; [intros u1 u2 r Hu; apply elem_of_nil in Hu; destruct Hu|].
    repeat split.
  - rewrite forEachM_cons, applyHighlight_step.
    pose proof (cloneMaterial_sameScene base h) as Hsc.
    destruct (cloneMaterial_spec base h) as (Hr0 & Hn & Hl & Hmo & He).
    destruct (cloneMaterial base h) as [r0 ha]. cbn [fst snd] in *.
    destruct (setMaterial_spec a (Single r0) ha) as (Hmo1 & Hm1 & Hn1).
    pose proof (setMaterial_extends a (Single r0) ha) as He1.
    assert (Hframe1 : geometryOf (snd (setMaterial a (Single r0) ha)) = geometryOf ha
                      /\ positionOf (snd (setMaterial a (Single r0) ha)) = positionOf ha
                      /\ sameDisposals ha (snd (setMaterial a (Single r0) ha))).
    { unfold setMaterial, modify, withMaterialOf. repeat split. }
    destruct (setMaterial a (Single r0) ha) as [[] h1]. cbn [fst snd] in *.
    assert (He01 : extends h h1) by (eapply extends_trans; eassumption).
    assert (Hbase1 : base < nextMaterial h1) by (rewrite Hn1, Hn; lia).
    assert (Hcontent1 : materials h1 !! base = content).
    { destruct He01 as [_ Hkeep]. rewrite Hkeep by exact Hbase. exact Hcontent. }
    destruct (IH h1 Hbase1 Hcontent1) as (IHe & IHf & IHin & IHinj & IHg & IHp & IHd).
    set (h2 := snd (forEachM _ rest h1)) in *.
    assert (Hhead : uid a ∉ map uid rest ->
              materialOf h2 !! uid a = Some (Single r0)
              /\ materials h2 !! r0 = content).
    { intros Hnot. split.
      - rewrite (IHf _ Hnot), Hmo1. apply lookup_insert_eq.
      - destruct IHe as [_ Hkeep]. rewrite Hkeep by (rewrite Hn1, Hn; lia).
        rewrite Hm1, Hl. exact Hcontent. }
    assert (Hle2 : nextMaterial h1 <= nextMaterial h2) by apply IHe.
    split; [eapply extends_trans; eassumption|].
    split; [|split; [|split]].
    + intros u Hu. cbn [map] in Hu. apply not_elem_of_cons in Hu as [Hne Hu].
      rewrite (IHf u Hu), Hmo1, lookup_insert_ne by congruence.
      rewrite Hmo. reflexivity.
    + intros u Hu. destruct (decide (u ∈ map uid rest)) as [Hin|Hnot].
      * destruct (IHin u Hin) as (r & Hs & Hc & Hr). exists r.
        split; [exact Hs|]. split; [exact Hc|]. lia.
      * cbn [map] in Hu. apply elem_of_cons in Hu as [->|Hu]; [|contradiction].
        destruct (Hhead Hnot) as [Hs Hc]. exists r0.
        split; [exact Hs|]. split; [exact Hc|]. lia.
    + intros u1 u2 r Hu1 Hu2 Hs1 Hs2. cbn [map] in Hu1, Hu2.
      destruct (decide (u1 ∈ map uid rest)) as [Hin1|Hnot1];
        destruct (decide (u2 ∈ map uid rest)) as [Hin2|Hnot2].
      * eapply IHinj; eassumption.
      * apply elem_of_cons in Hu2 as [->|Hu2]; [|contradiction].
        destruct (Hhead Hnot2) as [Hs _].
        destruct (IHin u1 Hin1) as (r1 & Hs1' & _ & Hr1).
        assert (r = r0) by congruence. assert (r1 = r) by congruence. lia.
      * apply elem_of_cons in Hu1 as [->|Hu1]; [|contradiction].
        destruct (Hhead Hnot1) as [Hs _].
        destruct (IHin u2 Hin2) as (r2 & Hs2' & _ & Hr2).
        assert (r = r0) by congruence. assert (r2 = r) by congruence. lia.
      * apply elem_of_cons in Hu1 as [->|Hu1]; [|contradiction].
        apply elem_of_cons in Hu2 as [->|Hu2]; [|contradiction]. reflexivity.
    + destruct Hsc as (_ & Sg & Sp & Sd1 & Sd2 & Sd3 & _).
      destruct Hframe1 as (Fg & Fp & Fd1 & Fd2 & Fd3).
      destruct IHd as (Id1 & Id2 & Id3).
      split; [congruence|]. split; [congruence|].
      repeat split; congruence.
Qed.

Lemma highlightPart_single mesh h :
  snd (highlightPart (inl mesh) h) = snd (highlightPart (inr [mesh]) h).
Proof.
  unfold highlightPart, bind.
  destruct (newMaterial (Some highlightMaterial) h) as [baseMat h1].
  cbn [forEachM]. unfold bind.
  destruct (cloneMaterial baseMat h1) as [clone h2].
  destruct (setMaterial mesh (Single clone) h2) as [[] h3]. reflexivity.
Qed.

(** The highlight of a list of meshes. *)
Lemma highlightPart_list meshes h :
  let h' := snd (highlightPart (inr meshes) h) in
  (forall m, m ∈ meshes ->
     showsOnly h' m highlightMaterial
     /\ exists r, materialOf h' !! uid m = Some (Single r)
                  /\ nextMaterial h < r < nextMaterial h')
  /\ (forall m1 m2, m1 ∈ meshes -> m2 ∈ meshes ->
        materialOf h' !! uid m1 = materialOf h' !! uid m2 -> uid m1 = uid m2)
  /\ (forall u, u ∉ map uid meshes -> materialOf h' !! u = materialOf h !! u)
  /\ geometryOf h' = geometryOf h /\ positionOf h' = positionOf h
  /\ sameDisposals h h' /\ extends h h'.
Proof.
  pose proof (highlightPart_extends (inr meshes) h) as Hext.
  revert Hext. unfold highlightPart, bind.
  pose proof (newMaterial_sameScene (Some highlightMaterial) h) as Hsc.
  destruct (newMaterial_spec (Some highlightMaterial) h)
    as (Hb & Hn & Hl & Hmo & He).
  destruct (newMaterial (Some highlightMaterial) h) as [baseMat h1].
  cbn [fst snd] in *. intros Hext.
  assert (Hbase : baseMat < nextMaterial h1) by lia.
  destruct (applyHighlight_spec baseMat (Some highlightMaterial) meshes h1
              Hbase Hl) as (_ & Hf & Hin & Hinj & Hg & Hp & Hd).
  set (h2 := snd (forEachM _ meshes h1)) in *.
  split; [|split; [|split]].
  - intros m Hm.
    assert (Hu : uid m ∈ map uid meshes) by (apply list_elem_of_fmap_2, Hm).
    destruct (Hin _ Hu) as (r & Hs & Hc & Hr).
    split.
    + unfold showsOnly, meshLook. rewrite Hs. cbn. rewrite Hc. reflexivity.
    + exists r. split; [exact Hs|]. lia.
  - intros m1 m2 Hm1 Hm2 Heq.
    assert (Hu1 : uid m1 ∈ map uid meshes) by (apply list_elem_of_fmap_2, Hm1).
    assert (Hu2 : uid m2 ∈ map uid meshes) by (apply list_elem_of_fmap_2, Hm2).
    destruct (Hin _ Hu1) as (r & Hs & _ & _).
    apply (Hinj _ _ r Hu1 Hu2 Hs). rewrite <- Heq. exact Hs.
  - intros u Hu. rewrite (Hf u Hu). rewrite Hmo. reflexivity.
  - destruct Hsc as (_ & Sg & Sp & Sd1 & Sd2 & Sd3 & _).
    destruct Hd as (D1 & D2 & D3).
    split; [congruence|]. split; [congruence|].
    split; [repeat split; congruence | exact Hext].
Qed.

(** X5 (what a highlight does).  After [highlightPart], every mesh given
    shows the highlight material and nothing else; two meshes given that are
    different objects hold different material objects, all of them allocated
    by the call; the meshes that were not given keep their material slot;
    no geometry or position changes, nothing is disposed, and the materials
    that existed keep their content.  This holds for a single mesh as for an
    array of meshes. *)
Theorem highlightPart_spec (meshOrMeshes : Object3D + list Object3D) (h : Heap) :
  let h' := snd (highlightPart meshOrMeshes h) in
  let meshes := highlightTargets meshOrMeshes in
  (forall m, m ∈ meshes ->
     showsOnly h' m highlightMaterial
     /\ exists r, materialOf h' !! uid m = Some (Single r)
                  /\ nextMaterial h < r < nextMaterial h')
  /\ (forall m1 m2, m1 ∈ meshes -> m2 ∈ meshes ->
        materialOf h' !! uid m1 = materialOf h' !! uid m2 -> uid m1 = uid m2)
  /\ (forall u, u ∉ map uid meshes -> materialOf h' !! u = materialOf h !! u)
  /\ geometryOf h' = geometryOf h /\ positionOf h' = positionOf h
  /\ sameDisposals h h' /\ extends h h'.
Proof.
  destruct meshOrMeshes as [mesh|meshes]; cbn [highlightTargets].
  - rewrite highlightPart_single. apply (highlightPart_list [mesh]).
  - apply highlightPart_list.
Qed.

(** **** Restore *)

(** X6 (restoring twice).  For a store of distinct meshes whose snapshots
    are allocated, on a heap whose meshes reference allocated materials: a
    second [resetModelColor] right after a first one changes the look of no
    mesh, recorded or not, although it assigns new material objects. *)
Theorem restore_is_idempotent (store : Store) (h : Heap) :
  storeOk store -> storeBelow (nextMaterial h) store -> heapOk h ->
  let h1 := snd (resetModelColor store h) in
  let h2 := snd (resetModelColor store h1) in
  forall mesh, meshLook h2 mesh = meshLook h1 mesh.
Proof.
  intros Hsok Hb Hok h1 h2 mesh.
  destruct (resetModelColor_spec store h Hsok Hb) as (Hext & _ & Hel).
  fold h1 in Hext, Hel.
  pose proof (resetModelColor_heapOk store h Hsok Hb Hok) as Hok1. fold h1 in Hok1.
  assert (Hb1 : storeBelow (nextMaterial h1) store).
  { intros e He. eapply slotBelow_mono; [apply Hext | apply Hb, He]. }
  destruct (resetModelColor_spec store h1 Hsok Hb1) as (Hext2 & Hframe2 & Hel2).
  fold h2 in Hext2, Hframe2, Hel2.
  destruct (decide (uid mesh ∈ map (fun e => uid (fst e)) store)) as [Hin|Hnot].
  - apply list_elem_of_fmap in Hin as (e & Hu & He).
    destruct (Hel e He) as (slot1 & Hs1 & Hl1 & _).
    destruct (Hel2 e He) as (slot2 & Hs2 & Hl2 & _).
    unfold meshLook. rewrite Hu, Hs1, Hs2. cbn. rewrite Hl1, Hl2.
    f_equal. apply materialLook_extends; [exact Hext | apply Hb, He].
  - unfold meshLook. rewrite (Hframe2 _ Hnot).
    destruct (materialOf h1 !! uid mesh) as [slot|] eqn:Hs; [|reflexivity].
    cbn. f_equal. apply materialLook_extends; [exact Hext2|].
    apply (heapOk_lookup h1 (uid mesh)); assumption.
Qed.

Lemma restore_is_idempotent_witness :
  meshLook (snd (resetModelColor assemblyStore
                   (snd (resetModelColor assemblyStore assemblyCaptured)))) bolt
  = meshLook (snd (resetModelColor assemblyStore assemblyCaptured)) bolt.
Proof.
  destruct (capture_from_scratch assemblyHeap assembly assemblyHeap_ok)
    as (Hext & Hsok & Hb & _).
  apply (restore_is_idempotent assemblyStore assemblyCaptured Hsok Hb).
  eapply heapOk_later; [exact assemblyHeap_ok | reflexivity | apply Hext].
Defined.

End HeapFacts.
(* ------------------------------------------------------------------ *)
(** *** Facts about disposal *)

Module DisposalFacts.
Import Names Numbers Scene Properties Notions Samples SnapshotFacts HeapFacts.
Local Open Scope list_scope.

#[local] Arguments setMaterial : simpl never.
#[local] Arguments disposeMaterial : simpl never.
#[local] Arguments disposeGeometry : simpl never.
#[local] Arguments disposeOne : simpl never.

Lemma sameObjects_refl h : sameObjects h h.
Proof. repeat split. Qed.

Lemma sameObjects_trans h1 h2 h3 :
  sameObjects h1 h2 -> sameObjects h2 h3 -> sameObjects h1 h3.
Proof.
  intros (A1 & A2 & A3 & A4 & A5 & A6) (B1 & B2 & B3 & B4 & B5 & B6).
  repeat split; congruence.
Qed.

Lemma texturesOf_same h h' r :
  materials h' = materials h -> texturesOf h' r = texturesOf h r.
Proof. unfold texturesOf. intros ->. reflexivity. Qed.

(** Disposing the materials of a slot, one after the other. *)
Lemma disposeMaterials_spec rs : forall h,
  let h' := snd (forEachM disposeMaterial rs h) in
  sameObjects h h' /\ materialOf h' = materialOf h
  /\ disposedGeometries h' = disposedGeometries h
  /\ disposedMaterials h' = disposedMaterials h ++ rs
  /\ disposedTextures h' = disposedTextures h ++ flat_map (texturesOf h) rs.
Proof.
  induction rs as [|r rs IH]; intros h h'; subst h'.
  - simpl. rewrite !app_nil_r. repeat split.
  - rewrite forEachM_cons.
    set (h1 := snd (disposeMaterial r h)).
    assert (H1 : sameObjects h h1 /\ materialOf h1 = materialOf h
                 /\ disposedGeometries h1 = disposedGeometries h
                 /\ disposedMaterials h1 = disposedMaterials h ++ [r]
                 /\ disposedTextures h1 = disposedTextures h ++ texturesOf h r).
    { subst h1. unfold disposeMaterial, texturesOf. cbn [snd].
      repeat split. }
    destruct H1 as (So & Sm & Sg & Sd & St).
    destruct (IH h1) as (Io & Im & Ig & Id & It).
    split; [exact (sameObjects_trans _ _ _ So Io)|].
    split; [congruence|]. split; [congruence|]. split.
    + rewrite Id, Sd, <- app_assoc. reflexivity.
    + rewrite It, St, <- app_assoc. reflexivity.
Qed.

(** The callback of [disposeObject] on one node. *)
Lemma disposeOne_spec a h :
  let h' := snd (disposeOne a h) in
  sameObjects h h'
  /\ materialOf h' =
     (if isMesh a then
        match materialOf h !! uid a with
        | Some _ => <[uid a := Multi []]> (materialOf h)
        | None => materialOf h
        end
      else materialOf h)
  /\ disposedGeometries h' =
     disposedGeometries h ++ (if isMesh a then geometriesOfMesh h a else [])
  /\ disposedMaterials h' =
     disposedMaterials h ++ (if isMesh a then materialsOfMesh h a else [])
  /\ disposedTextures h' =
     disposedTextures h
     ++ (if isMesh a then flat_map (texturesOf h) (materialsOfMesh h a) else []).
Proof.
  unfold disposeOne, geometriesOfMesh, materialsOfMesh.
  destruct (isMesh a).
  2:{ cbn [ret snd]. rewrite !app_nil_r. repeat split. }
  unfold bind, getGeometry, getMaterial.
  set (hg := snd (match geometryOf h !! uid a with
                  | Some g => disposeGeometry g
                  | None => ret tt
                  end h)).
  assert (Hg : sameObjects h hg /\ materialOf hg = materialOf h
               /\ disposedGeometries hg =
                  disposedGeometries h
                  ++ match geometryOf h !! uid a with
                     | Some g => [g]
                     | None => []
                     end
               /\ disposedMaterials hg = disposedMaterials h
               /\ disposedTextures hg = disposedTextures h).
  { subst hg. destruct (geometryOf h !! uid a) as [g|].
    - unfold disposeGeometry. cbn [snd]. repeat split.
    - cbn [ret snd]. rewrite app_nil_r. repeat split. }
  destruct Hg as (Go & Gm & Gg & Gd & Gt).
  destruct (match geometryOf h !! uid a with
            | Some g => disposeGeometry g
            | None => ret tt
            end h) as [[] hg'] eqn:Eg.
  subst hg. cbn [snd] in *. rewrite Gm.
  destruct (materialOf h !! uid a) as [slot|].
  2:{ cbn [ret snd]. rewrite !app_nil_r.
      split; [exact Go|]. split; [exact Gm|]. split; [exact Gg|].
      split; [exact Gd | exact Gt]. }
  destruct (disposeMaterials_spec (slotMaterials slot) hg')
    as (Do & Dm & Dg & Dd & Dt).
  destruct (forEachM disposeMaterial (slotMaterials slot) hg') as [[] hd].
  cbn [snd] in *.
  unfold setMaterial, modify, withMaterialOf. cbn [snd].
  split.
  { destruct Go as (A1 & A2 & A3 & A4 & A5 & A6).
    destruct Do as (B1 & B2 & B3 & B4 & B5 & B6).
    repeat split; cbn; congruence. }
  cbn. split; [congruence|]. split; [congruence|]. split; [congruence|].
  rewrite Dt, Gt. f_equal. apply flat_map_ext. intros x.
  apply texturesOf_same. destruct Go as (_ & _ & Hm & _). exact Hm.
Qed.

Lemma flat_map_ext_elem {A B} (f g : A -> list B) (l : list A) :
  (forall x, x ∈ l -> f x = g x) -> flat_map f l = flat_map g l.
Proof.
  induction l as [|a l IH]; intros Hfg; [reflexivity|].
  cbn [flat_map]. rewrite (Hfg a) by left. rewrite IH; [reflexivity|].
  intros x Hx. apply Hfg. right. exact Hx.
Qed.

Lemma geometriesOfMesh_same h h' c :
  geometryOf h' = geometryOf h -> geometriesOfMesh h' c = geometriesOfMesh h c.
Proof. unfold geometriesOfMesh. intros ->. reflexivity. Qed.

(** The slots and the geometry log after the callback ran on a list of
    nodes, whatever the list. *)
Lemma disposeAll_slots l : forall h,
  let h' := snd (forEachM disposeOne l h) in
  let meshes := filter (fun c => isMesh c = true) l in
  sameObjects h h'
  /\ (forall u, u ∉ map uid meshes -> materialOf h' !! u = materialOf h !! u)
  /\ (forall u, u ∈ map uid meshes ->
        materialOf h' !! u = (fun _ => Multi []) <$> (materialOf h !! u))
  /\ disposedGeometries h' =
     disposedGeometries h ++ flat_map (geometriesOfMesh h) meshes.
Proof.
  induction l as [|a l IH]; intros h h' meshes; subst h' meshes.
  - simpl. rewrite app_nil_r. split; [apply sameObjects_refl|].
    split; [reflexivity|]. split; [|reflexivity].
    intros u Hu. apply elem_of_nil in Hu. destruct Hu.
  - rewrite forEachM_cons.
    destruct (disposeOne_spec a h) as (So & Sm & Sg & _).
    set (h1 := snd (disposeOne a h)) in *.
    destruct (IH h1) as (Io & If & Iin & Ig).
    set (h2 := snd (forEachM disposeOne l h1)) in *.
    assert (Hgeo : flat_map (geometriesOfMesh h1)
                     (filter (fun c => isMesh c = true) l)
                   = flat_map (geometriesOfMesh h)
                       (filter (fun c => isMesh c = true) l)).
    { apply flat_map_ext. intros x. apply geometriesOfMesh_same.
      destruct So as (Hg & _). exact Hg. }
    split; [exact (sameObjects_trans _ _ _ So Io)|].
    destruct (isMesh a) eqn:Him.
    + rewrite filter_cons_True by exact Him. cbn [map flat_map].
      assert (Hat : materialOf h1 !! uid a
                    = (fun _ => Multi []) <$> (materialOf h !! uid a)).
      { rewrite Sm. destruct (materialOf h !! uid a) eqn:E; cbn;
          [apply lookup_insert_eq | exact E]. }
      assert (Hother : forall u, u <> uid a ->
                materialOf h1 !! u = materialOf h !! u).
      { intros u Hne. rewrite Sm. destruct (materialOf h !! uid a);
          [apply lookup_insert_ne; congruence | reflexivity]. }
      split; [|split].
      * intros u Hu. apply not_elem_of_cons in Hu as [Hne Hu].
        rewrite (If u Hu). apply Hother, Hne.
      * intros u Hu.
        destruct (decide (u ∈ map uid (filter (fun c => isMesh c = true) l)))
          as [Hin|Hnot].
        -- rewrite (Iin u Hin). destruct (decide (u = uid a)) as [->|Hne].
           ++ rewrite Hat. destruct (materialOf h !! uid a); reflexivity.
           ++ rewrite (Hother u Hne). reflexivity.
        -- apply elem_of_cons in Hu as [->|Hu]; [|contradiction].
           rewrite (If _ Hnot). exact Hat.
      * rewrite Ig, Sg, Hgeo, <- app_assoc. reflexivity.
    + rewrite filter_cons_False by (rewrite Him; discriminate).
      rewrite app_nil_r in Sg.
      split; [|split].
      * intros u Hu. rewrite (If u Hu), Sm. reflexivity.
      * intros u Hu. rewrite (Iin u Hu), Sm. reflexivity.
      * rewrite Ig, Sg, Hgeo. reflexivity.
Qed.

Lemma materialsOfMesh_same h h' c :
  materialOf h' !! uid c = materialOf h !! uid c ->
  materialsOfMesh h' c = materialsOfMesh h c.
Proof. unfold materialsOfMesh. intros ->. reflexivity. Qed.

(** The material and texture logs, when the meshes are distinct objects. *)
Lemma disposeAll_log l : forall h,
  NoDup (map uid (filter (fun c => isMesh c = true) l)) ->
  let h' := snd (forEachM disposeOne l h) in
  let meshes := filter (fun c => isMesh c = true) l in
  disposedMaterials h' =
  disposedMaterials h ++ flat_map (materialsOfMesh h) meshes
  /\ disposedTextures h' =
     disposedTextures h
     ++ flat_map (texturesOf h) (flat_map (materialsOfMesh h) meshes).
Proof.
  induction l as [|a l IH]; intros h Hnd h' meshes; subst h' meshes.
  - simpl. rewrite !app_nil_r. split; reflexivity.
  - rewrite forEachM_cons.
    destruct (disposeOne_spec a h) as (So & Sm & _ & Sd & St).
    set (h1 := snd (disposeOne a h)) in *.
    assert (Htex : forall rs, flat_map (texturesOf h1) rs
                              = flat_map (texturesOf h) rs).
    { intros rs. apply flat_map_ext. intros x. apply texturesOf_same.
      destruct So as (_ & _ & Hm & _). exact Hm. }
    destruct (isMesh a) eqn:Him.
    + rewrite filter_cons_True in * by exact Him. cbn [map flat_map] in *.
      apply NoDup_cons in Hnd as [Hnotin Hnd].
      destruct (IH h1 Hnd) as (Id & It).
      assert (Hsame : flat_map (materialsOfMesh h1)
                        (filter (fun c => isMesh c = true) l)
                      = flat_map (materialsOfMesh h)
                          (filter (fun c => isMesh c = true) l)).
      { apply flat_map_ext_elem. intros x Hx. apply materialsOfMesh_same.
        assert (Hne : uid x <> uid a).
        { intros Heq. apply Hnotin. rewrite <- Heq.
          apply list_elem_of_fmap_2, Hx. }
        rewrite Sm. destruct (materialOf h !! uid a);
          [apply lookup_insert_ne; congruence | reflexivity]. }
      split.
      * rewrite Id, Sd, Hsame, <- app_assoc. reflexivity.
      * rewrite It, St, Htex, Hsame, flat_map_app, <- app_assoc. reflexivity.
    + rewrite filter_cons_False in * by (rewrite Him; discriminate).
      rewrite app_nil_r in Sd, St.
      destruct (IH h1 Hnd) as (Id & It).
      assert (Hsame : flat_map (materialsOfMesh h1)
                        (filter (fun c => isMesh c = true) l)
                      = flat_map (materialsOfMesh h)
                          (filter (fun c => isMesh c = true) l)).
      { apply flat_map_ext. intros x. apply materialsOfMesh_same.
        rewrite Sm. reflexivity. }
      split.
      * rewrite Id, Sd, Hsame. reflexivity.
      * rewrite It, St, Htex, Hsame. reflexivity.
Qed.

(** X7 (what disposal does).  For an object whose meshes are distinct
    objects, [disposeObject] disposes, in traversal order, the geometry of
    every mesh below the object, each material that the mesh references and
    the textures of those materials; every mesh that had a material ends
    with the empty material array; the slots of all other objects, and all
    geometries, positions and material contents, are left as they were. *)
Theorem disposeObject_spec (obj : Object3D) (h : Heap) :
  NoDup (map uid (meshesOf obj)) ->
  let h' := snd (disposeObject obj h) in
  sameObjects h h'
  /\ (forall c, c ∈ meshesOf obj ->
        materialOf h' !! uid c = (fun _ => Multi []) <$> (materialOf h !! uid c))
  /\ (forall u, u ∉ map uid (meshesOf obj) ->
        materialOf h' !! u = materialOf h !! u)
  /\ disposedGeometries h' =
     disposedGeometries h ++ flat_map (geometriesOfMesh h) (meshesOf obj)
  /\ disposedMaterials h' =
     disposedMaterials h ++ flat_map (materialsOfMesh h) (meshesOf obj)
  /\ disposedTextures h' =
     disposedTextures h
     ++ flat_map (texturesOf h) (flat_map (materialsOfMesh h) (meshesOf obj)).
Proof.
  intros Hnd h'. subst h'. unfold disposeObject.
  destruct (disposeAll_slots (traverse obj) h) as (So & Sf & Sin & Sg).
  destruct (disposeAll_log (traverse obj) h Hnd) as (Sd & St).
  fold (meshesOf obj) in *.
  split; [exact So|]. split.
  { intros c Hc. apply Sin. apply list_elem_of_fmap_2, Hc. }
  split; [exact Sf|]. split; [exact Sg|]. split; [exact Sd | exact St].
Qed.

Lemma disposeObject_spec_witness :
  disposedMaterials (snd (disposeObject assembly assemblyHeap)) = [0; 0; 1]
  /\ disposedTextures (snd (disposeObject assembly assemblyHeap)) = [7; 7]
  /\ materialOf (snd (disposeObject assembly assemblyHeap)) !! uid bolt
     = Some (Multi []).
Proof.
  assert (Hnd : NoDup (map uid (meshesOf assembly))).
  { apply (bool_decide_unpack _). vm_compute. exact I. }
  destruct (disposeObject_spec assembly assemblyHeap Hnd)
    as (_ & Hin & _ & _ & Hd & Ht).
  split; [exact Hd|]. split; [exact Ht|].
  apply (Hin bolt). vm_compute. right. left.
Defined.

(** After the callback ran on a list of nodes none of whose meshes holds a
    material, running it again disposes no material. *)
Lemma disposeAll_again l : forall h,
  (forall c, c ∈ l -> isMesh c = true -> materialsOfMesh h c = []
                                         /\ (materialOf h !! uid c = None
                                             \/ materialOf h !! uid c = Some (Multi []))) ->
  let h' := snd (forEachM disposeOne l h) in
  materialOf h' = materialOf h
  /\ disposedMaterials h' = disposedMaterials h
  /\ disposedTextures h' = disposedTextures h.
Proof.
  induction l as [|a l IH]; intros h Hall h'; subst h'.
  - simpl. auto.
  - rewrite forEachM_cons.
    destruct (disposeOne_spec a h) as (So & Sm & _ & Sd & St).
    set (h1 := snd (disposeOne a h)) in *.
    assert (H1 : materialOf h1 = materialOf h
                 /\ disposedMaterials h1 = disposedMaterials h
                 /\ disposedTextures h1 = disposedTextures h).
    { destruct (isMesh a) eqn:Him.
      - destruct (Hall a) as (Hnone & Hslot); [left | exact Him |].
        rewrite Hnone in Sd, St. cbn [flat_map] in St.
        rewrite app_nil_r in Sd, St. split; [|split; assumption].
        rewrite Sm. destruct Hslot as [-> | Hs]; [reflexivity|].
        rewrite Hs. apply insert_id, Hs.
      - rewrite app_nil_r in Sd, St. auto. }
    destruct H1 as (Hm1 & Hd1 & Ht1).
    destruct (IH h1) as (Im & Id & It).
    { intros c Hc Him. destruct (Hall c) as (Hn & Hs); [right; exact Hc | exact Him |].
      unfold materialsOfMesh in *. rewrite Hm1. auto. }
    split; [congruence|]. split; congruence.
Qed.

(** X8 (disposing twice).  A second [disposeObject] of the same object
    disposes no material and no texture again, and changes no material
    slot; but it disposes the geometry of every mesh a second time, since
    the first call leaves the geometry references in place. *)
Theorem disposeObject_twice (obj : Object3D) (h : Heap) :
  let h1 := snd (disposeObject obj h) in
  let h2 := snd (disposeObject obj h1) in
  materialOf h2 = materialOf h1
  /\ disposedMaterials h2 = disposedMaterials h1
  /\ disposedTextures h2 = disposedTextures h1
  /\ disposedGeometries h1 =
     disposedGeometries h ++ flat_map (geometriesOfMesh h) (meshesOf obj)
  /\ disposedGeometries h2 =
     disposedGeometries h1 ++ flat_map (geometriesOfMesh h) (meshesOf obj).
Proof.
  intros h1 h2. subst h1 h2. unfold disposeObject.
  destruct (disposeAll_slots (traverse obj) h) as (So & Sf & Sin & Sg).
  set (h1 := snd (forEachM disposeOne (traverse obj) h)) in *.
  destruct (disposeAll_slots (traverse obj) h1) as (_ & _ & _ & Sg2).
  destruct (disposeAll_again (traverse obj) h1) as (Am & Ad & At).
  { intros c Hc Him.
    assert (Hu : uid c ∈ map uid (filter (fun c => isMesh c = true) (traverse obj))).
    { apply list_elem_of_fmap_2, list_elem_of_filter. auto. }
    specialize (Sin _ Hu). unfold materialsOfMesh. rewrite Sin.
    destruct (materialOf h !! uid c); cbn; auto. }
  fold (meshesOf obj) in *.
  split; [exact Am|]. split; [exact Ad|]. split; [exact At|].
  split; [exact Sg|]. rewrite Sg2. f_equal.
  apply flat_map_ext. intros x. apply geometriesOfMesh_same.
  destruct So as (Hg & _). exact Hg.
Qed.

End DisposalFacts.
(* ------------------------------------------------------------------ *)
(** *** Facts about deep clones and extracted parts *)

Module CloneFacts.
Import Names Numbers Scene Properties Notions Samples.
Import SnapshotFacts HeapFacts DisposalFacts PartsFacts.
Local Open Scope list_scope.

#[local] Arguments normalizeModelSizeAndPosition : simpl never.
#[local] Arguments cloneSlot : simpl never.
#[local] Arguments cloneObject : simpl never.
#[local] Arguments copyFields : simpl never.

(** **** The hierarchy *)

Lemma Object3D_nodes (P : Object3D -> Prop) :
  (forall u n m cs, Forall P cs -> P (mkObject3D u n m cs)) ->
  forall o, P o.
Proof.
  intros H. fix IH 1. intros [u n m cs]. apply H.
  induction cs as [|c cs IHcs]; constructor; [apply IH | exact IHcs].
Qed.

Lemma traverse_eq o : traverse o = o :: flat_map traverse (children o).
Proof. destruct o as [u n m cs]. reflexivity. Qed.

Lemma cloneObject_eq o h :
  cloneObject o h =
  let (cs, h2) := cloneChildren (children o)
                    (copyFields (uid o) (nextObject h) h) in
  (mkObject3D (nextObject h) (name o) (isMesh o) cs, h2).
Proof. destruct o as [u n m cs]. reflexivity. Qed.

(** **** [object.clone(true)] *)

Lemma put_lookup {V} (m : gmap nat V) (src dst u : nat) :
  (match m !! src with
   | Some v => <[dst := v]> m
   | None => delete dst m
   end) !! u = if decide (u = dst) then m !! src else m !! u.
Proof.
  destruct (decide (u = dst)) as [->|Hne].
  - destruct (m !! src) eqn:E; [apply lookup_insert_eq | apply lookup_delete_eq].
  - destruct (m !! src);
      [apply lookup_insert_ne | apply lookup_delete_ne]; congruence.
Qed.

Lemma copyFields_spec src dst h :
  let h' := copyFields src dst h in
  nextObject h' = S dst
  /\ (forall u, materialOf h' !! u
                = if decide (u = dst) then materialOf h !! src else materialOf h !! u)
  /\ (forall u, geometryOf h' !! u
                = if decide (u = dst) then geometryOf h !! src else geometryOf h !! u)
  /\ (forall u, positionOf h' !! u
                = if decide (u = dst) then positionOf h !! src else positionOf h !! u)
  /\ materials h' = materials h
  /\ nextMaterial h' = nextMaterial h
  /\ nextGeometry h' = nextGeometry h
  /\ sameDisposals h h'.
Proof.
  unfold copyFields. cbn.
  split; [reflexivity|]. split; [intros u; apply put_lookup|].
  split; [intros u; apply put_lookup|]. split; [intros u; apply put_lookup|].
  repeat split.
Qed.

Lemma clonedFrom_compose h ts1 h1 ts2 h2 :
  clonedFrom h ts1 h1 -> clonedFrom h1 ts2 h2 -> clonedFrom h (ts1 ++ ts2) h2.
Proof.
  intros (A1 & A2 & A3 & A4 & A5 & A6 & A7 & A8 & A9)
         (B1 & B2 & B3 & B4 & B5 & B6 & B7 & B8 & B9).
  split; [lia|]. split; [|split].
  - intros u Hu. destruct (A2 u Hu) as (Am & Ag & Ap).
    destruct (B2 u) as (Bm & Bg & Bp); [lia|].
    split; [congruence|]. split; congruence.
  - apply Forall_app. split.
    + eapply Forall_impl; [exact A3|]. cbn. intros c Hc. lia.
    + eapply Forall_impl; [exact B3|]. cbn. intros c Hc. lia.
  - split; [congruence|]. split; [congruence|]. split; [congruence|].
    repeat split; congruence.
Qed.

Lemma clonedFrom_refl h : clonedFrom h [] h.
Proof.
  split; [lia|]. split; [intros u _; auto|]. split; [constructor|].
  repeat split.
Qed.

Lemma cloneChildren_frame l :
  Forall (fun c => forall h,
            clonedFrom h (traverse (fst (cloneObject c h))) (snd (cloneObject c h))) l ->
  forall h,
    clonedFrom h (flat_map traverse (fst (cloneChildren l h)))
               (snd (cloneChildren l h)).
Proof.
  induction l as [|c r IH]; intros Hall h.
  - apply clonedFrom_refl.
  - apply Forall_cons in Hall as [Hc Hr]. cbn [cloneChildren].
    specialize (Hc h). destruct (cloneObject c h) as [c' h1]. cbn [fst snd] in Hc.
    specialize (IH Hr h1). destruct (cloneChildren r h1) as [r' h2].
    cbn [fst snd flat_map] in *. eapply clonedFrom_compose; eassumption.
Qed.

(** A deep clone allocates new objects only: the clone and its descendants
    get the identities from [nextObject] on, and the objects that existed
    keep their material slot, geometry and position. *)
Lemma cloneObject_frame o : forall h,
  clonedFrom h (traverse (fst (cloneObject o h))) (snd (cloneObject o h)).
Proof.
  induction o as [u n m cs IH] using Object3D_nodes. intros h.
  rewrite cloneObject_eq. cbn [uid name isMesh children].
  destruct (copyFields_spec u (nextObject h) h)
    as (Hn & Hm & Hg & Hp & Hmat & Hnm & Hng & Hd).
  set (h1 := copyFields u (nextObject h) h) in *.
  pose proof (cloneChildren_frame cs IH h1) as Hcs.
  destruct (cloneChildren cs h1) as [cs' h2]. cbn [fst snd] in *.
  rewrite traverse_eq. cbn [children].
  change (mkObject3D (nextObject h) n m cs' :: flat_map traverse cs')
    with ([mkObject3D (nextObject h) n m cs'] ++ flat_map traverse cs').
  eapply clonedFrom_compose; [|exact Hcs].
  split; [lia|]. split; [|split].
  - intros u0 Hu0. rewrite Hm, Hg, Hp.
    destruct (decide (u0 = nextObject h)); [lia | auto].
  - constructor; [cbn; lia | constructor].
  - split; [exact Hmat|]. split; [exact Hnm|]. split; [exact Hng | exact Hd].
Qed.

Lemma cloneObject_grows o h : nextObject h < nextObject (snd (cloneObject o h)).
Proof.
  destruct (cloneObject_frame o h) as (_ & _ & Hr & _).
  rewrite traverse_eq in Hr. apply Forall_cons in Hr as [Hr _].
  lia.
Qed.

(** **** Cloning the geometry and the materials of the clone *)

(** The heap after the geometry of a mesh was cloned. *)
Lemma cloneGeometryOf_spec c h :
  let hg := snd (bind (getGeometry c)
                   (fun g => match g with
                             | Some g => bind (cloneGeometry g)
                                              (fun g' => setGeometry c g')
                             | None => ret tt
                             end) h) in
  materialOf hg = materialOf h /\ materials hg = materials h
  /\ nextMaterial hg = nextMaterial h /\ nextObject hg = nextObject h
  /\ positionOf hg = positionOf h /\ sameDisposals h hg
  /\ nextGeometry h <= nextGeometry hg
  /\ (forall u, u <> uid c -> geometryOf hg !! u = geometryOf h !! u)
  /\ geometryKeptOrOwned (nextGeometry h) h hg (uid c)
  /\ ownsGeometry (nextGeometry h) hg c.
Proof.
  unfold bind, getGeometry, ownsGeometry, geometriesOfMesh, geometryKeptOrOwned.
  destruct (geometryOf h !! uid c) as [g|] eqn:Eg.
  - unfold cloneGeometry, setGeometry, modify, withGeometryOf. cbn.
    rewrite lookup_insert_eq.
    repeat split; try reflexivity; try lia.
    + intros u Hne. apply lookup_insert_ne. congruence.
    + right. exists (nextGeometry h). split; [reflexivity | lia].
    + apply list_elem_of_singleton in H. lia.
    + apply list_elem_of_singleton in H. lia.
  - cbn. rewrite Eg.
    repeat split; try reflexivity; try lia.
    + left. reflexivity.
    + apply elem_of_nil in H. destruct H.
    + apply elem_of_nil in H. destruct H.
Qed.

(** The heap after the material of a mesh was cloned. *)
Lemma cloneMaterialOf_spec c h :
  let hm := snd (bind (getMaterial c)
                   (fun material => match material with
                                    | Some slot => bind (cloneSlot slot)
                                                     (fun slot' => setMaterial c slot')
                                    | None => ret tt
                                    end) h) in
  geometryOf hm = geometryOf h /\ nextGeometry hm = nextGeometry h
  /\ nextObject hm = nextObject h /\ positionOf hm = positionOf h
  /\ sameDisposals h hm /\ extends h hm
  /\ (forall u, u <> uid c -> materialOf hm !! u = materialOf h !! u)
  /\ slotKeptOrOwned (nextMaterial h) h hm (uid c)
  /\ ownsMaterials (nextMaterial h) hm c.
Proof.
  unfold bind, getMaterial, ownsMaterials, materialsOfMesh, slotKeptOrOwned.
  destruct (materialOf h !! uid c) as [slot|] eqn:Es.
  - destruct (cloneSlot_frame slot h)
      as ((Sm & Sg & Sp & Sd1 & Sd2 & Sd3 & So & Sng) & He & Hf).
    destruct (cloneSlot slot h) as [slot' ha]. cbn [fst snd] in *.
    unfold setMaterial, modify, withMaterialOf. cbn.
    rewrite lookup_insert_eq.
    split; [exact Sg|]. split; [exact Sng|]. split; [exact So|].
    split; [exact Sp|]. split; [repeat split; assumption|].
    split; [exact He|]. split; [|split].
    + intros u Hne. rewrite lookup_insert_ne by congruence. rewrite Sm.
      reflexivity.
    + right. exists slot'. split; [reflexivity | exact Hf].
    + intros r Hr. apply (Hf r Hr).
  - cbn. rewrite Es.
    repeat split; try reflexivity; try lia.
    + left. reflexivity.
    + apply elem_of_nil in H. destruct H.
    + apply elem_of_nil in H. destruct H.
Qed.

Lemma bind_then {A B} (m : M A) (k : A -> M unit) (n : M B) h :
  snd (bind m (fun a => bind (k a) (fun _ => n)) h)
  = snd (n (snd (bind m k h))).
Proof.
  unfold bind. destruct (m h) as [a h1]. destruct (k a h1) as [[] h2].
  reflexivity.
Qed.

Lemma cloneMeshData_run c h :
  snd (cloneMeshData c h) =
  if isMesh c then
    snd (bind (getMaterial c)
           (fun material => match material with
                            | Some slot => bind (cloneSlot slot)
                                             (fun slot' => setMaterial c slot')
                            | None => ret tt
                            end)
           (snd (bind (getGeometry c)
                   (fun g => match g with
                             | Some g => bind (cloneGeometry g)
                                              (fun g' => setGeometry c g')
                             | None => ret tt
                             end) h)))
  else h.
Proof.
  unfold cloneMeshData. destruct (isMesh c); [|reflexivity].
  apply bind_then.
Qed.

Lemma slotFresh_mono lo lo' hi hi' s :
  lo' <= lo -> hi <= hi' -> slotFresh lo hi s -> slotFresh lo' hi' s.
Proof. intros Hlo Hhi Hs r Hr. specialize (Hs r Hr). lia. Qed.

Lemma slotKeptOrOwned_trans lo lo1 h h1 h2 u :
  lo <= lo1 -> nextMaterial h1 <= nextMaterial h2 ->
  slotKeptOrOwned lo h h1 u -> slotKeptOrOwned lo1 h1 h2 u ->
  slotKeptOrOwned lo h h2 u.
Proof.
  intros Hlo Hhi [Ha|(s & Hs & Hf)] [Hb|(s' & Hs' & Hf')].
  - left. congruence.
  - right. exists s'. split; [exact Hs'|].
    eapply slotFresh_mono; [exact Hlo | reflexivity | exact Hf'].
  - right. exists s. split; [congruence|].
    eapply slotFresh_mono; [reflexivity | exact Hhi | exact Hf].
  - right. exists s'. split; [exact Hs'|].
    eapply slotFresh_mono; [exact Hlo | reflexivity | exact Hf'].
Qed.

Lemma geometryKeptOrOwned_trans lo lo1 h h1 h2 u :
  lo <= lo1 -> nextGeometry h1 <= nextGeometry h2 ->
  geometryKeptOrOwned lo h h1 u -> geometryKeptOrOwned lo1 h1 h2 u ->
  geometryKeptOrOwned lo h h2 u.
Proof.
  intros Hlo Hhi [Ha|(g & Hg & Hf)] [Hb|(g' & Hg' & Hf')].
  - left. congruence.
  - right. exists g'. split; [exact Hg' | lia].
  - right. exists g. split; [congruence | lia].
  - right. exists g'. split; [exact Hg' | lia].
Qed.

(** The callback of the inner traversal of [extractPartByName] on one
    node. *)
Lemma cloneMeshData_spec c h :
  let h' := snd (cloneMeshData c h) in
  extends h h' /\ nextObject h' = nextObject h /\ positionOf h' = positionOf h
  /\ sameDisposals h h' /\ nextGeometry h <= nextGeometry h'
  /\ (forall u, u <> uid c ->
        materialOf h' !! u = materialOf h !! u
        /\ geometryOf h' !! u = geometryOf h !! u)
  /\ (forall u, slotKeptOrOwned (nextMaterial h) h h' u
                /\ geometryKeptOrOwned (nextGeometry h) h h' u)
  /\ (isMesh c = true ->
      ownsMaterials (nextMaterial h) h' c /\ ownsGeometry (nextGeometry h) h' c).
Proof.
  cbv zeta. rewrite cloneMeshData_run. destruct (isMesh c).
  2:{ split; [apply extends_refl|]. repeat split; try reflexivity; try lia;
        try discriminate; left; reflexivity. }
  destruct (cloneGeometryOf_spec c h)
    as (Gm & Gmat & Gnm & Gno & Gp & (Gd1 & Gd2 & Gd3) & Gng & Gf & Gk & Go).
  set (hg := snd (bind (getGeometry c) _ h)) in *.
  destruct (cloneMaterialOf_spec c hg)
    as (Mg & Mng & Mno & Mp & (Md1 & Md2 & Md3) & Me & Mf & Mk & Mo).
  set (hm := snd (bind (getMaterial c) _ hg)) in *.
  assert (Heg : extends h hg).
  { split; [lia|]. intros r _. rewrite Gmat. reflexivity. }
  split; [eapply extends_trans; eassumption|].
  split; [congruence|]. split; [congruence|].
  split; [repeat split; congruence|]. split; [lia|].
  split; [|split].
  - intros u Hne. split.
    + rewrite (Mf u Hne), Gm. reflexivity.
    + rewrite Mg. apply Gf, Hne.
  - intros u. split.
    + destruct (decide (u = uid c)) as [->|Hne].
      * destruct Mk as [Hsame|(s & Hs & Hf)].
        -- left. rewrite Hsame, Gm. reflexivity.
        -- right. exists s. split; [exact Hs|]. rewrite <- Gnm. exact Hf.
      * left. rewrite (Mf u Hne), Gm. reflexivity.
    + destruct (decide (u = uid c)) as [->|Hne].
      * destruct Gk as [Hsame|(g & Hg & Hf)].
        -- left. rewrite Mg. exact Hsame.
        -- right. exists g. rewrite Mg, Mng. auto.
      * left. rewrite Mg. apply Gf, Hne.
  - intros _. split.
    + intros r Hr. specialize (Mo r Hr). lia.
    + intros g Hg. unfold ownsGeometry, geometriesOfMesh in *.
      rewrite Mg in Hg. specialize (Go g Hg). lia.
Qed.

Lemma materialsOfMesh_kept lo lo1 h h' c :
  lo <= lo1 -> nextMaterial h <= nextMaterial h' ->
  ownsMaterials lo h c -> slotKeptOrOwned lo1 h h' (uid c) ->
  ownsMaterials lo h' c.
Proof.
  intros Hlo Hhi Hown [Hsame|(s & Hs & Hf)] r Hr; unfold materialsOfMesh in *.
  - rewrite Hsame in Hr. specialize (Hown r Hr). lia.
  - rewrite Hs in Hr. specialize (Hf r Hr). lia.
Qed.

Lemma geometriesOfMesh_kept lo lo1 h h' c :
  lo <= lo1 -> nextGeometry h <= nextGeometry h' ->
  ownsGeometry lo h c -> geometryKeptOrOwned lo1 h h' (uid c) ->
  ownsGeometry lo h' c.
Proof.
  intros Hlo Hhi Hown [Hsame|(g0 & Hg0 & Hf)] g Hg; unfold geometriesOfMesh in *.
  - rewrite Hsame in Hg. specialize (Hown g Hg). lia.
  - rewrite Hg0 in Hg. apply list_elem_of_singleton in Hg. subst g. lia.
Qed.

(** The inner traversal: afterwards every mesh of the list owns its
    materials and its geometry. *)
Lemma cloneMeshData_all l : forall h,
  let h' := snd (forEachM cloneMeshData l h) in
  extends h h' /\ nextObject h' = nextObject h /\ positionOf h' = positionOf h
  /\ sameDisposals h h' /\ nextGeometry h <= nextGeometry h'
  /\ (forall u, u ∉ map uid l ->
        materialOf h' !! u = materialOf h !! u
        /\ geometryOf h' !! u = geometryOf h !! u)
  /\ (forall u, slotKeptOrOwned (nextMaterial h) h h' u
                /\ geometryKeptOrOwned (nextGeometry h) h h' u)
  /\ (forall c, c ∈ l -> isMesh c = true ->
        ownsMaterials (nextMaterial h) h' c /\ ownsGeometry (nextGeometry h) h' c).
Proof.
  induction l as [|a l IH]; intros h h'; subst h'.
  - simpl. split; [apply extends_refl|].
    split; [reflexivity|]. split; [reflexivity|]. split; [repeat split|].
    split; [lia|]. split; [auto|]. split.
    + intros u. split; left; reflexivity.
    + intros c Hc. apply elem_of_nil in Hc. destruct Hc.
  - rewrite forEachM_cons.
    destruct (cloneMeshData_spec a h)
      as (Ae & Ano & Ap & (Ad1 & Ad2 & Ad3) & Ang & Af & Ak & Ao).
    set (h1 := snd (cloneMeshData a h)) in *.
    destruct (IH h1) as (Ie & Ino & Ip & (Id1 & Id2 & Id3) & Ing & If & Ik & Io).
    set (h2 := snd (forEachM cloneMeshData l h1)) in *.
    assert (Hm1 : nextMaterial h <= nextMaterial h1) by apply Ae.
    assert (Hm2 : nextMaterial h1 <= nextMaterial h2) by apply Ie.
    split; [eapply extends_trans; eassumption|].
    split; [congruence|]. split; [congruence|].
    split; [repeat split; congruence|]. split; [lia|].
    split; [|split].
    + intros u Hu. cbn [map] in Hu. apply not_elem_of_cons in Hu as [Hne Hu].
      destruct (If u Hu) as [Im Ig]. destruct (Af u Hne) as [Am Ag].
      split; congruence.
    + intros u. destruct (Ak u) as [Akm Akg]. destruct (Ik u) as [Ikm Ikg].
      split.
      * eapply slotKeptOrOwned_trans; [exact Hm1 | exact Hm2 | exact Akm | exact Ikm].
      * eapply geometryKeptOrOwned_trans; [exact Ang | exact Ing | exact Akg | exact Ikg].
    + intros c Hc Him. apply elem_of_cons in Hc as [->|Hc].
      * destruct (Ao Him) as [Aom Aog]. destruct (Ik (uid a)) as [Ikm Ikg].
        split.
        -- eapply materialsOfMesh_kept; [exact Hm1 | exact Hm2 | exact Aom | exact Ikm].
        -- eapply geometriesOfMesh_kept; [exact Ang | exact Ing | exact Aog | exact Ikg].
      * destruct (Io c Hc Him) as [Iom Iog]. split.
        -- intros r Hr. specialize (Iom r Hr). lia.
        -- intros g Hg. specialize (Iog g Hg). lia.
Qed.

(** **** Extraction *)

Lemma extractStep_run cleanedTarget acc child h :
  extractStep cleanedTarget acc child h =
  if isEmpty (name child) then (acc, h)
  else if String.eqb (cleanNodeName (name child)) cleanedTarget then
    (Some (fst (cloneObject child h)),
     snd (forEachM cloneMeshData (traverse (fst (cloneObject child h)))
            (snd (cloneObject child h))))
  else (acc, h).
Proof.
  unfold extractStep. destruct (isEmpty (name child)); [reflexivity|].
  destruct (String.eqb _ _); [|reflexivity].
  unfold bind. destruct (cloneObject child h) as [t h1]. cbn [fst snd].
  destruct (forEachM cloneMeshData (traverse t) h1) as [[] h2]. reflexivity.
Qed.

Lemma extractionState_init h0 : extractionState h0 None h0.
Proof.
  split; [lia|]. split; [intros u _; auto|]. split; [apply extends_refl|].
  split; [lia|]. split; [repeat split|]. intros t Ht. discriminate Ht.
Qed.

Lemma extractStep_state h0 cleanedTarget acc child h :
  extractionState h0 acc h ->
  extractionState h0 (fst (extractStep cleanedTarget acc child h))
                  (snd (extractStep cleanedTarget acc child h)).
Proof.
  intros Hst. rewrite extractStep_run.
  destruct (isEmpty (name child)); [exact Hst|].
  destruct (String.eqb _ _); [|exact Hst]. cbn [fst snd].
  destruct Hst as (Hno & Hun & Hext & Hng & (Hd1 & Hd2 & Hd3) & _).
  destruct (cloneObject_frame child h)
    as (Cno & Cun & Cr & Cmat & Cnm & Cng & (Cd1 & Cd2 & Cd3)).
  set (t := fst (cloneObject child h)) in *.
  set (h1 := snd (cloneObject child h)) in *.
  destruct (cloneMeshData_all (traverse t) h1)
    as (Me & Mno & Mp & (Md1 & Md2 & Md3) & Mng & Mf & _ & Mo).
  set (h2 := snd (forEachM cloneMeshData (traverse t) h1)) in *.
  assert (He1 : extends h h1).
  { split; [lia|]. intros r _. rewrite Cmat. reflexivity. }
  split; [lia|]. split; [|split; [|split; [|split]]].
  - intros u Hu. destruct (Hun u Hu) as (Um & Ug & Up).
    destruct (Cun u) as (Vm & Vg & Vp); [lia|].
    destruct (Mf u) as (Wm & Wg).
    { intros Hin. apply list_elem_of_fmap in Hin as (c & -> & Hc).
      rewrite Forall_forall in Cr. specialize (Cr c Hc). cbn in Cr. lia. }
    split; [congruence|]. split; congruence.
  - eapply extends_trans; [exact Hext|]. eapply extends_trans; eassumption.
  - lia.
  - repeat split; congruence.
  - intros t' [= <-]. split.
    + eapply Forall_impl; [exact Cr|]. cbn. intros c Hc. lia.
    + intros c Hc Him. destruct (Mo c Hc Him) as [Om Og].
      assert (nextMaterial h0 <= nextMaterial h1) by (destruct Hext; lia).
      split.
      * intros r Hr. specialize (Om r Hr). lia.
      * intros g Hg. specialize (Og g Hg). lia.
Qed.

Lemma extraction_state h0 cleanedTarget l : forall acc h,
  extractionState h0 acc h ->
  extractionState h0 (fst (foldM (extractStep cleanedTarget) acc l h))
                  (snd (foldM (extractStep cleanedTarget) acc l h)).
Proof.
  induction l as [|a l IH]; intros acc h Hst; [exact Hst|].
  cbn [foldM]. unfold bind.
  pose proof (extractStep_state h0 cleanedTarget acc a h Hst) as Hstep.
  destruct (extractStep cleanedTarget acc a h) as [acc1 h1].
  apply IH, Hstep.
Qed.

(** [normalizeModelSizeAndPosition] writes the position of its argument
    and nothing else. *)
Lemma normalize_frame setFromObject mesh floatingY h :
  onlyPositionOf (uid mesh) h
    (snd (normalizeModelSizeAndPosition setFromObject mesh floatingY h)).
Proof.
  unfold normalizeModelSizeAndPosition, bind, get.
  destruct (negb _ || negb _ || negb _).
  - cbn. repeat split.
  - unfold getPosition, setPosition, modify, withPositionOf. cbn.
    repeat split. intros v Hv. apply lookup_insert_ne. congruence.
Qed.

Lemma extraction_result setFromObject model partName h :
  let res := extractPartByName setFromObject model partName h in
  let mid := foldM (extractStep (trim (toLowerCase partName))) None
               (traverse model) h in
  fst res = fst mid
  /\ match fst mid with
     | Some target => onlyPositionOf (uid target) (snd mid) (snd res)
     | None => snd res = snd mid
     end.
Proof.
  cbv zeta. unfold extractPartByName, bind.
  destruct (foldM _ None (traverse model) h) as [[target|] h1];
    [|split; reflexivity].
  pose proof (normalize_frame setFromObject target (ofZ 0) h1) as Hn.
  destruct (normalizeModelSizeAndPosition setFromObject target (ofZ 0) h1)
    as [[] h2]. cbn [fst snd] in *. split; [reflexivity | exact Hn].
Qed.

(** The state at the end of an extraction. *)
Lemma extraction_final setFromObject model partName h :
  extractionState h (fst (extractPartByName setFromObject model partName h))
                  (snd (extractPartByName setFromObject model partName h)).
Proof.
  destruct (extraction_result setFromObject model partName h) as [Hres Hheap].
  pose proof (extraction_state h (trim (toLowerCase partName)) (traverse model)
                None h (extractionState_init h)) as Hst.
  rewrite Hres.
  destruct (fst (foldM _ None (traverse model) h)) as [target|] eqn:Et;
    [|rewrite Hheap; exact Hst].
  destruct Hst as (Hno & Hun & Hext & Hng & (Hd1 & Hd2 & Hd3) & Hacc).
  destruct Hheap as (Nm & Ng & Nmat & Nno & Nnm & Nng & Nd1 & Nd2 & Nd3 & Np).
  destruct (Hacc target eq_refl) as [Hr Hown].
  split; [lia|]. split; [|split; [|split; [|split]]].
  - intros u Hu. destruct (Hun u Hu) as (Um & Ug & Up).
    rewrite Nm, Ng. split; [exact Um|]. split; [exact Ug|].
    rewrite Np; [exact Up|].
    rewrite (traverse_eq target) in Hr. apply Forall_cons in Hr as [Hr _]. lia.
  - eapply extends_trans; [exact Hext|]. split; [lia|].
    intros r _. rewrite Nmat. reflexivity.
  - lia.
  - repeat split; congruence.
  - intros t [= <-]. split.
    + eapply Forall_impl; [exact Hr|]. cbn. intros c Hc. lia.
    + intros c Hc Him. destruct (Hown c Hc Him) as [Om Og].
      unfold ownsMaterials, ownsGeometry, materialsOfMesh, geometriesOfMesh in *.
      rewrite Nm, Ng, Nnm, Nng. auto.
Qed.

(** X9 (extraction leaves the model as it is).  [extractPartByName]
    changes no object that existed before the call: every such object keeps
    its material slot, its geometry and its position; the materials that
    existed keep their content; and nothing is disposed.  The part
    returned is made of objects allocated by the call. *)
Theorem extraction_leaves_model
    (setFromObject : Heap -> Object3D -> Box3 float)
    (model : Object3D) (partName : string) (h : Heap) :
  let res := extractPartByName setFromObject model partName h in
  untouchedBelow (nextObject h) h (snd res)
  /\ extends h (snd res)
  /\ sameDisposals h (snd res)
  /\ match fst res with
     | Some target =>
         Forall (fun c => nextObject h <= uid c < nextObject (snd res))
                (traverse target)
     | None => True
     end.
Proof.
  cbv zeta.
  destruct (extraction_final setFromObject model partName h)
    as (_ & Hun & Hext & _ & Hd & Hacc).
  split; [exact Hun|]. split; [exact Hext|]. split; [exact Hd|].
  destruct (fst (extractPartByName setFromObject model partName h)) as [t|];
    [|exact I].
  apply (Hacc t eq_refl).
Qed.

(** X10 (the part owns its resources).  Every mesh of the part that
    [extractPartByName] returns references materials and a geometry that
    the call allocated: none of them is a material or a geometry that
    existed before, so none is shared with the model. *)
Theorem extracted_part_owns_resources
    (setFromObject : Heap -> Object3D -> Box3 float)
    (model : Object3D) (partName : string) (h : Heap) (target c : Object3D) :
  fst (extractPartByName setFromObject model partName h) = Some target ->
  c ∈ traverse target -> isMesh c = true ->
  let h' := snd (extractPartByName setFromObject model partName h) in
  ownsMaterials (nextMaterial h) h' c /\ ownsGeometry (nextGeometry h) h' c.
Proof.
  intros Hres Hc Him h'. subst h'.
  destruct (extraction_final setFromObject model partName h)
    as (_ & _ & _ & _ & _ & Hacc).
  destruct (Hacc target Hres) as [_ Hown]. apply Hown; assumption.
Qed.

Lemma extracted_part_owns_resources_witness :
  let h' := snd (extractPartByName unitBox twoBrackets "bracket" twoBracketsHeap) in
  ownsMaterials (nextMaterial twoBracketsHeap) h' (mkObject3D 4 "Bracket-02" true [])
  /\ ownsGeometry (nextGeometry twoBracketsHeap) h' (mkObject3D 4 "Bracket-02" true []).
Proof.
  apply (extracted_part_owns_resources unitBox twoBrackets "bracket"
           twoBracketsHeap (mkObject3D 4 "Bracket-02" true [])).
  - vm_compute. reflexivity.
  - left.
  - reflexivity.
Defined.

(** **** Disposing the model after an extraction *)

Lemma disposeAll_bounded (P : nat -> Prop) l : forall h,
  Forall P (disposedMaterials h) ->
  (forall c, c ∈ l -> isMesh c = true -> Forall P (materialsOfMesh h c)) ->
  Forall P (disposedMaterials (snd (forEachM disposeOne l h))).
Proof.
  induction l as [|a l IH]; intros h Hlog Hall; [exact Hlog|].
  rewrite forEachM_cons.
  destruct (disposeOne_spec a h) as (_ & Sm & _ & Sd & _).
  set (h1 := snd (disposeOne a h)) in *.
  apply IH.
  - rewrite Sd. apply Forall_app. split; [exact Hlog|].
    destruct (isMesh a) eqn:Him; [|constructor].
    apply Hall; [left | exact Him].
  - intros c Hc Him.
    assert (Hc' : Forall P (materialsOfMesh h c)) by (apply Hall; [right|]; assumption).
    unfold materialsOfMesh in *. rewrite Sm.
    destruct (isMesh a); [|exact Hc'].
    destruct (materialOf h !! uid a) as [sa|] eqn:Ea; [|exact Hc'].
    destruct (decide (uid c = uid a)) as [->|Hne].
    + rewrite lookup_insert_eq. constructor.
    + rewrite lookup_insert_ne by congruence. exact Hc'.
Qed.

(** X11 (the part survives the disposal of the model).  On a well-formed
    heap, extract a part from an allocated model and then dispose the model,
    as the part viewer does: every mesh of the part keeps its material slot
    and its geometry, and none of its materials and geometries is among
    those disposed. *)
Theorem part_survives_model_disposal
    (setFromObject : Heap -> Object3D -> Box3 float)
    (model : Object3D) (partName : string) (h : Heap) (target c : Object3D) :
  heapOk h -> geometryOk h -> logsOk h -> allocated h model ->
  fst (extractPartByName setFromObject model partName h) = Some target ->
  c ∈ traverse target -> isMesh c = true ->
  let h1 := snd (extractPartByName setFromObject model partName h) in
  let h2 := snd (disposeObject model h1) in
  materialOf h2 !! uid c = materialOf h1 !! uid c
  /\ geometryOf h2 !! uid c = geometryOf h1 !! uid c
  /\ (forall r, r ∈ materialsOfMesh h2 c -> r ∉ disposedMaterials h2)
  /\ (forall g, g ∈ geometriesOfMesh h2 c -> g ∉ disposedGeometries h2).
Proof.
  intros Hok Hgok [Hlm Hlg] Halloc Hres Hc Him h1 h2.
  destruct (extraction_final setFromObject model partName h)
    as (_ & Hun & Hext & _ & (Hd1 & Hd2 & Hd3) & Hacc).
  fold h1 in Hun, Hext, Hd1, Hd2, Hd3, Hacc.
  destruct (Hacc target Hres) as [Hrange Hown].
  destruct (Hown c Hc Him) as [Hom Hog].
  rewrite Forall_forall in Hrange. specialize (Hrange c Hc). cbn in Hrange.
  subst h2. unfold disposeObject.
  destruct (disposeAll_slots (traverse model) h1) as (So & Sf & _ & Sg).
  pose proof (disposeAll_bounded (fun r => r < nextMaterial h) (traverse model) h1)
    as Hb.
  set (h2 := snd (forEachM disposeOne (traverse model) h1)) in *.
  assert (Hmodel : forall m, m ∈ traverse model -> uid m < nextObject h).
  { intros m Hm. unfold allocated in Halloc. rewrite Forall_forall in Halloc.
    apply Halloc, Hm. }
  assert (Hslot : materialOf h2 !! uid c = materialOf h1 !! uid c).
  { apply Sf. intros Hin. apply list_elem_of_fmap in Hin as (m & Hu & Hm).
    apply list_elem_of_filter in Hm as [_ Hm]. specialize (Hmodel m Hm). lia. }
  assert (Hgeo : geometryOf h2 = geometryOf h1) by apply So.
  split; [exact Hslot|]. split; [rewrite Hgeo; reflexivity|]. split.
  - intros r Hr Hdisposed.
    assert (Hfresh : nextMaterial h <= r).
    { unfold materialsOfMesh in Hr. rewrite Hslot in Hr.
      apply (Hom r Hr). }
    assert (Hold : Forall (fun r => r < nextMaterial h) (disposedMaterials h2)).
    { apply Hb.
      - rewrite Hd2. exact Hlm.
      - intros m Hm _. specialize (Hmodel m Hm).
        destruct (Hun (uid m) Hmodel) as (Um & _).
        unfold materialsOfMesh. rewrite Um.
        destruct (materialOf h !! uid m) as [s|] eqn:Es; [|constructor].
        apply Forall_forall. intros x Hx.
        apply (heapOk_lookup h (uid m) s Hok Es x Hx). }
    rewrite Forall_forall in Hold. specialize (Hold r Hdisposed). lia.
  - intros g Hg Hdisposed.
    assert (Hfresh : nextGeometry h <= g).
    { unfold geometriesOfMesh in Hg. rewrite Hgeo in Hg. apply (Hog g Hg). }
    rewrite Sg, Hd1 in Hdisposed. apply elem_of_app in Hdisposed as [Hin|Hin].
    + rewrite Forall_forall in Hlg. specialize (Hlg g Hin). lia.
    + apply list_elem_of_In, in_flat_map in Hin as (m & Hm & Hgm).
      apply list_elem_of_In, list_elem_of_filter in Hm as [_ Hm].
      specialize (Hmodel m Hm). destruct (Hun (uid m) Hmodel) as (_ & Ug & _).
      unfold geometriesOfMesh in Hgm. rewrite Ug in Hgm.
      destruct (geometryOf h !! uid m) as [g0|] eqn:Eg; [|destruct Hgm].
      destruct Hgm as [<-|[]].
      specialize (Hgok (uid m) g0 Eg). cbn in Hgok. lia.
Qed.

Lemma twoBracketsHeap_ok :
  heapOk twoBracketsHeap /\ geometryOk twoBracketsHeap
  /\ logsOk twoBracketsHeap /\ allocated twoBracketsHeap twoBrackets.
Proof.
  split; [|split; [|split]].
  - unfold heapOk, twoBracketsHeap; cbn [materialOf nextMaterial slotMaterials].
    apply map_Forall_insert_2; [repeat constructor|].
    apply map_Forall_insert_2; [repeat constructor|].
    apply map_Forall_empty.
  - unfold geometryOk, twoBracketsHeap; cbn [geometryOf nextGeometry].
    apply map_Forall_insert_2; [lia|].
    apply map_Forall_insert_2; [lia|].
    apply map_Forall_empty.
  - split; constructor.
  - unfold allocated. cbn. repeat constructor.
Qed.

Lemma part_survives_model_disposal_witness :
  let h1 := snd (extractPartByName unitBox twoBrackets "bracket" twoBracketsHeap) in
  let h2 := snd (disposeObject twoBrackets h1) in
  let c := mkObject3D 4 "Bracket-02" true [] in
  materialOf h2 !! uid c = materialOf h1 !! uid c
  /\ geometryOf h2 !! uid c = geometryOf h1 !! uid c
  /\ (forall r, r ∈ materialsOfMesh h2 c -> r ∉ disposedMaterials h2)
  /\ (forall g, g ∈ geometriesOfMesh h2 c -> g ∉ disposedGeometries h2).
Proof.
  destruct twoBracketsHeap_ok as (H1 & H2 & H3 & H4).
  apply (part_survives_model_disposal unitBox twoBrackets "bracket"
           twoBracketsHeap (mkObject3D 4 "Bracket-02" true [])
           (mkObject3D 4 "Bracket-02" true []) H1 H2 H3 H4).
  - vm_compute. reflexivity.
  - left.
  - reflexivity.
Defined.

(** **** The clone is a copy *)

Lemma copyOf_lift h h1 h2 h3 ts os :
  Forall2 (copyOf h1 h2) ts os ->
  untouchedBelow (nextObject h) h h1 ->
  Forall (fun co => uid co < nextObject h) os ->
  untouchedBelow (nextObject h2) h2 h3 ->
  Forall (fun ct => uid ct < nextObject h2) ts ->
  Forall2 (copyOf h h3) ts os.
Proof.
  intros Hcopy Hbefore Hos Hafter Hts.
  induction Hcopy as [|ct co ts os (Hn & Hk & Hm & Hg) Hrest IH];
    [constructor|].
  apply Forall_cons in Hos as [Hco Hos]. apply Forall_cons in Hts as [Hct Hts].
  constructor; [|apply IH; assumption].
  destruct (Hbefore (uid co) Hco) as (Bm & Bg & _).
  destruct (Hafter (uid ct) Hct) as (Am & Ag & _).
  split; [exact Hn|]. split; [exact Hk|]. split; congruence.
Qed.

Lemma Forall_flat_map_traverse (P : Object3D -> Prop) cs :
  Forall P (flat_map traverse cs) <-> Forall (fun c => Forall P (traverse c)) cs.
Proof.
  induction cs as [|c cs IH]; cbn [flat_map].
  - split; constructor.
  - rewrite Forall_app, Forall_cons, IH. reflexivity.
Qed.

Lemma cloneChildren_copy l :
  Forall (fun c => forall h,
            Forall (fun co => uid co < nextObject h) (traverse c) ->
            Forall2 (copyOf h (snd (cloneObject c h)))
                    (traverse (fst (cloneObject c h))) (traverse c)) l ->
  forall h,
    Forall (fun co => uid co < nextObject h) (flat_map traverse l) ->
    Forall2 (copyOf h (snd (cloneChildren l h)))
            (flat_map traverse (fst (cloneChildren l h))) (flat_map traverse l).
Proof.
  induction l as [|c r IH]; intros Hall h Halloc; [constructor|].
  apply Forall_cons in Hall as [Hc Hr]. cbn [cloneChildren flat_map] in *.
  apply Forall_app in Halloc as [Hac Har].
  specialize (Hc h Hac). pose proof (cloneObject_frame c h) as Fc.
  destruct (cloneObject c h) as [c' h1]. cbn [fst snd] in *.
  assert (Har1 : Forall (fun co => uid co < nextObject h1) (flat_map traverse r)).
  { eapply Forall_impl; [exact Har|]. cbn. intros co Hco.
    destruct Fc as (Hle & _). lia. }
  specialize (IH Hr h1 Har1). pose proof (cloneChildren_frame r) as Fr.
  assert (Hframes : Forall (fun c => forall h,
            clonedFrom h (traverse (fst (cloneObject c h)))
                       (snd (cloneObject c h))) r).
  { apply Forall_forall. intros x _ h0. apply cloneObject_frame. }
  specialize (Fr Hframes h1).
  destruct (cloneChildren r h1) as [r' h2]. cbn [fst snd flat_map] in *.
  destruct Fc as (C1 & C2 & C3 & _). destruct Fr as (R1 & R2 & R3 & _).
  apply Forall2_app.
  - apply (copyOf_lift h h h1 h2); [exact Hc | | exact Hac | exact R2 |].
    + intros u _. auto.
    + eapply Forall_impl; [exact C3|]. cbn. intros ct Hct. lia.
  - apply (copyOf_lift h h1 h2 h2); [exact IH | exact C2 | exact Har | |].
    + intros u _. auto.
    + eapply Forall_impl; [exact R3|]. cbn. intros ct Hct. lia.
Qed.

(** The nodes of a deep clone are, in traversal order, copies of the
    nodes of the source. *)
Lemma cloneObject_copy o : forall h,
  Forall (fun co => uid co < nextObject h) (traverse o) ->
  Forall2 (copyOf h (snd (cloneObject o h)))
          (traverse (fst (cloneObject o h))) (traverse o).
Proof.
  induction o as [u n m cs IH] using Object3D_nodes. intros h Halloc.
  rewrite cloneObject_eq. cbn [uid name isMesh children].
  rewrite (traverse_eq (mkObject3D u n m cs)) in *. cbn [children] in *.
  apply Forall_cons in Halloc as [Hu Hcs]. cbn [uid] in Hu.
  destruct (copyFields_spec u (nextObject h) h)
    as (Hn & Hm & Hg & Hp & Hmat & Hnm & Hng & Hd).
  set (h1 := copyFields u (nextObject h) h) in *.
  assert (Hcs1 : Forall (fun co => uid co < nextObject h1) (flat_map traverse cs)).
  { eapply Forall_impl; [exact Hcs|]. cbn. intros co Hco. lia. }
  pose proof (cloneChildren_copy cs IH h1 Hcs1) as Hcopy.
  assert (Hframes : Forall (fun c => forall h,
            clonedFrom h (traverse (fst (cloneObject c h)))
                       (snd (cloneObject c h))) cs).
  { apply Forall_forall. intros x _ h0. apply cloneObject_frame. }
  pose proof (cloneChildren_frame cs Hframes h1) as (F1 & F2 & F3 & _).
  destruct (cloneChildren cs h1) as [cs' h2]. cbn [fst snd] in *.
  rewrite traverse_eq. cbn [children]. constructor.
  - destruct (F2 (nextObject h)) as (Am & Ag & _); [lia|].
    split; [reflexivity|]. split; [reflexivity|]. cbn [uid].
    rewrite Am, Ag, Hm, Hg.
    destruct (decide (nextObject h = nextObject h)); [auto | congruence].
  - apply (copyOf_lift h h1 h2 h2); [exact Hcopy | | exact Hcs | |].
    + intros v Hv. rewrite Hm, Hg, Hp.
      destruct (decide (v = nextObject h)); [lia | auto].
    + intros v _. auto.
    + eapply Forall_impl; [exact F3|]. cbn. intros ct Hct. lia.
Qed.

(** **** The clone looks like its source *)

Lemma traverse_subtree o : forall c x,
  c ∈ traverse o -> x ∈ traverse c -> x ∈ traverse o.
Proof.
  induction o as [u n m cs IH] using Object3D_nodes. intros c x Hc Hx.
  rewrite traverse_eq in Hc |- *. cbn [children] in *.
  apply elem_of_cons in Hc as [->|Hc]; [rewrite traverse_eq in Hx; exact Hx|].
  right. apply list_elem_of_In, in_flat_map in Hc as (ci & Hci & Hc).
  apply list_elem_of_In, in_flat_map. exists ci. split; [exact Hci|].
  apply list_elem_of_In. rewrite Forall_forall in IH.
  apply (IH ci (proj2 (list_elem_of_In _ _) Hci) c x);
    [apply list_elem_of_In, Hc | exact Hx].
Qed.

Lemma copyFields_heapOk src dst h : heapOk h -> heapOk (copyFields src dst h).
Proof.
  intros Hok. unfold heapOk, copyFields. cbn [materialOf nextMaterial].
  destruct (materialOf h !! src) as [v|] eqn:Ev.
  - apply map_Forall_insert_2; [apply (Hok src v Ev) | exact Hok].
  - apply map_Forall_delete, Hok.
Qed.

Lemma cloneChildren_heapOk l :
  Forall (fun c => forall h, heapOk h -> heapOk (snd (cloneObject c h))) l ->
  forall h, heapOk h -> heapOk (snd (cloneChildren l h)).
Proof.
  induction l as [|c r IH]; intros Hall h Hok; [exact Hok|].
  apply Forall_cons in Hall as [Hc Hr]. cbn [cloneChildren].
  specialize (Hc h Hok). destruct (cloneObject c h) as [c' h1].
  specialize (IH Hr h1 Hc). destruct (cloneChildren r h1) as [r' h2].
  exact IH.
Qed.

Lemma cloneObject_heapOk o : forall h, heapOk h -> heapOk (snd (cloneObject o h)).
Proof.
  induction o as [u n m cs IH] using Object3D_nodes. intros h Hok.
  rewrite cloneObject_eq. cbn [uid children].
  pose proof (cloneChildren_heapOk cs IH _ (copyFields_heapOk u (nextObject h) h Hok))
    as Hcs.
  destruct (cloneChildren cs (copyFields u (nextObject h) h)) as [cs' h2].
  exact Hcs.
Qed.

Lemma cloneMaterialOf_run c h :
  snd (bind (getMaterial c)
         (fun material => match material with
                          | Some slot => bind (cloneSlot slot)
                                           (fun slot' => setMaterial c slot')
                          | None => ret tt
                          end) h)
  = match materialOf h !! uid c with
    | Some slot =>
        snd (setMaterial c (fst (cloneSlot slot h)) (snd (cloneSlot slot h)))
    | None => h
    end.
Proof.
  unfold bind, getMaterial. destruct (materialOf h !! uid c) as [slot|];
    [|reflexivity].
  destruct (cloneSlot slot h) as [slot' ha]. reflexivity.
Qed.

(** Cloning the geometry and the materials of a node changes the look of
    no object. *)
Lemma cloneMeshData_look c h :
  heapOk h ->
  heapOk (snd (cloneMeshData c h))
  /\ forall x, meshLook (snd (cloneMeshData c h)) x = meshLook h x.
Proof.
  intros Hok. rewrite cloneMeshData_run. destruct (isMesh c); [|auto].
  destruct (cloneGeometryOf_spec c h) as (Gm & Gmat & Gnm & _).
  set (hg := snd (bind (getGeometry c) _ h)) in *.
  assert (Hokg : heapOk hg).
  { eapply heapOk_later; [exact Hok | exact Gm | lia]. }
  assert (Hlookg : forall x, meshLook hg x = meshLook h x).
  { intros x. unfold meshLook. rewrite Gm.
    destruct (materialOf h !! uid x) as [s|]; [|reflexivity]. cbn. f_equal.
    destruct s; cbn; rewrite Gmat; reflexivity. }
  rewrite cloneMaterialOf_run.
  destruct (materialOf hg !! uid c) as [slot|] eqn:Es; [|auto].
  pose proof (heapOk_lookup hg (uid c) slot Hokg Es) as Hb.
  destruct (cloneSlot_spec slot hg Hb) as (Hl & Hf & Hmo & He).
  destruct (cloneSlot slot hg) as [slot' ha]. cbn [fst snd] in *.
  destruct (setMaterial_spec c slot' ha) as (Hmo1 & Hm1 & Hn1).
  remember (snd (setMaterial c slot' ha)) as h' eqn:Eh'. clear Eh'.
  assert (Hle : nextMaterial hg <= nextMaterial h') by (destruct He; lia).
  assert (Hsame : forall s, slotBelow (nextMaterial ha) s ->
            materialLook h' s = materialLook ha s).
  { intros s _. destruct s; cbn; rewrite Hm1; reflexivity. }
  split.
  - intros o s Hs. rewrite Hmo1 in Hs. cbn beta. apply Forall_forall. intros r Hr.
    destruct (decide (o = uid c)) as [->|Hne].
    + rewrite lookup_insert_eq in Hs. injection Hs as <-.
      specialize (Hf r Hr). lia.
    + rewrite lookup_insert_ne in Hs by congruence. rewrite Hmo in Hs.
      pose proof (heapOk_lookup hg o s Hokg Hs r Hr). lia.
  - intros x. rewrite <- Hlookg. unfold meshLook. rewrite Hmo1.
    destruct (decide (uid x = uid c)) as [Heq|Hne].
    + rewrite Heq, lookup_insert_eq, Es. cbn. f_equal.
      rewrite <- Hl. apply Hsame. intros r Hr. specialize (Hf r Hr). lia.
    + rewrite lookup_insert_ne by congruence. rewrite Hmo.
      destruct (materialOf hg !! uid x) as [s|] eqn:Ex; [|reflexivity].
      cbn. f_equal. rewrite Hsame.
      * apply materialLook_extends; [exact He|].
        apply (heapOk_lookup hg (uid x)); assumption.
      * intros r Hr. pose proof (heapOk_lookup hg (uid x) s Hokg Ex r Hr).
        destruct He. lia.
Qed.

Lemma cloneMeshData_all_look l : forall h,
  heapOk h ->
  heapOk (snd (forEachM cloneMeshData l h))
  /\ forall x, meshLook (snd (forEachM cloneMeshData l h)) x = meshLook h x.
Proof.
  induction l as [|a l IH]; intros h Hok; [auto|].
  rewrite forEachM_cons.
  destruct (cloneMeshData_look a h Hok) as [Hok1 Hl1].
  destruct (IH _ Hok1) as [Hok2 Hl2].
  split; [exact Hok2|]. intros x. rewrite Hl2. apply Hl1.
Qed.

Lemma extractStep_heapOk cleanedTarget acc child h :
  heapOk h -> heapOk (snd (extractStep cleanedTarget acc child h)).
Proof.
  intros Hok. rewrite extractStep_run.
  destruct (isEmpty (name child)); [exact Hok|].
  destruct (String.eqb _ _); [|exact Hok]. cbn [snd].
  apply cloneMeshData_all_look, cloneObject_heapOk, Hok.
Qed.

Lemma extraction_heapOk cleanedTarget l : forall acc h,
  heapOk h -> heapOk (snd (foldM (extractStep cleanedTarget) acc l h)).
Proof.
  induction l as [|a l IH]; intros acc h Hok; [exact Hok|].
  cbn [foldM]. unfold bind.
  pose proof (extractStep_heapOk cleanedTarget acc a h Hok) as Hstep.
  destruct (extractStep cleanedTarget acc a h) as [acc1 h1].
  apply IH, Hstep.
Qed.

(** X12 (the part looks like the node it was cloned from).  On a heap
    whose meshes reference allocated materials, for a model of allocated
    objects: [extractPartByName] returns a part whose nodes have, in
    traversal order, the names, the kinds and the looks of the nodes of the
    last match of the traversal and of its descendants. *)
Theorem extracted_part_looks_like_source
    (setFromObject : Heap -> Object3D -> Box3 float)
    (model : Object3D) (partName : string) (h : Heap)
    (pre post : list Object3D) (c : Object3D) :
  heapOk h -> allocated h model ->
  traverse model = pre ++ c :: post ->
  matchesPart partName c = true ->
  Forall (fun child => matchesPart partName child = false) post ->
  exists target,
    fst (extractPartByName setFromObject model partName h) = Some target
    /\ Forall2 (looksLike h (snd (extractPartByName setFromObject model partName h)))
               (traverse target) (traverse c).
Proof.
  intros Hok Halloc Htrav Hmatch Hpost.
  destruct (extraction_result setFromObject model partName h) as [Hres Hheap].
  rewrite Hres. rewrite Htrav, foldM_app in Hheap |- *.
  set (ct := trim (toLowerCase partName)) in *.
  pose proof (extraction_state h ct pre None h (extractionState_init h)) as Hst.
  pose proof (extraction_heapOk ct pre None h Hok) as Hokp.
  destruct (foldM (extractStep ct) None pre h) as [acc0 hp]. cbn [fst snd] in *.
  cbn [foldM] in Hheap |- *. unfold bind in Hheap |- *.
  rewrite extractStep_run in Hheap |- *.
  apply matchesPart_true in Hmatch as [Hname Heq]. fold ct in Heq.
  rewrite Hname, Heq in Hheap |- *.
  rewrite extractStep_no_match in Hheap |- *;
    try (eapply Forall_impl; [exact Hpost|]; intros child; apply matchesPart_false).
  cbn [fst snd] in *.
  destruct Hst as (Hno & Hun & Hext & _).
  assert (Hc : Forall (fun co => uid co < nextObject h) (traverse c)).
  { apply Forall_forall. intros x Hx. unfold allocated in Halloc.
    rewrite Forall_forall in Halloc. apply Halloc.
    apply (traverse_subtree model c x); [|exact Hx].
    rewrite Htrav. apply elem_of_app. right. left. }
  assert (Hcp : Forall (fun co => uid co < nextObject hp) (traverse c)).
  { eapply Forall_impl; [exact Hc|]. cbn. intros co Hco. lia. }
  pose proof (cloneObject_copy c hp Hcp) as Hcopy.
  pose proof (cloneObject_heapOk c hp Hokp) as Hok1.
  destruct (cloneObject_frame c hp) as (_ & _ & _ & Cmat & _).
  set (t := fst (cloneObject c hp)) in *.
  set (h1 := snd (cloneObject c hp)) in *.
  destruct (cloneMeshData_all_look (traverse t) h1 Hok1) as [_ Hlook].
  set (h2 := snd (forEachM cloneMeshData (traverse t) h1)) in *.
  exists t. split; [reflexivity|].
  destruct Hheap as (Nm & _ & Nmat & _).
  set (h3 := snd (extractPartByName setFromObject model partName h)) in *.
  assert (Hfinal : forall x, meshLook h3 x = meshLook h1 x).
  { intros x. rewrite <- Hlook. unfold meshLook. rewrite Nm.
    destruct (materialOf h2 !! uid x) as [s|]; [|reflexivity]. cbn. f_equal.
    destruct s; cbn; rewrite Nmat; reflexivity. }
  clearbody t h1 h2 h3. clear Hcp Htrav.
  induction Hcopy as [|x y xs ys (Hn & Hk & Hm & _) Hrest IH]; [constructor|].
  apply Forall_cons in Hc as [Hy Hys]. constructor; [|apply IH, Hys].
  split; [exact Hn|]. split; [exact Hk|].
  rewrite Hfinal. unfold meshLook. rewrite Hm.
  destruct (Hun (uid y) Hy) as (Um & _). rewrite Um.
  destruct (materialOf h !! uid y) as [s|] eqn:Es; [|reflexivity].
  cbn. f_equal.
  assert (Hhp : materialLook hp s = materialLook h s).
  { apply materialLook_extends; [exact Hext|].
    apply (heapOk_lookup h (uid y)); assumption. }
  rewrite <- Hhp. destruct s; cbn; rewrite Cmat; reflexivity.
Qed.

Lemma extracted_part_looks_like_source_witness :
  exists target,
    fst (extractPartByName unitBox twoBrackets "bracket" twoBracketsHeap)
    = Some target
    /\ Forall2 (looksLike twoBracketsHeap
                  (snd (extractPartByName unitBox twoBrackets "bracket"
                          twoBracketsHeap)))
               (traverse target) (traverse secondBracket).
Proof.
  destruct twoBracketsHeap_ok as (H1 & _ & _ & H4).
  apply (extracted_part_looks_like_source unitBox twoBrackets "bracket"
           twoBracketsHeap [twoBrackets; firstBracket] [] secondBracket H1 H4).
  - reflexivity.
  - reflexivity.
  - constructor.
Defined.

End CloneFacts.
(* ------------------------------------------------------------------ *)
(** *** Facts about placement, framing and picking coordinates *)

Module PlacementFacts.
Import Numbers Scene Properties Notions Placement Samples Fixtures.
Import CameraFacts CloneFacts.
Local Open Scope R_scope.

#[local] Existing Instance realNumber.
#[local] Existing Instance realMath.

(** **** Normalising the position of a model *)

Lemma getSize_nonempty (b : Box3 R) :
  boxIsEmpty b = false -> getSize b = vsub (bmax b) (bmin b).
Proof. unfold getSize. intros ->. reflexivity. Qed.

Lemma getCenter_nonempty (b : Box3 R) :
  boxIsEmpty b = false ->
  getCenter b = multiplyScalar (vadd (bmin b) (bmax b)) (5 / 10).
Proof. unfold getCenter. intros ->. reflexivity. Qed.

Lemma boxIsEmpty_false (b : Box3 R) :
  boxIsEmpty b = false <->
  vx (bmin b) <= vx (bmax b) /\ vy (bmin b) <= vy (bmax b)
  /\ vz (bmin b) <= vz (bmax b).
Proof.
  unfold boxIsEmpty. cbn [nltb realNumber]. unfold real_ltb.
  destruct (Rlt_dec (vx (bmax b)) (vx (bmin b)));
    destruct (Rlt_dec (vy (bmax b)) (vy (bmin b)));
    destruct (Rlt_dec (vz (bmax b)) (vz (bmin b))); cbn;
    split; try discriminate; try reflexivity; try lra; intros; lra.
Qed.

(** X13 (a normalised model rests on the floor).  In exact arithmetic, for
    a bounding box that is not empty: move the box by the displacement that
    [normalizeModelSizeAndPosition] gives to the position of the object.
    The moved box is centred on the vertical axis, its lower face is at the
    height [floatingY], and its size is unchanged. *)
Theorem normalized_box_rests_on_floor (box : Box3 R) (p : Vector3 R)
    (floatingY : R) :
  boxIsEmpty box = false ->
  let p' := normalizedPosition box p floatingY in
  let box' := translateBox box (vsub p' p) in
  boxIsEmpty box' = false
  /\ vx (getCenter box') = 0 /\ vz (getCenter box') = 0
  /\ vy (bmin box') = floatingY
  /\ getSize box' = getSize box.
Proof.
  intros Hbox p' box'.
  pose proof (proj1 (boxIsEmpty_false box) Hbox) as (Hx & Hy & Hz).
  assert (Hbox' : boxIsEmpty box' = false).
  { apply boxIsEmpty_false. subst box' p'.
    unfold translateBox, vadd, vsub. cbn. lra. }
  split; [exact Hbox'|].
  rewrite (getCenter_nonempty box' Hbox'), (getSize_nonempty box' Hbox'),
    (getSize_nonempty box Hbox).
  subst box' p'. unfold normalizedPosition.
  rewrite (getCenter_nonempty box Hbox), (getSize_nonempty box Hbox).
  destruct box as [[a b c] [d e f]], p as [x y z].
  unfold translateBox, multiplyScalar, vadd, vsub. cbn in *.
  split; [field|]. split; [field|]. split; [field|]. f_equal; field.
Qed.

Lemma normalized_box_rests_on_floor_witness :
  vy (bmin (translateBox someBox
              (vsub (normalizedPosition someBox (mkVector3 0 0 0) 4)
                    (mkVector3 0 0 0)))) = 4.
Proof.
  refine (proj1 (proj2 (proj2 (proj2
            (normalized_box_rests_on_floor someBox (mkVector3 0 0 0) 4 _))))).
  apply boxIsEmpty_false. cbn. lra.
Defined.

(** X14 (what normalising writes).  [normalizeModelSizeAndPosition]
    changes at most the position of the object it is given: when an extent
    of the bounding box is not finite it changes nothing at all, and
    otherwise the new position is the old one minus the center of the box,
    raised by half the height of the box plus [floatingY]. *)
Theorem normalize_spec (setFromObject : Heap -> Object3D -> Box3 float)
    (mesh : Object3D) (floatingY : float) (h : Heap) :
  let h' := snd (normalizeModelSizeAndPosition setFromObject mesh floatingY h) in
  let box := setFromObject h mesh in
  let size := getSize box in
  onlyPositionOf (uid mesh) h h'
  /\ if isFinite (vx size) && isFinite (vy size) && isFinite (vz size)
     then positionOf h' !! uid mesh
          = Some (normalizedPosition box (default origin (positionOf h !! uid mesh))
                                     floatingY)
     else h' = h.
Proof.
  cbv zeta. split; [apply normalize_frame|].
  unfold normalizeModelSizeAndPosition, bind, get.
  destruct (isFinite (vx (getSize (setFromObject h mesh))));
    [|reflexivity].
  destruct (isFinite (vy (getSize (setFromObject h mesh))));
    [|reflexivity].
  destruct (isFinite (vz (getSize (setFromObject h mesh))));
    [|reflexivity].
  cbn [negb orb andb]. unfold getPosition, setPosition, modify, withPositionOf.
  cbn [snd positionOf]. apply lookup_insert_eq.
Qed.

(** **** Framing twice *)

Lemma effectiveDim_pos (box : Box3 R) : 0 < effectiveDim box.
Proof.
  unfold effectiveDim, SAFE_DIM, dec. cbn [nltb ndiv ofZ realNumber].
  unfold real_ltb. destruct (Rlt_dec (1 / 100) (maxDim box)); lra.
Qed.

Lemma multiplyScalar_back (v : Vector3 R) (c : R) :
  0 < c -> multiplyScalar (multiplyScalar v (1 / c)) c = v.
Proof.
  intros Hc. destruct v as [x y z]. unfold multiplyScalar. cbn. f_equal; field; lra.
Qed.

(** X15 (framing is idempotent).  In exact arithmetic, for a field of view
    between 0 and 180 degrees: when the distance at which
    [fitCameraToObject] places the camera is not below 0.1, framing the same
    box again from the framed view changes nothing. *)
Theorem framing_is_idempotent (camera : PerspectiveCamera R)
    (controls : OrbitControls R) (box : Box3 R) :
  0 < fov camera < 180 ->
  let dist := effectiveDim box / (2 * tan (halfFov camera)) * marginFactor in
  1 / 100 <= dist * dist ->
  let out := fitCameraToObject camera controls box in
  fitCameraToObject (fst out) (snd out) box = out.
Proof.
  intros Hfov dist Hfar out.
  destruct (frame_real camera controls box Hfov (effectiveDim_pos box))
    as (Hd & Hdist & _ & _).
  fold dist in Hd, Hdist. fold out in Hdist.
  subst out. unfold fitCameraToObject in *. cbn [fst snd position target fov] in *.
  set (center := getCenter box) in *.
  set (c := nmul (cameraZ camera box) (dec 15 10)) in *.
  set (off := multiplyScalar (normalize (viewDirection camera controls)) c) in *.
  assert (Hc : nmul (cameraZ (mkCamera (vadd center off) (fov camera) center) box)
                    (dec 15 10) = c) by reflexivity.
  rewrite Hc.
  assert (Hlen : length3 off = dist).
  { unfold distanceTo in Hdist. rewrite vsub_vadd in Hdist. exact Hdist. }
  assert (Hdir : viewDirection (mkCamera (vadd center off) (fov camera) center)
                   (mkControls center (enabled controls) (controlsDisposed controls))
                 = off).
  { unfold viewDirection. cbn [position target]. rewrite vsub_vadd.
    unfold dec. cbn [nltb ndiv ofZ realNumber].
    rewrite real_ltb_false; [reflexivity|].
    rewrite <- (length3_sqr off), Hlen. lra. }
  rewrite Hdir.
  assert (Hcd : c = dist).
  { destruct (normalize_scaled (viewDirection camera controls) c
                (viewDirection_pos camera controls)) as [Hl _].
    - subst c. unfold cameraZ, dec. cbn [nmul nabs ndiv ofZ realNumber].
      apply Rmult_le_pos; [|lra]. apply Rmult_le_pos; [apply Rabs_pos | lra].
    - fold off in Hl. congruence. }
  assert (Hnorm : multiplyScalar (normalize off) c = off).
  { unfold normalize, divideScalar.
    assert (truthy (length3 off) = true) as ->.
    { cbn [truthy realNumber]. unfold real_eqb.
      destruct (Req_dec_T (length3 off) 0); [lra | reflexivity]. }
    rewrite Hlen, Hcd. apply multiplyScalar_back, Hd. }
  rewrite Hnorm. reflexivity.
Qed.

Lemma someBox_effectiveDim : effectiveDim someBox = 4.
Proof.
  rewrite effectiveDim_kept; [apply someBox_maxDim|].
  unfold dec. cbn [nltb ndiv ofZ realNumber]. rewrite someBox_maxDim.
  apply real_ltb_true. lra.
Qed.

Lemma wideCamera_tan : tan (halfFov wideCamera) = 1.
Proof.
  unfold halfFov, wideCamera. cbn [fov].
  replace (90 * (PI / 180) / 2) with (PI / 4) by field. apply tan_PI4.
Qed.

Lemma framing_is_idempotent_witness :
  fitCameraToObject
    (fst (fitCameraToObject wideCamera initialControls someBox))
    (snd (fitCameraToObject wideCamera initialControls someBox)) someBox
  = fitCameraToObject wideCamera initialControls someBox.
Proof.
  apply (framing_is_idempotent wideCamera initialControls someBox).
  - cbn. lra.
  - rewrite someBox_effectiveDim, wideCamera_tan. unfold marginFactor. lra.
Defined.

(** **** Picking coordinates *)

(** X16 (picking coordinates).  In exact arithmetic, for a container of
    positive width and height, the normalised device coordinates that
    [getIntersects] computes for a point of the container lie between -1 and
    1; the left edge is mapped to -1 and the right edge to 1, the top edge
    to 1 and the bottom edge to -1. *)
Theorem deviceCoordinates_in_range (clientX clientY : R) (rect : Rect R) :
  0 < width rect -> 0 < height rect ->
  left rect <= clientX <= left rect + width rect ->
  top rect <= clientY <= top rect + height rect ->
  let p := deviceCoordinates clientX clientY rect in
  degenerateRect rect = false
  /\ -1 <= px p <= 1 /\ -1 <= py p <= 1
  /\ (clientX = left rect -> px p = -1)
  /\ (clientX = left rect + width rect -> px p = 1)
  /\ (clientY = top rect -> py p = 1)
  /\ (clientY = top rect + height rect -> py p = -1).
Proof.
  intros Hw Hh Hx Hy p. subst p.
  destruct rect as [l t w hgt]. unfold deviceCoordinates, degenerateRect.
  cbn in *. unfold real_eqb.
  destruct (Req_dec_T w 0); [lra|]. destruct (Req_dec_T hgt 0); [lra|].
  assert (Hu : 0 <= (clientX - l) / w <= 1).
  { split.
    - apply Rmult_le_pos; [lra|]. apply Rlt_le, Rinv_0_lt_compat, Hw.
    - apply (Rmult_le_reg_r w); [exact Hw|]. field_simplify; lra. }
  assert (Hv : 0 <= (clientY - t) / hgt <= 1).
  { split.
    - apply Rmult_le_pos; [lra|]. apply Rlt_le, Rinv_0_lt_compat, Hh.
    - apply (Rmult_le_reg_r hgt); [exact Hh|]. field_simplify; lra. }
  split; [reflexivity|]. split; [lra|]. split; [lra|].
  split; [intros ->; field; lra|]. split; [intros ->; field; lra|].
  split; intros ->; field; lra.
Qed.

Lemma deviceCoordinates_in_range_witness :
  -1 <= px (deviceCoordinates 400 300 realViewport) <= 1
  /\ -1 <= py (deviceCoordinates 400 300 realViewport) <= 1.
Proof.
  destruct (deviceCoordinates_in_range 400 300 realViewport)
    as (_ & Hx & Hy & _); [cbn; lra | cbn; lra | cbn; lra | cbn; lra |].
  split; [exact Hx | exact Hy].
Defined.

End PlacementFacts.
(* ------------------------------------------------------------------ *)
(** *** Facts about selecting parts in the viewer *)

Module SelectionFacts.
Import Names Numbers Scene Session Selection Properties Notions Samples Fixtures.
Import SnapshotFacts HeapFacts SessionFacts.
Local Open Scope list_scope.

#[local] Arguments resetModelColor : simpl never.
#[local] Arguments collectOriginalMaterials : simpl never.
#[local] Arguments highlightPart : simpl never.

(** **** Restore, capture, highlight *)

Lemma recordsSameLooks_refl h store : recordsSameLooks h store h store.
Proof. intros mesh stored Hs. exists stored. auto. Qed.

Lemma recordsSameLooks_trans h1 s1 h2 s2 h3 s3 :
  recordsSameLooks h1 s1 h2 s2 -> recordsSameLooks h2 s2 h3 s3 ->
  recordsSameLooks h1 s1 h3 s3.
Proof.
  intros H12 H23 mesh stored Hs.
  destruct (H12 mesh stored Hs) as (st2 & Hs2 & Hl2).
  destruct (H23 mesh st2 Hs2) as (st3 & Hs3 & Hl3).
  exists st3. split; [exact Hs3 | congruence].
Qed.

(** A restore leaves the session in good order, the store records the same
    looks, and every recorded mesh shows its recorded look. *)
Lemma restore_session store h :
  sessionOk h store ->
  let h1 := snd (resetModelColor store h) in
  sessionOk h1 store
  /\ recordsSameLooks h store h1 store
  /\ showsRecordedLooks h store h1 [].
Proof.
  intros (Hsok & Hb & Hok) h1.
  destruct (resetModelColor_spec store h Hsok Hb) as (Hext & _ & Hel).
  fold h1 in Hext, Hel.
  pose proof (resetModelColor_heapOk store h Hsok Hb Hok) as Hok1. fold h1 in Hok1.
  assert (Hb1 : storeBelow (nextMaterial h1) store).
  { intros e He. eapply slotBelow_mono; [apply Hext | apply Hb, He]. }
  split; [split; [exact Hsok | split; assumption]|]. split.
  - intros mesh stored Hs. exists stored. split; [exact Hs|].
    destruct (storeGet_elem _ _ _ Hs) as (k & Hin & _).
    apply materialLook_extends; [exact Hext | apply (Hb _ Hin)].
  - intros mesh stored Hs _.
    destruct (storeGet_elem _ _ _ Hs) as (k & Hin & Hk).
    destruct (Hel _ Hin) as (slot & Hslot & Hlook & _). cbn [fst snd] in *.
    unfold meshLook. rewrite <- Hk, Hslot. cbn. rewrite Hlook. reflexivity.
Qed.

(** The sequence of the viewer when a part is selected: restore, capture
    again, highlight the meshes of the part. *)
Lemma select_session store h root meshes :
  sessionOk h store ->
  let h1 := snd (resetModelColor store h) in
  let store' := fst (collectOriginalMaterials root store h1) in
  let h2 := snd (collectOriginalMaterials root store h1) in
  let h3 := snd (highlightPart (inr meshes) h2) in
  sessionOk h3 store'
  /\ recordsSameLooks h store h3 store'
  /\ (forall m, m ∈ meshes -> showsOnly h3 m highlightMaterial)
  /\ showsRecordedLooks h store h3 meshes.
Proof.
  intros Hses h1 store' h2 h3.
  pose proof Hses as (Hsok & Hb & Hok).
  destruct (restore_session store h Hses) as ((_ & Hb1 & Hok1) & _ & Hshow1).
  fold h1 in Hb1, Hok1, Hshow1.
  destruct (resetModelColor_spec store h Hsok Hb) as (Hext01 & _ & Hel).
  fold h1 in Hext01, Hel.
  destruct (collect_spec h1 (traverse root) store h1 Hok1 (extends_refl h1) eq_refl)
    as (Hext12 & Hmo12 & Hsok' & _ & Hold & _).
  fold (collectOriginalMaterials root store h1) in Hext12, Hmo12, Hsok', Hold.
  fold store' in Hsok', Hold. fold h2 in Hext12, Hmo12, Hold.
  specialize (Hsok' Hsok).
  assert (Hb2 : storeBelow (nextMaterial h2) store').
  { intros [k v] He r Hr. cbn [snd] in Hr.
    pose proof (elem_storeGet k v _ (proj1 Hsok') He) as Hs.
    destruct (Hold k v Hs) as [Hsame|[_ Hf]].
    - destruct (storeGet_elem _ _ _ Hsame) as (k' & Hin & _).
      pose proof (Hb1 _ Hin r Hr). destruct Hext12. lia.
    - apply (Hf r Hr). }
  assert (Hok2 : heapOk h2).
  { eapply heapOk_later; [exact Hok1 | exact Hmo12 | apply Hext12]. }
  destruct (highlightPart_list meshes h2)
    as (Hshow & _ & Hframe & _ & _ & _ & Hext23).
  fold h3 in Hshow, Hframe, Hext23.
  assert (Hle23 : nextMaterial h2 <= nextMaterial h3) by apply Hext23.
  split; [|split; [|split]].
  - split; [exact Hsok'|]. split.
    + intros e He. eapply slotBelow_mono; [exact Hle23 | apply Hb2, He].
    + intros o s Hs. cbn beta. apply Forall_forall. intros r Hr.
      destruct (decide (o ∈ map uid meshes)) as [Hin|Hnot].
      * apply list_elem_of_fmap in Hin as (m & -> & Hm).
        destruct (Hshow m Hm) as (_ & r0 & Hs0 & Hr0).
        rewrite Hs0 in Hs. injection Hs as <-.
        cbn in Hr. apply list_elem_of_singleton in Hr. lia.
      * rewrite (Hframe o Hnot) in Hs.
        pose proof (heapOk_lookup h2 o s Hok2 Hs r Hr). lia.
  - intros mesh stored Hs.
    destruct (capture_after_restore store h root Hsok Hb Hok mesh stored Hs)
      as (stored' & Hs' & Hl').
    fold h1 in Hs', Hl'. fold store' in Hs'. fold h2 in Hl'.
    exists stored'. split; [exact Hs'|]. rewrite <- Hl'.
    apply materialLook_extends; [exact Hext23|].
    destruct (storeGet_elem _ _ _ Hs') as (k & Hin & _). apply (Hb2 _ Hin).
  - intros m Hm. apply (Hshow m Hm).
  - intros mesh stored Hs Hnot.
    destruct (storeGet_elem _ _ _ Hs) as (k & Hin & Hk).
    destruct (Hel _ Hin) as (slot & Hslot & Hlook & Hfresh). cbn [fst snd] in *.
    unfold meshLook. rewrite (Hframe _ Hnot), Hmo12, <- Hk, Hslot. cbn.
    f_equal. rewrite <- Hlook.
    apply materialLook_extends; [eapply extends_trans; eassumption|].
    intros r Hr. apply (Hfresh r Hr).
Qed.

(** **** Clicks *)

Lemma updateRun_same k f c r :
  runs c !! k = Some r -> runs (updateRun k f c) !! k = Some (f r).
Proof.
  intros Hrun. unfold updateRun, withRuns. cbn [runs]. rewrite Hrun.
  apply list_lookup_insert_eq. apply lookup_lt_Some in Hrun. exact Hrun.
Qed.

Lemma updateRun_sceneRef k f c : sceneRef (updateRun k f c) = sceneRef c.
Proof. reflexivity. Qed.

Lemma reported_runs given p c :
  runs (callPartSelected given p c) = runs c
  /\ sceneRef (callPartSelected given p c) = sceneRef c
  /\ currentSelectedPart (callPartSelected given p c) = currentSelectedPart c
  /\ partSelectedCalls (callPartSelected given p c)
     = partSelectedCalls c ++ (if given then [p] else []).
Proof.
  unfold callPartSelected. destruct given; cbn; [auto|].
  rewrite app_nil_r. auto.
Qed.

Lemma clearSelection_shape k r c h :
  let w' := clearSelection k r (c, h) in
  runs (fst w') = runs c /\ sceneRef (fst w') = sceneRef c
  /\ snd w' = snd (resetModelColor (originalMaterials (interactive r)) h).
Proof.
  unfold clearSelection.
  destruct (resetModelColor (originalMaterials (interactive r)) h) as [[] h'].
  cbn [fst snd].
  destruct (reported_runs (onPartSelected (runProps r)) None
              (setCurrentSelectedPart None c)) as (Hr & Hs & _).
  rewrite Hr, Hs. auto.
Qed.

Lemma fitCamera_store setFromObject tan obj h s :
  originalMaterials (fitCamera setFromObject tan obj h s) = originalMaterials s
  /\ mesh (fitCamera setFromObject tan obj h s) = mesh s.
Proof.
  unfold fitCamera.
  destruct (fitCameraToObject (camera s) (controls s) (setFromObject h obj)).
  auto.
Qed.

(** The store and the heap after a click: nothing happened, or the
    materials were restored and the store is the same, or the materials were
    restored, captured again and the meshes of a part were highlighted. *)
Lemma handleClick_shape setFromObject tan intersectObject clientX clientY
    c h k r :
  sceneRef c = Some k -> runs c !! k = Some r ->
  let store := originalMaterials (interactive r) in
  let h1 := snd (resetModelColor store h) in
  let w' := handleClick setFromObject tan intersectObject clientX clientY (c, h) in
  w' = (c, h)
  \/ (sceneRef (fst w') = Some k
      /\ exists r', runs (fst w') !! k = Some r'
         /\ ((originalMaterials (interactive r') = store /\ snd w' = h1)
             \/ exists root meshes,
                  originalMaterials (interactive r')
                  = fst (collectOriginalMaterials root store h1)
                  /\ snd w' = snd (highlightPart (inr meshes)
                                     (snd (collectOriginalMaterials root store h1))))).
Proof.
  intros Href Hrun store h1 w'. subst w'. unfold handleClick.
  rewrite Href, Hrun.
  destruct (mesh (interactive r)) as [root|]; [|left; reflexivity].
  destruct (thumbnailMode (runProps r)); [left; reflexivity|].
  destruct (container c) as [rect|]; [|left; reflexivity].
  destruct (getIntersects_frame intersectObject clientX clientY rect h
              (interactive r)) as (_ & Hstore & _).
  destruct (getIntersects intersectObject clientX clientY rect h (interactive r))
    as [intersect s]. cbn [fst snd] in Hstore.
  set (r0 := withInteractive (fun _ => s) r).
  set (c0 := updateRun k (fun _ => r0) c).
  assert (Hrun0 : runs c0 !! k = Some r0) by (apply (updateRun_same k _ c r Hrun)).
  assert (Hcleared : forall w', w' = clearSelection k r0 (c0, h) ->
            sceneRef (fst w') = Some k
            /\ exists r', runs (fst w') !! k = Some r'
               /\ ((originalMaterials (interactive r') = store /\ snd w' = h1)
                   \/ exists root meshes,
                        originalMaterials (interactive r')
                        = fst (collectOriginalMaterials root store h1)
                        /\ snd w' = snd (highlightPart (inr meshes)
                                           (snd (collectOriginalMaterials root store h1))))).
  { intros w' ->. destruct (clearSelection_shape k r0 c0 h) as (Hr & Hs & Hh).
    rewrite Hs. split; [exact Href|]. exists r0. rewrite Hr.
    split; [exact Hrun0|]. left. split; [exact Hstore|].
    rewrite Hh. subst r0. cbn [interactive withInteractive]. rewrite Hstore.
    reflexivity. }
  right.
  destruct intersect as [hit|]; [|apply Hcleared; reflexivity].
  destruct (sameObject _ root); [apply Hcleared; reflexivity|].
  destruct (clickPartName _) as [partName|]; [|apply Hcleared; reflexivity].
  destruct (isEmpty partName); [apply Hcleared; reflexivity|].
  rewrite Hstore. fold store.
  destruct (resetModelColor store h) as [[] h1'] eqn:Er.
  assert (Hh1 : h1 = h1') by reflexivity.
  clearbody h1. subst h1'. clear Er.
  set (sel := climb root (object hit) (parentsOf (object hit) (scene s))).
  set (newSel := match currentSelectedPart c0 with
                 | Some cur => if String.eqb cur partName then None else Some partName
                 | None => Some partName
                 end).
  assert (Hdone : forall (r1 : EffectRun) (h2 : Heap),
            runs (fst (callPartSelected (onPartSelected (runProps r1)) newSel
                         (setCurrentSelectedPart newSel
                            (updateRun k (fun _ => r1) c0)), h2)) !! k = Some r1
            /\ sceneRef (fst (callPartSelected (onPartSelected (runProps r1)) newSel
                                (setCurrentSelectedPart newSel
                                   (updateRun k (fun _ => r1) c0)), h2)) = Some k).
  { intros r1 h2. cbn [fst].
    destruct (reported_runs (onPartSelected (runProps r1)) newSel
                (setCurrentSelectedPart newSel (updateRun k (fun _ => r1) c0)))
      as (Hr & Hs & _).
    rewrite Hr, Hs. split; [|exact Href].
    apply (updateRun_same k (fun _ => r1) c0 r0 Hrun0). }
  destruct newSel as [p|].
  - destruct (meshesOf sel) as [|m ms] eqn:Em.
    + destruct (Hdone r0 h1) as [Hr Hs]. split; [exact Hs|].
      exists r0. split; [exact Hr|]. left. split; [exact Hstore | reflexivity].
    + destruct (collectOriginalMaterials root store h1) as [st h2] eqn:Ec.
      destruct (highlightPart (inr (m :: ms)) h2) as [[] h3] eqn:Eh.
      set (r1 := withInteractive _ r0).
      destruct (Hdone r1 h3) as [Hr Hs]. split; [exact Hs|].
      exists r1. split; [exact Hr|]. right. exists root, (m :: ms).
      rewrite Ec. cbn [fst snd]. rewrite Eh. cbn [snd]. split; [|reflexivity].
      subst r1. cbn [interactive withInteractive].
      destruct (fitCamera_store setFromObject tan sel h3
                  (withStore st (interactive r0))) as [-> _].
      reflexivity.
  - set (r1 := withInteractive (fitCamera setFromObject tan root h1) r0).
    destruct (Hdone r1 h1) as [Hr Hs]. split; [exact Hs|].
    exists r1. split; [exact Hr|]. left. split; [|reflexivity].
    subst r1. cbn [interactive withInteractive].
    destruct (fitCamera_store setFromObject tan root h1 (interactive r0)) as [-> _].
    exact Hstore.
Qed.

Lemma click_step setFromObject tan intersectObject clientX clientY c h k r :
  sceneRef c = Some k -> runs c !! k = Some r ->
  sessionOk h (originalMaterials (interactive r)) ->
  let w' := handleClick setFromObject tan intersectObject clientX clientY (c, h) in
  sceneRef (fst w') = Some k
  /\ exists r', runs (fst w') !! k = Some r'
       /\ sessionOk (snd w') (originalMaterials (interactive r'))
       /\ recordsSameLooks h (originalMaterials (interactive r))
            (snd w') (originalMaterials (interactive r')).
Proof.
  intros Href Hrun Hses w'.
  destruct (handleClick_shape setFromObject tan intersectObject clientX clientY
              c h k r Href Hrun) as [Hsame|(Hs & r' & Hr' & Hcase)];
    fold w' in Hsame || fold w' in Hs, Hr', Hcase.
  - rewrite Hsame. cbn [fst snd]. split; [exact Href|]. exists r.
    split; [exact Hrun|]. split; [exact Hses | apply recordsSameLooks_refl].
  - split; [exact Hs|]. exists r'. split; [exact Hr'|].
    destruct Hcase as [[Hst Hh]|(root & meshes & Hst & Hh)]; rewrite Hst, Hh.
    + destruct (restore_session _ h Hses) as (H1 & H2 & _). auto.
    + destruct (select_session _ h root meshes Hses) as (H1 & H2 & _). auto.
Qed.

(** X17 (clicks never corrupt the snapshots).  On a session in good order
    with a current effect run, after any sequence of clicks, whatever they
    hit: the same effect run is current, the session is in good order, and
    every look that the store recorded at the start is still recorded, for
    the same mesh. *)
Theorem clicks_keep_recorded_looks
    (setFromObject : Heap -> Object3D -> Box3 float) (tan : float -> float)
    (intersectObject : Raycaster -> Heap -> Object3D -> list Intersection)
    (points : list (float * float)) (c : Component) (h : Heap)
    (k : nat) (r : EffectRun) :
  sceneRef c = Some k -> runs c !! k = Some r ->
  sessionOk h (originalMaterials (interactive r)) ->
  let w' := run setFromObject tan intersectObject (c, h) (clicks points) in
  sceneRef (fst w') = Some k
  /\ exists r', runs (fst w') !! k = Some r'
       /\ sessionOk (snd w') (originalMaterials (interactive r'))
       /\ recordsSameLooks h (originalMaterials (interactive r))
            (snd w') (originalMaterials (interactive r')).
Proof.
  revert c h r. induction points as [|[x y] points IH]; intros c h r Href Hrun Hses.
  - cbn. split; [exact Href|]. exists r. split; [exact Hrun|].
    split; [exact Hses | apply recordsSameLooks_refl].
  - cbn [clicks map run fold_left step fst snd].
    destruct (click_step setFromObject tan intersectObject x y c h k r
                Href Hrun Hses) as (Hs1 & r1 & Hr1 & Hses1 & Hlooks1).
    destruct (handleClick setFromObject tan intersectObject x y (c, h))
      as [c1 h1]. cbn [fst snd] in *.
    destruct (IH c1 h1 r1 Hs1 Hr1 Hses1) as (Hs2 & r2 & Hr2 & Hses2 & Hlooks2).
    split; [exact Hs2|]. exists r2. split; [exact Hr2|]. split; [exact Hses2|].
    eapply recordsSameLooks_trans; eassumption.
Qed.

Lemma loadedWorld_run :
  exists r, runs (fst loadedWorld) !! 0 = Some r
            /\ originalMaterials (interactive r) = loadedStore
            /\ mesh (interactive r) = Some assembly
            /\ thumbnailMode (runProps r) = false
            /\ onPartSelected (runProps r) = true
            /\ scene (interactive r)
               = mkObject3D 3 "" false
                   [mkObject3D 4 "" false []; mkObject3D 5 "" false [];
                    mkObject3D 6 "" false []; assembly].
Proof.
  destruct (runs (fst loadedWorld) !! 0) as [r|] eqn:Hr;
    [|vm_compute in Hr; discriminate Hr].
  exists r. split; [reflexivity|].
  vm_compute in Hr. injection Hr as <-. repeat split.
Qed.

Lemma loadedWorld_ok : sessionOk (snd loadedWorld) loadedStore.
Proof.
  split; [|split].
  - split.
    + apply (bool_decide_unpack _). vm_compute. exact I.
    + intros e He. unfold loadedStore in He.
      apply elem_of_cons in He as [->|He]; [reflexivity|].
      apply elem_of_cons in He as [->|He]; [reflexivity|].
      apply elem_of_nil in He. destruct He.
  - assert (Hn : nextMaterial (snd loadedWorld) = 5) by (vm_compute; reflexivity).
    rewrite Hn. intros e He r Hr. unfold loadedStore in He.
    apply elem_of_cons in He as [->|He].
    { cbn in Hr. apply list_elem_of_singleton in Hr. lia. }
    apply elem_of_cons in He as [->|He].
    { cbn in Hr. apply elem_of_cons in Hr as [->|Hr]; [lia|].
      apply list_elem_of_singleton in Hr. lia. }
    apply elem_of_nil in He. destruct He.
  - unfold heapOk. apply (bool_decide_unpack _). vm_compute. exact I.
Qed.

Lemma clicks_keep_recorded_looks_witness :
  sceneRef (fst (run unitBox tanAtHalfOf45 hitBracket
                   (fst loadedWorld, snd loadedWorld) (clicks twoClicks)))
  = Some 0.
Proof.
  destruct loadedWorld_run as (r & Hr & Hst & _).
  refine (proj1 (clicks_keep_recorded_looks unitBox tanAtHalfOf45 hitBracket
                   twoClicks (fst loadedWorld) (snd loadedWorld) 0 r _ Hr _)).
  - vm_compute. reflexivity.
  - rewrite Hst. exact loadedWorld_ok.
Defined.

(** X18 (a click on a part selects it, a second click deselects it).  On a
    session in good order that is not in thumbnail mode, when the ray hits an
    object that resolves to a child [sel] of the model with the non-empty
    part name [partName]: if that part was the selection, the selection
    becomes none and every recorded mesh shows its recorded look; otherwise
    the selection becomes [partName], the meshes of [sel] show the
    highlight material and every other recorded mesh shows its recorded
    look.  The new selection is reported through [onPartSelected] when that
    callback is given. *)
Theorem click_on_part_toggles
    (setFromObject : Heap -> Object3D -> Box3 float) (tan : float -> float)
    (intersectObject : Raycaster -> Heap -> Object3D -> list Intersection)
    (clientX clientY : float) (c : Component) (h : Heap)
    (k : nat) (r : EffectRun) (root : Object3D) (rect : Rect float)
    (hit : Intersection) (partName : string) :
  sceneRef c = Some k -> runs c !! k = Some r ->
  mesh (interactive r) = Some root ->
  thumbnailMode (runProps r) = false ->
  container c = Some rect ->
  fst (getIntersects intersectObject clientX clientY rect h (interactive r))
  = Some hit ->
  let sel := climb root (object hit)
               (parentsOf (object hit) (scene (interactive r))) in
  sameObject sel root = false ->
  clickPartName (name sel) = Some partName -> isEmpty partName = false ->
  sessionOk h (originalMaterials (interactive r)) ->
  let w' := handleClick setFromObject tan intersectObject clientX clientY (c, h) in
  let newSel := if decide (currentSelectedPart c = Some partName)
                then None else Some partName in
  let highlighted := match newSel with
                     | Some _ => meshesOf sel
                     | None => []
                     end in
  currentSelectedPart (fst w') = newSel
  /\ partSelectedCalls (fst w')
     = partSelectedCalls c ++ (if onPartSelected (runProps r) then [newSel] else [])
  /\ (forall m, m ∈ highlighted -> showsOnly (snd w') m highlightMaterial)
  /\ showsRecordedLooks h (originalMaterials (interactive r)) (snd w') highlighted.
Proof.
  intros Href Hrun Hmesh Hthumb Hcont Hhit sel Hsel Hname Hne Hses w' newSel
    highlighted.
  subst w'. unfold handleClick. rewrite Href, Hrun, Hmesh, Hthumb, Hcont.
  destruct (getIntersects_frame intersectObject clientX clientY rect h
              (interactive r)) as (Hscene & Hstore & _).
  destruct (getIntersects intersectObject clientX clientY rect h (interactive r))
    as [intersect s]. cbn [fst snd] in *. subst intersect.
  rewrite Hscene. fold sel. rewrite Hsel, Hname, Hne, Hstore.
  set (store := originalMaterials (interactive r)) in *.
  set (r0 := withInteractive (fun _ => s) r).
  set (c0 := updateRun k (fun _ => r0) c).
  change (currentSelectedPart c0) with (currentSelectedPart c).
  assert (Hnew : match currentSelectedPart c with
                 | Some cur => if String.eqb cur partName then None else Some partName
                 | None => Some partName
                 end = newSel).
  { subst newSel. destruct (currentSelectedPart c) as [cur|].
    - destruct (String.eqb cur partName) eqn:E.
      + apply String.eqb_eq in E. subst cur.
        destruct (decide (Some partName = Some partName)); [reflexivity | congruence].
      + apply String.eqb_neq in E.
        destruct (decide (Some cur = Some partName)); [congruence | reflexivity].
    - destruct (decide (None = Some partName)); [congruence | reflexivity]. }
  rewrite Hnew.
  destruct (restore_session store h Hses) as (_ & _ & Hshow1).
  destruct (resetModelColor store h) as [[] h1] eqn:Er. cbn [snd] in Hshow1.
  assert (Hfinish : forall (r1 : EffectRun) (h2 : Heap),
            runProps r1 = runProps r ->
            currentSelectedPart
              (fst (callPartSelected (onPartSelected (runProps r1)) newSel
                      (setCurrentSelectedPart newSel
                         (updateRun k (fun _ => r1) c0)), h2)) = newSel
            /\ partSelectedCalls
                 (fst (callPartSelected (onPartSelected (runProps r1)) newSel
                         (setCurrentSelectedPart newSel
                            (updateRun k (fun _ => r1) c0)), h2))
               = partSelectedCalls c
                 ++ (if onPartSelected (runProps r) then [newSel] else [])).
  { intros r1 h2 Hp. cbn [fst].
    destruct (reported_runs (onPartSelected (runProps r1)) newSel
                (setCurrentSelectedPart newSel (updateRun k (fun _ => r1) c0)))
      as (_ & _ & Hcur & Hcalls).
    rewrite Hcur, Hcalls, Hp. split; reflexivity. }
  clearbody newSel. destruct newSel as [p|]; subst highlighted.
  - destruct (meshesOf sel) as [|m ms] eqn:Em.
    + destruct (Hfinish r0 h1 eq_refl) as [H1 H2].
      split; [exact H1|]. split; [exact H2|]. cbn [snd]. split; [|exact Hshow1].
      intros m Hm. apply elem_of_nil in Hm. destruct Hm.
    + destruct (select_session store h root (m :: ms) Hses)
        as (_ & _ & Hhigh & Hshow).
      rewrite Er in Hhigh, Hshow. cbn [snd] in Hhigh, Hshow.
      destruct (collectOriginalMaterials root store h1) as [st h2].
      cbn [fst snd] in *.
      destruct (highlightPart (inr (m :: ms)) h2) as [[] h3]. cbn [snd] in *.
      set (r1 := withInteractive _ r0).
      destruct (Hfinish r1 h3 eq_refl) as [H1 H2].
      split; [exact H1|]. split; [exact H2|]. cbn [snd].
      split; [exact Hhigh | exact Hshow].
  - set (r1 := withInteractive (fitCamera setFromObject tan root h1) r0).
    destruct (Hfinish r1 h1 eq_refl) as [H1 H2].
    split; [exact H1|]. split; [exact H2|]. cbn [snd]. split; [|exact Hshow1].
    intros m Hm. apply elem_of_nil in Hm. destruct Hm.
Qed.

Lemma click_on_part_toggles_witness :
  currentSelectedPart
    (fst (handleClick unitBox tanAtHalfOf45 hitBracket (ofZ 10) (ofZ 10)
            (fst loadedWorld, snd loadedWorld))) = Some "Bracket"
  /\ showsOnly
       (snd (handleClick unitBox tanAtHalfOf45 hitBracket (ofZ 10) (ofZ 10)
               (fst loadedWorld, snd loadedWorld))) bracket highlightMaterial.
Proof.
  destruct loadedWorld_run as (r & Hr & Hst & Hmesh & Hthumb & _ & Hscene).
  assert (Hhit : fst (getIntersects hitBracket (ofZ 10) (ofZ 10) viewport
                        (snd loadedWorld) (interactive r))
                 = Some (mkIntersection bracket)).
  { unfold getIntersects.
    destruct (degenerateRect viewport) eqn:E; [vm_compute in E; discriminate E|].
    unfold withRay. cbn [mesh]. rewrite Hmesh. reflexivity. }
  assert (Hsel : climb assembly bracket
                   (parentsOf bracket (scene (interactive r))) = bracket).
  { rewrite Hscene. reflexivity. }
  pose proof (click_on_part_toggles unitBox tanAtHalfOf45 hitBracket
                (ofZ 10) (ofZ 10) (fst loadedWorld) (snd loadedWorld) 0 r
                assembly viewport (mkIntersection bracket) "Bracket") as H.
  cbv zeta in H. cbn [object] in H. rewrite Hsel, Hst in H.
  destruct H as (H1 & _ & H3 & _);
    [vm_compute; reflexivity | exact Hr | exact Hmesh | exact Hthumb
    | reflexivity | exact Hhit | reflexivity | reflexivity | reflexivity
    | exact loadedWorld_ok |].
  split.
  - rewrite H1. vm_compute. reflexivity.
  - apply H3. vm_compute. left.
Defined.

(** **** Clicks on nothing *)

(** C8 (a click on nothing clears the selection), as the code has it:
    outside thumbnail mode.  On a session in good order with an attached
    model and a mounted container, when the ray hits nothing or the hit
    resolves to the root: in thumbnail mode the click changes nothing;
    otherwise it sets the selection to none, reports none through
    [onPartSelected] when that callback is given, and restores the
    materials, so that every mesh that the store records shows its recorded
    look again, whatever was highlighted. *)
Theorem click_on_nothing_clears
    (setFromObject : Heap -> Object3D -> Box3 float) (tan : float -> float)
    (intersectObject : Raycaster -> Heap -> Object3D -> list Intersection)
    (clientX clientY : float) (c : Component) (h : Heap)
    (k : nat) (r : EffectRun) (root : Object3D) (rect : Rect float) :
  sceneRef c = Some k -> runs c !! k = Some r ->
  mesh (interactive r) = Some root ->
  container c = Some rect ->
  let hit := fst (getIntersects intersectObject clientX clientY rect h
                    (interactive r)) in
  (hit = None \/ exists i, hit = Some i /\ resolvesToRoot (interactive r) root i) ->
  sessionOk h (originalMaterials (interactive r)) ->
  let w' := handleClick setFromObject tan intersectObject clientX clientY (c, h) in
  if thumbnailMode (runProps r) then w' = (c, h)
  else
    currentSelectedPart (fst w') = None
    /\ partSelectedCalls (fst w') =
       partSelectedCalls c ++ (if onPartSelected (runProps r) then [None] else [])
    /\ snd w' = snd (resetModelColor (originalMaterials (interactive r)) h)
    /\ showsRecordedLooks h (originalMaterials (interactive r)) (snd w') [].
Proof.
  intros Href Hrun Hmesh Hcont hit Hhit Hses w'. subst hit w'.
  unfold handleClick. rewrite Href, Hrun, Hmesh.
  destruct (thumbnailMode (runProps r)); [reflexivity|]. rewrite Hcont.
  destruct (getIntersects_frame intersectObject clientX clientY rect h
              (interactive r)) as (Hscene & Hstore & _).
  destruct (getIntersects intersectObject clientX clientY rect h (interactive r))
    as [intersect s]. cbn [fst snd] in *.
  pose proof (clearSelection_after k r s c h Hstore) as Hclear.
  cbv zeta in Hclear.
  destruct (restore_session _ h Hses) as (_ & _ & Hshow).
  assert (Hgoal : forall w : World,
            (currentSelectedPart (fst w) = None
             /\ partSelectedCalls (fst w) =
                partSelectedCalls c
                ++ (if onPartSelected (runProps r) then [None] else [])
             /\ snd w = snd (resetModelColor (originalMaterials (interactive r)) h))
            -> currentSelectedPart (fst w) = None
               /\ partSelectedCalls (fst w) =
                  partSelectedCalls c
                  ++ (if onPartSelected (runProps r) then [None] else [])
               /\ snd w = snd (resetModelColor (originalMaterials (interactive r)) h)
               /\ showsRecordedLooks h (originalMaterials (interactive r))
                    (snd w) []).
  { intros w (H1 & H2 & H3). rewrite H3. auto. }
  destruct Hhit as [->|(i & -> & Hroot)]; [apply Hgoal, Hclear|].
  destruct Hroot as [Hsel|(Hobj & Hparents & Hname)].
  - rewrite Hscene, Hsel. apply Hgoal, Hclear.
  - rewrite Hscene, Hparents. cbn [climb].
    destruct (sameObject (scene (interactive r)) root).
    + rewrite Hobj. apply Hgoal, Hclear.
    + destruct (sameObject (scene (interactive r)) root); [apply Hgoal, Hclear|].
      rewrite Hname. apply Hgoal, Hclear.
Qed.

Lemma selectedWorld_run :
  exists r, runs (fst selectedWorld) !! 0 = Some r
            /\ mesh (interactive r) = Some assembly
            /\ thumbnailMode (runProps r) = false
            /\ storeGet bracket (originalMaterials (interactive r))
               = Some (Single 8)
            /\ sessionOk (snd selectedWorld) (originalMaterials (interactive r)).
Proof.
  destruct loadedWorld_run as (r0 & Hr0 & Hst0 & _).
  assert (Hses0 : sessionOk (snd loadedWorld) (originalMaterials (interactive r0)))
    by (rewrite Hst0; exact loadedWorld_ok).
  destruct (click_step unitBox tanAtHalfOf45 hitBracket (ofZ 10) (ofZ 10)
              (fst loadedWorld) (snd loadedWorld) 0 r0 eq_refl Hr0 Hses0)
    as (_ & r & Hr & Hses & _).
  rewrite <- (surjective_pairing loadedWorld) in Hr, Hses.
  fold selectedWorld in Hr, Hses.
  exists r. split; [exact Hr|].
  assert (H : (fun r => (mesh (interactive r), thumbnailMode (runProps r),
                         storeGet bracket (originalMaterials (interactive r))))
              <$> runs (fst selectedWorld) !! 0
              = Some (Some assembly, false, Some (Single 8)))
    by (vm_compute; reflexivity).
  rewrite Hr in H. cbn in H. injection H as H1 H2 H3. auto.
Qed.

(** The bracket is selected and shows the highlight; after a click on
    empty space it shows the steel again. *)
Lemma click_on_nothing_clears_witness :
  meshLook (snd selectedWorld) bracket = Some (inl (Some highlightMaterial))
  /\ currentSelectedPart (fst selectedWorld) = Some "Bracket"
  /\ currentSelectedPart
       (fst (handleClick unitBox tanAtHalfOf45 hitNothing (ofZ 10) (ofZ 10)
               (fst selectedWorld, snd selectedWorld))) = None
  /\ meshLook
       (snd (handleClick unitBox tanAtHalfOf45 hitNothing (ofZ 10) (ofZ 10)
               (fst selectedWorld, snd selectedWorld))) bracket
     = Some (inl (Some steel)).
Proof.
  destruct selectedWorld_run as (r & Hr & Hmesh & Hthumb & Hget & Hses).
  assert (Hhit : fst (getIntersects hitNothing (ofZ 10) (ofZ 10) viewport
                        (snd selectedWorld) (interactive r)) = None).
  { unfold getIntersects.
    destruct (degenerateRect viewport) eqn:E; [reflexivity|].
    unfold withRay. cbn [mesh]. rewrite Hmesh. reflexivity. }
  pose proof (click_on_nothing_clears unitBox tanAtHalfOf45 hitNothing
                (ofZ 10) (ofZ 10) (fst selectedWorld) (snd selectedWorld) 0 r
                assembly viewport) as H.
  cbv zeta in H. rewrite Hthumb in H.
  destruct H as (H1 & _ & _ & H4);
    [vm_compute; reflexivity | exact Hr | exact Hmesh | vm_compute; reflexivity
    | left; exact Hhit | exact Hses |].
  split; [vm_compute; reflexivity|]. split; [vm_compute; reflexivity|].
  split; [exact H1|].
  rewrite (H4 bracket (Single 8) Hget); [|intros Hin; apply elem_of_nil in Hin;
                                           destruct Hin].
  vm_compute. reflexivity.
Defined.

(** **** Selection from outside *)

(** Restore, then highlight the target: the meshes of the target show the
    highlight material, the other recorded meshes show their recorded
    looks, and the store records the same looks as before. *)
Lemma highlightTarget_spec setFromObject tan root target r h :
  sessionOk h (originalMaterials (interactive r)) ->
  let store := originalMaterials (interactive r) in
  let h1 := snd (resetModelColor store h) in
  let out := highlightTarget setFromObject tan root target r h1 in
  sessionOk (snd out) (originalMaterials (interactive (fst out)))
  /\ recordsSameLooks h store (snd out) (originalMaterials (interactive (fst out)))
  /\ (forall m, m ∈ meshesOf target -> showsOnly (snd out) m highlightMaterial)
  /\ showsRecordedLooks h store (snd out) (meshesOf target).
Proof.
  intros Hses store h1 out. subst out. unfold highlightTarget.
  destruct (meshesOf target) as [|m ms] eqn:Em.
  - cbn [fst snd]. destruct (restore_session store h Hses) as (H1 & H2 & H3).
    split; [exact H1|]. split; [exact H2|]. split; [|exact H3].
    intros x Hx. apply elem_of_nil in Hx. destruct Hx.
  - destruct (select_session store h root (m :: ms) Hses) as (H1 & H2 & H3 & H4).
    fold store. fold h1 in H1, H2, H3, H4.
    destruct (collectOriginalMaterials root store h1) as [st h2].
    cbn [fst snd] in *.
    destruct (highlightPart (inr (m :: ms)) h2) as [[] h3]. cbn [fst snd] in *.
    destruct (fitCamera_store setFromObject tan target h3
                (withStore st (interactive r))) as [Hst _].
    cbn [interactive withInteractive]. rewrite Hst. cbn [originalMaterials withStore].
    auto.
Qed.

(** X19 (selecting by the prop).  On a session in good order that shows a
    loaded model (not an isolated part), when the effect of the prop
    [selectedPartName] runs: if the name is given and
    [findNodeByBaseName] finds a node for it, the selection becomes that
    name, the meshes of the node show the highlight material and every
    other recorded mesh shows its recorded look; if the name is null or
    empty, or no node is found, the selection becomes none and every
    recorded mesh shows its recorded look. *)
Theorem selectionEffect_spec
    (setFromObject : Heap -> Object3D -> Box3 float) (tan : float -> float)
    (selectedPartName : option string) (c : Component) (h : Heap)
    (k : nat) (r : EffectRun) (root : Object3D) :
  sceneRef c = Some k -> runs c !! k = Some r ->
  mesh (interactive r) = Some root ->
  isolatedPart (runProps r) = None ->
  sessionOk h (originalMaterials (interactive r)) ->
  let w' := selectionEffect setFromObject tan selectedPartName (c, h) in
  let target := match truthyName selectedPartName with
                | Some partName => findNodeByBaseName root partName
                | None => None
                end in
  let highlighted := match target with
                     | Some t => meshesOf t
                     | None => []
                     end in
  currentSelectedPart (fst w')
  = match target with
    | Some _ => truthyName selectedPartName
    | None => None
    end
  /\ (forall m, m ∈ highlighted -> showsOnly (snd w') m highlightMaterial)
  /\ showsRecordedLooks h (originalMaterials (interactive r)) (snd w') highlighted.
Proof.
  intros Href Hrun Hmesh Hiso Hses w' target highlighted.
  subst w' target highlighted. unfold selectionEffect.
  rewrite Href, Hrun, Hmesh, Hiso.
  set (store := originalMaterials (interactive r)) in *.
  destruct (restore_session store h Hses) as (_ & _ & Hshow1).
  destruct (truthyName selectedPartName) as [partName|].
  2:{ destruct (resetModelColor store h) as [[] h1]. cbn [fst snd] in *.
      split; [reflexivity|]. split; [|exact Hshow1].
      intros m Hm. apply elem_of_nil in Hm. destruct Hm. }
  destruct (findNodeByBaseName root partName) as [target|].
  2:{ destruct (resetModelColor store h) as [[] h1]. cbn [fst snd] in *.
      split; [reflexivity|]. split; [|exact Hshow1].
      intros m Hm. apply elem_of_nil in Hm. destruct Hm. }
  destruct (highlightTarget_spec setFromObject tan root target r h Hses)
    as (_ & _ & Hhigh & Hshow).
  fold store in Hhigh, Hshow.
  destruct (resetModelColor store h) as [[] h1]. cbn [snd] in *.
  destruct (highlightTarget setFromObject tan root target r h1) as [r1 h2].
  cbn [fst snd] in *. split; [reflexivity|]. split; assumption.
Qed.

Lemma selectionEffect_spec_witness :
  currentSelectedPart
    (fst (selectionEffect unitBox tanAtHalfOf45 (Some "BOLT")
            (fst loadedWorld, snd loadedWorld))) = Some "BOLT"
  /\ showsOnly
       (snd (selectionEffect unitBox tanAtHalfOf45 (Some "BOLT")
               (fst loadedWorld, snd loadedWorld))) bolt highlightMaterial.
Proof.
  destruct loadedWorld_run as (r & Hr & Hst & Hmesh & Hthumb & _ & Hscene).
  assert (Hiso : isolatedPart (runProps r) = None).
  { assert (H : (isolatedPart ∘ runProps) <$> runs (fst loadedWorld) !! 0
                = Some None) by (vm_compute; reflexivity).
    rewrite Hr in H. cbn in H. congruence. }
  pose proof (selectionEffect_spec unitBox tanAtHalfOf45 (Some "BOLT")
                (fst loadedWorld) (snd loadedWorld) 0 r assembly) as H.
  cbv zeta in H. rewrite Hst in H.
  destruct H as (H1 & H2 & _);
    [vm_compute; reflexivity | exact Hr | exact Hmesh | exact Hiso
    | exact loadedWorld_ok |].
  split.
  - rewrite H1. reflexivity.
  - apply H2. vm_compute. left.
Defined.

(** X20 (selecting through the handle).  The callback of
    [highlightPartByName] on a session in good order with a model attached:
    for a name for which [findNodeByBaseName] finds a node, and for
    [null], it does what the effect of the prop does; for a name for which
    no node is found it sets the selection to none and, unlike the effect,
    leaves the materials as they are, so that an earlier highlight stays. *)
Theorem highlightPartByName_spec
    (setFromObject : Heap -> Object3D -> Box3 float) (tan : float -> float)
    (partName : option string) (c : Component) (h : Heap)
    (k : nat) (r : EffectRun) (root : Object3D) :
  sceneRef c = Some k -> runs c !! k = Some r ->
  mesh (interactive r) = Some root ->
  isolatedPart (runProps r) = None ->
  let w' := highlightPartByName setFromObject tan partName (c, h) in
  match partName with
  | None => w' = selectionEffect setFromObject tan None (c, h)
  | Some name =>
      match findNodeByBaseName root name with
      | Some _ =>
          isEmpty name = false ->
          w' = selectionEffect setFromObject tan (Some name) (c, h)
      | None => snd w' = h /\ currentSelectedPart (fst w') = None
      end
  end.
Proof.
  intros Href Hrun Hmesh Hiso w'. subst w'.
  unfold highlightPartByName, selectionEffect.
  rewrite Href, Hrun, Hmesh, Hiso.
  destruct partName as [name|].
  - destruct (findNodeByBaseName root name) as [target|] eqn:Ef.
    + intros Hne. cbn [truthyName]. rewrite Hne, Ef. reflexivity.
    + split; reflexivity.
  - cbn [truthyName].
    destruct (resetModelColor (originalMaterials (interactive r)) h) as [[] h1].
    reflexivity.
Qed.

Lemma highlightPartByName_spec_witness :
  highlightPartByName unitBox tanAtHalfOf45 (Some "bolt")
    (fst loadedWorld, snd loadedWorld)
  = selectionEffect unitBox tanAtHalfOf45 (Some "bolt")
      (fst loadedWorld, snd loadedWorld).
Proof.
  destruct loadedWorld_run as (r & Hr & Hst & Hmesh & Hthumb & _ & Hscene).
  assert (Hiso : isolatedPart (runProps r) = None).
  { assert (H : (isolatedPart ∘ runProps) <$> runs (fst loadedWorld) !! 0
                = Some None) by (vm_compute; reflexivity).
    rewrite Hr in H. cbn in H. congruence. }
  pose proof (highlightPartByName_spec unitBox tanAtHalfOf45 (Some "bolt")
                (fst loadedWorld) (snd loadedWorld) 0 r assembly
                eq_refl Hr Hmesh Hiso) as H.
  cbv beta iota zeta in H.
  assert (Hf : findNodeByBaseName assembly "bolt" = Some bolt) by reflexivity.
  rewrite Hf in H. apply H. reflexivity.
Defined.

End SelectionFacts.
(* ------------------------------------------------------------------ *)
(** *** Facts about the life cycle of the viewer *)

Module LifecycleFacts.
Import Names Numbers Scene Session Properties Notions Samples Fixtures.
Import SnapshotFacts HeapFacts DisposalFacts SessionFacts SelectionFacts.
Local Open Scope list_scope.

#[local] Arguments resetModelColor : simpl never.
#[local] Arguments collectOriginalMaterials : simpl never.
#[local] Arguments highlightPart : simpl never.
#[local] Arguments disposeObject : simpl never.
#[local] Arguments normalizeModelSizeAndPosition : simpl never.

(** **** Status of the effect runs *)

Lemma sameStatuses_refl c : sameStatuses c c.
Proof. split; [reflexivity|]. split; [reflexivity|]. eauto. Qed.

Lemma sameStatuses_trans c1 c2 c3 :
  sameStatuses c1 c2 -> sameStatuses c2 c3 -> sameStatuses c1 c3.
Proof.
  intros (A1 & A2 & A3) (B1 & B2 & B3).
  split; [congruence|]. split; [congruence|].
  intros j r3 Hr3. destruct (B3 j r3 Hr3) as (r2 & Hr2 & Hs2).
  destruct (A3 j r2 Hr2) as (r1 & Hr1 & Hs1). exists r1. split; [exact Hr1|].
  congruence.
Qed.

Lemma sameStatuses_fields c c' :
  runs c' = runs c -> sceneRef c' = sceneRef c -> sameStatuses c c'.
Proof.
  intros Hr Hs. split; [exact Hs|]. rewrite Hr. split; [reflexivity|]. eauto.
Qed.

Lemma updateRun_status k f c :
  (forall r, runs c !! k = Some r -> status (f r) = status r) ->
  sameStatuses c (updateRun k f c).
Proof.
  intros Hf. split; [reflexivity|].
  unfold updateRun, withRuns. cbn [runs].
  destruct (runs c !! k) as [r|] eqn:Hr;
    [|split; [reflexivity | eauto]].
  split; [apply length_insert|].
  intros j r' Hr'. destruct (decide (j = k)) as [->|Hne].
  - rewrite list_lookup_insert_eq in Hr' by (eapply lookup_lt_Some, Hr).
    injection Hr' as <-. exists r. split; [exact Hr | apply Hf; reflexivity].
  - rewrite list_lookup_insert_ne in Hr' by congruence. eauto.
Qed.

Lemma oneLiveScene_same c c' :
  oneLiveScene c -> sameStatuses c c' -> oneLiveScene c'.
Proof.
  intros [Hcur Hold] (Hs & Hl & Hr). split.
  - rewrite Hs. destruct (sceneRef c) as [k|]; [|exact I].
    destruct Hcur as (Hk & r & Hrk & Hlive). split; [congruence|].
    destruct (lookup_lt_is_Some_2 (runs c') k) as [r' Hr']; [lia|].
    exists r'. split; [exact Hr'|].
    destruct (Hr k r' Hr') as (r0 & Hr0 & Hst).
    unfold live in *. congruence.
  - intros j r' Hr' Hne. destruct (Hr j r' Hr') as (r & Hrj & Hst).
    unfold tornDown in *. rewrite Hst. apply (Hold j r Hrj). congruence.
Qed.

Lemma fitCamera_status setFromObject tan obj h s :
  controlsDisposed (controls (fitCamera setFromObject tan obj h s))
  = controlsDisposed (controls s)
  /\ rendererDisposed (fitCamera setFromObject tan obj h s) = rendererDisposed s.
Proof. unfold fitCamera, fitCameraToObject. cbn. auto. Qed.

Lemma dropAdded_status r h : status (fst (dropAdded r h)) = status r.
Proof.
  unfold dropAdded. destruct (addedObject r) as [added|]; [|reflexivity].
  destruct (resetModelColor _ h) as [[] h1].
  destruct (disposeObject added h1) as [[] h2]. reflexivity.
Qed.

Lemma attach_status setFromObject tan obj r h :
  status (fst (attach setFromObject tan obj r h)) = status r.
Proof.
  unfold attach. pose proof (dropAdded_status r h) as Hd.
  destruct (dropAdded r h) as [r1 h1]. cbn [fst] in Hd. rewrite <- Hd.
  cbn [runProps withAddedObject withInteractive].
  destruct (isolatedPart (runProps r1)) as [part|].
  - destruct (collectOriginalMaterials obj _ h1) as [st h2].
    destruct (meshesOf obj) as [|m ms].
    + cbn [fst]. unfold status. cbn [animating interactive withInteractive
        withAddedObject].
      destruct (fitCamera_status setFromObject tan obj h2
                  (withStore st (withMesh (Some obj)
                     (withScene (addChild obj) (interactive r1))))) as [-> ->].
      reflexivity.
    + destruct (highlightPart _ h2) as [[] h3].
      cbn [fst]. unfold status. cbn [animating interactive withInteractive
        withAddedObject].
      destruct (fitCamera_status setFromObject tan obj h3
                  (withStore st (withMesh (Some obj)
                     (withScene (addChild obj) (interactive r1))))) as [-> ->].
      reflexivity.
  - cbn [fst]. unfold status. cbn [animating interactive withInteractive
      withAddedObject].
    destruct (fitCamera_status setFromObject tan obj h1
                (withMesh (Some obj)
                   (withScene (addChild obj) (interactive r1)))) as [-> ->].
    reflexivity.
Qed.

Lemma loadWith_status setFromObject tan k model c h :
  sameStatuses c (fst (loadWith setFromObject tan k model (c, h))).
Proof.
  unfold loadWith. destruct (runs c !! k) as [r|] eqn:Hr;
    [|apply sameStatuses_refl].
  destruct (normalizeModelSizeAndPosition setFromObject model (ofZ 4) h)
    as [[] h1].
  destruct (collectOriginalMaterials model _ h1) as [st h2].
  pose proof (attach_status setFromObject tan model
                (withInteractive (withStore st) r) h2) as Ha.
  destruct (attach setFromObject tan model _ h2) as [r2 h3]. cbn [fst] in *.
  eapply sameStatuses_trans; [|apply sameStatuses_fields; reflexivity].
  eapply sameStatuses_trans;
    [apply (sameStatuses_fields c
              (setIsModelLoaded true
                 (callModelLoaded
                    (onModelLoaded (runProps (withInteractive (withStore st) r)))
                    model c)))|].
  - unfold callModelLoaded. destruct (onModelLoaded _); reflexivity.
  - unfold callModelLoaded. destruct (onModelLoaded _); reflexivity.
  - apply updateRun_status. intros r0 Hr0.
    assert (r0 = r) as ->.
    { unfold callModelLoaded in Hr0. destruct (onModelLoaded _) in Hr0;
        cbn in Hr0; congruence. }
    exact Ha.
Qed.

Lemma loadSettled_status setFromObject tan k result c h :
  sameStatuses c (fst (loadSettled setFromObject tan k result (c, h))).
Proof.
  unfold loadSettled. destruct (runs c !! k) as [r|] eqn:Hr;
    [|apply sameStatuses_refl].
  destruct (loadPending r); [|apply sameStatuses_refl].
  assert (H1 : sameStatuses c (updateRun k (withLoadPending false) c)).
  { apply updateRun_status. reflexivity. }
  destruct result as [gltfGroup|err].
  - eapply sameStatuses_trans; [exact H1 | apply loadWith_status].
  - eapply sameStatuses_trans; [exact H1|]. cbn [fst].
    apply sameStatuses_fields; unfold callModelError;
      destruct (onModelError _); reflexivity.
Qed.

Lemma getIntersects_view intersectObject clientX clientY rect h s :
  let s' := snd (getIntersects intersectObject clientX clientY rect h s) in
  controls s' = controls s /\ rendererDisposed s' = rendererDisposed s.
Proof.
  unfold getIntersects. destruct (degenerateRect rect); [auto|].
  unfold withRay. cbn [mesh]. destruct (mesh s); auto.
Qed.

Lemma handleClick_status setFromObject tan intersectObject clientX clientY c h :
  sameStatuses c
    (fst (handleClick setFromObject tan intersectObject clientX clientY (c, h))).
Proof.
  unfold handleClick.
  destruct (sceneRef c) as [k|]; [|apply sameStatuses_refl].
  destruct (runs c !! k) as [r|] eqn:Hr; [|apply sameStatuses_refl].
  destruct (mesh (interactive r)) as [root|]; [|apply sameStatuses_refl].
  destruct (thumbnailMode (runProps r)); [apply sameStatuses_refl|].
  destruct (container c) as [rect|]; [|apply sameStatuses_refl].
  destruct (getIntersects_view intersectObject clientX clientY rect h
              (interactive r)) as (Hctl & Hrd).
  destruct (getIntersects intersectObject clientX clientY rect h (interactive r))
    as [intersect s]. cbn [snd] in Hctl, Hrd.
  set (r0 := withInteractive (fun _ => s) r).
  assert (Hst0 : status r0 = status r).
  { unfold status. subst r0. cbn [animating interactive withInteractive].
    rewrite Hctl, Hrd. reflexivity. }
  set (c0 := updateRun k (fun _ => r0) c).
  assert (H0 : sameStatuses c c0).
  { apply updateRun_status. intros r1 Hr1. congruence. }
  assert (Hrun0 : runs c0 !! k = Some r0) by (apply (updateRun_same k _ c r Hr)).
  assert (Hclear : sameStatuses c (fst (clearSelection k r0 (c0, h)))).
  { destruct (clearSelection_shape k r0 c0 h) as (Hruns & Hs & _).
    eapply sameStatuses_trans; [exact H0|].
    apply sameStatuses_fields; assumption. }
  assert (Hfinish : forall (r1 : EffectRun) (h2 : Heap) given p,
            status r1 = status r0 ->
            sameStatuses c
              (fst (callPartSelected given p
                      (setCurrentSelectedPart p (updateRun k (fun _ => r1) c0)),
                    h2))).
  { intros r1 h2 given p Hst1. cbn [fst].
    destruct (reported_runs given p
                (setCurrentSelectedPart p (updateRun k (fun _ => r1) c0)))
      as (Hruns & Hs & _).
    eapply sameStatuses_trans; [exact H0|].
    eapply sameStatuses_trans;
      [apply (updateRun_status k (fun _ => r1) c0)|
       apply sameStatuses_fields; assumption].
    intros r2 Hr2. congruence. }
  destruct intersect as [hit|]; [|exact Hclear].
  destruct (sameObject _ root); [exact Hclear|].
  destruct (clickPartName _) as [partName|]; [|exact Hclear].
  destruct (isEmpty partName); [exact Hclear|].
  destruct (resetModelColor (originalMaterials s) h) as [[] h1].
  destruct (match currentSelectedPart c0 with
            | Some cur => if String.eqb cur partName then None else Some partName
            | None => Some partName
            end) as [p|].
  - destruct (meshesOf _) as [|m ms].
    + apply Hfinish. reflexivity.
    + destruct (collectOriginalMaterials root (originalMaterials s) h1) as [st h2].
      destruct (highlightPart (inr (m :: ms)) h2) as [[] h3].
      apply Hfinish. unfold status. cbn [animating interactive withInteractive].
      match goal with
      | |- context [fitCamera ?a ?b ?o ?hh ?ss] =>
          destruct (fitCamera_status a b o hh ss) as [-> ->]
      end.
      reflexivity.
  - apply Hfinish. unfold status. cbn [animating interactive withInteractive].
    destruct (fitCamera_status setFromObject tan root h1 (interactive r0))
      as [-> ->].
    reflexivity.
Qed.

Lemma cleanupEffect_live c h :
  oneLiveScene c ->
  oneLiveScene (fst (cleanupEffect (c, h)))
  /\ sceneRef (fst (cleanupEffect (c, h))) = None.
Proof.
  intros [Hcur Hold]. unfold cleanupEffect.
  destruct (sceneRef c) as [k|] eqn:Href.
  2:{ cbn [fst]. rewrite Href. split; [|reflexivity].
      split; [rewrite Href; exact I | rewrite Href; exact Hold]. }
  destruct Hcur as (Hk & r & Hr & Hlive). rewrite Hr.
  set (ra := stopAnimating r).
  assert (Hrb : exists rb hb,
            match addedObject ra with
            | Some _ => let (r1, h1) := dropAdded ra h in
                        (withInteractive (withMesh None) r1, h1)
            | None => (ra, h)
            end = (rb, hb) /\ animating rb = false).
  { destruct (addedObject ra) as [added|]; [|eauto].
    pose proof (dropAdded_status ra h) as Hd.
    destruct (dropAdded ra h) as [r1 h1]. cbn [fst] in Hd.
    eexists _, _. split; [reflexivity|].
    unfold status in Hd. injection Hd as Ha _ _.
    cbn [animating withInteractive]. rewrite Ha. reflexivity. }
  destruct Hrb as (rb & hb & -> & Hanim).
  cbn [fst]. split; [|reflexivity]. split; [exact I|].
  intros j r' Hr' _. cbn [withSceneRef runs] in Hr'.
  unfold updateRun, withRuns in Hr'. cbn [runs] in Hr'. rewrite Hr in Hr'.
  destruct (decide (j = k)) as [->|Hne].
  - rewrite list_lookup_insert_eq in Hr' by (eapply lookup_lt_Some, Hr).
    injection Hr' as <-. unfold tornDown, status. cbn. rewrite Hanim.
    reflexivity.
  - rewrite list_lookup_insert_ne in Hr' by congruence.
    apply (Hold j r' Hr'). congruence.
Qed.

Lemma runEffect_live setFromObject tan p c h :
  oneLiveScene c -> sceneRef c = None ->
  oneLiveScene (fst (runEffect setFromObject tan p (c, h))).
Proof.
  intros Hlive Href. unfold runEffect.
  destruct (container c) as [rect|]; [|exact Hlive].
  destruct (setupScene h) as [s h1] eqn:Es.
  assert (Hs : controlsDisposed (controls s) = false
               /\ rendererDisposed s = false).
  { unfold setupScene in Es. injection Es as <- _. auto. }
  destruct Hs as [Hcd Hrd].
  set (k := List.length (runs c)).
  set (r := mkEffectRun _ None true false p).
  set (c2 := setLoadProgress 0 (setIsLoadingPart true
               (withSceneRef (Some k) (withRuns (fun rs => rs ++ [r]) c)))).
  assert (H2 : oneLiveScene c2).
  { destruct Hlive as [_ Hold]. split.
    - cbn. rewrite length_app. cbn. split; [fold k; lia|].
      exists r. split; [apply list_lookup_middle; reflexivity|].
      unfold live, status. subst r. cbn. rewrite Hcd, Hrd. reflexivity.
    - intros j r' Hr' Hne. cbn in Hr', Hne.
      assert (Hj : j <> k) by congruence.
      apply lookup_app_Some in Hr' as [Hr'|[Hge Hr']].
      + apply (Hold j r' Hr'). rewrite Href. discriminate.
      + fold k in Hge, Hr'. destruct (j - k) as [|d] eqn:Ed; [lia|].
        apply lookup_lt_Some in Hr'. cbn in Hr'. lia. }
  destruct (isolatedPart p) as [part|].
  - eapply oneLiveScene_same; [exact H2 | apply loadWith_status].
  - cbn [fst]. eapply oneLiveScene_same; [exact H2|].
    apply updateRun_status. reflexivity.
Qed.

Lemma step_live setFromObject tan intersectObject w e :
  oneLiveScene (fst w) ->
  oneLiveScene (fst (step setFromObject tan intersectObject w e)).
Proof.
  destruct w as [c h]. cbn [fst]. intros Hlive.
  destruct e as [p| |k result|x y]; cbn [step].
  - destruct (cleanupEffect_live c h Hlive) as [H1 H2].
    destruct (cleanupEffect (c, h)) as [c1 h1]. cbn [fst] in *.
    apply runEffect_live; assumption.
  - apply cleanupEffect_live, Hlive.
  - eapply oneLiveScene_same; [exact Hlive | apply loadSettled_status].
  - eapply oneLiveScene_same; [exact Hlive | apply handleClick_status].
Qed.

(** X21 (at most one live scene).  Whatever happens to a viewer (renders
    that restart the setup effect, loads that settle early or late, clicks,
    the unmount), after every event: the current effect run, if there is
    one, is the last one started, its render loop is scheduled and its
    controls and renderer are not disposed; each other effect run has
    stopped its render loop and disposed its controls and its renderer. *)
Theorem one_live_scene
    (setFromObject : Heap -> Object3D -> Box3 float) (tan : float -> float)
    (intersectObject : Raycaster -> Heap -> Object3D -> list Intersection)
    (rect : option (Rect float)) (h : Heap) (events : list Event) :
  oneLiveScene
    (fst (run setFromObject tan intersectObject (initialComponent rect, h) events)).
Proof.
  assert (Hgen : forall w, oneLiveScene (fst w) ->
            oneLiveScene (fst (run setFromObject tan intersectObject w events))).
  { induction events as [|e es IH]; intros w Hw; [exact Hw|].
    cbn [run fold_left]. apply IH, step_live, Hw. }
  apply Hgen. split; [exact I|]. intros j r Hr. cbn in Hr.
  rewrite lookup_nil in Hr. discriminate Hr.
Qed.

(** **** The cleanup *)

(** A restore changes material slots and allocates materials; it leaves
    the geometries and the disposal logs as they are. *)
Lemma resetModelColor_frame store : forall h,
  geometryOf (snd (resetModelColor store h)) = geometryOf h
  /\ sameDisposals h (snd (resetModelColor store h)).
Proof.
  induction store as [|[mesh stored] rest IH]; intros h.
  - split; [reflexivity|]. repeat split.
  - rewrite resetModelColor_cons.
    assert (H1 : geometryOf (snd (resetOne (mesh, stored) h)) = geometryOf h
                 /\ sameDisposals h (snd (resetOne (mesh, stored) h))).
    { destruct (isMesh mesh) eqn:Him.
      - rewrite (resetOne_mesh _ _ _ Him).
        destruct (cloneSlot_frame stored h)
          as ((_ & Hg & _ & Hd1 & Hd2 & Hd3 & _) & _).
        destruct (cloneSlot stored h) as [clone ha]. cbn [fst snd] in *.
        split; [exact Hg|]. repeat split; assumption.
      - unfold resetOne. rewrite Him. split; [reflexivity|]. repeat split. }
    destruct H1 as (Hg1 & Hd1 & Hd2 & Hd3).
    destruct (IH (snd (resetOne (mesh, stored) h))) as (Hg & Hd1' & Hd2' & Hd3').
    split; [congruence|]. repeat split; congruence.
Qed.

(** X22 (the cleanup releases the model).  When the current effect run
    has a model attached, its cleanup removes the model from the scene,
    forgets it ([mesh] and [addedObject] are [null]), empties the store and
    clears [sceneRef]; the run is torn down; every mesh of the model ends
    without materials, and the geometry of every mesh of the model is
    disposed, once, in traversal order. *)
Theorem cleanup_releases_model
    (c : Component) (h : Heap) (k : nat) (r : EffectRun) (added : Object3D) :
  sceneRef c = Some k -> runs c !! k = Some r ->
  addedObject r = Some added ->
  let w' := cleanupEffect (c, h) in
  sceneRef (fst w') = None
  /\ (exists r', runs (fst w') !! k = Some r'
        /\ mesh (interactive r') = None /\ addedObject r' = None
        /\ originalMaterials (interactive r') = []
        /\ scene (interactive r') = removeChild added (scene (interactive r))
        /\ tornDown r')
  /\ (forall m, m ∈ meshesOf added -> materialsOfMesh (snd w') m = [])
  /\ disposedGeometries (snd w')
     = disposedGeometries h ++ flat_map (geometriesOfMesh h) (meshesOf added).
Proof.
  intros Href Hrun Hadded w'. subst w'. unfold cleanupEffect.
  rewrite Href, Hrun. cbn [addedObject stopAnimating]. rewrite Hadded.
  unfold dropAdded. cbn [addedObject stopAnimating interactive].
  rewrite Hadded.
  destruct (resetModelColor_frame (originalMaterials (interactive r)) h)
    as (Hg & Hd & _).
  destruct (resetModelColor (originalMaterials (interactive r)) h) as [[] h1].
  cbn [snd] in Hg, Hd.
  unfold disposeObject.
  destruct (disposeAll_slots (traverse added) h1) as (_ & _ & Sin & Sg).
  fold (meshesOf added) in Sin, Sg.
  destruct (forEachM disposeOne (traverse added) h1) as [[] h2].
  cbn [fst snd] in *.
  split; [reflexivity|]. split; [|split].
  - eexists. split; [apply updateRun_same, Hrun|]. cbn.
    repeat split; reflexivity.
  - intros m Hm. unfold materialsOfMesh.
    rewrite (Sin (uid m)) by (apply list_elem_of_fmap_2, Hm).
    destruct (materialOf h1 !! uid m); reflexivity.
  - rewrite Sg, Hd. f_equal. apply flat_map_ext. intros x.
    apply geometriesOfMesh_same, Hg.
Qed.

Lemma cleanup_releases_model_witness :
  sceneRef (fst (cleanupEffect (fst loadedWorld, snd loadedWorld))) = None
  /\ materialsOfMesh (snd (cleanupEffect (fst loadedWorld, snd loadedWorld)))
       bolt = [].
Proof.
  destruct loadedWorld_run as (r & Hr & _).
  assert (Ha : addedObject r = Some assembly).
  { assert (H : addedObject <$> runs (fst loadedWorld) !! 0
                = Some (Some assembly)) by (vm_compute; reflexivity).
    rewrite Hr in H. cbn in H. congruence. }
  destruct (cleanup_releases_model (fst loadedWorld) (snd loadedWorld) 0 r
              assembly) as (H1 & _ & H3 & _);
    [vm_compute; reflexivity | exact Hr | exact Ha |].
  split; [exact H1|]. apply H3. vm_compute. right. left.
Defined.

(** **** Clicks without a model *)

Lemma handleClick_noModel setFromObject tan intersectObject clientX clientY c h :
  noModelAttached c ->
  handleClick setFromObject tan intersectObject clientX clientY (c, h) = (c, h).
Proof.
  intros Hno. unfold handleClick.
  destruct (sceneRef c) as [k|] eqn:Href; [|reflexivity].
  destruct (runs c !! k) as [r|] eqn:Hr; [|reflexivity].
  rewrite (Hno k r Href Hr). reflexivity.
Qed.

Lemma clicks_noModel setFromObject tan intersectObject points : forall w,
  noModelAttached (fst w) ->
  run setFromObject tan intersectObject w (clicks points) = w.
Proof.
  induction points as [|[x y] points IH]; intros [c h] Hno; [reflexivity|].
  cbn [clicks map run fold_left step fst snd].
  rewrite handleClick_noModel by exact Hno. apply IH, Hno.
Qed.

Lemma cleanupEffect_noModel w : noModelAttached (fst (cleanupEffect w)).
Proof.
  destruct w as [c h]. unfold cleanupEffect.
  destruct (sceneRef c) as [k|] eqn:Href.
  2:{ intros j r Hj. cbn [fst] in Hj. congruence. }
  destruct (runs c !! k) as [r|] eqn:Hr.
  2:{ intros j r Hj Hrj. cbn [fst] in Hj, Hrj. congruence. }
  destruct (match addedObject (stopAnimating r) with
            | Some _ => _ | None => _ end) as [rb hb].
  intros j r' Hj. cbn in Hj. discriminate Hj.
Qed.

Lemma runEffect_noModel setFromObject tan p w :
  isolatedPart p = None -> noModelAttached (fst w) ->
  noModelAttached (fst (runEffect setFromObject tan p w)).
Proof.
  intros Hiso Hno. destruct w as [c h]. unfold runEffect.
  destruct (container c) as [rect|]; [|exact Hno].
  destruct (setupScene h) as [s h1] eqn:Es.
  assert (Hs : mesh s = None) by (unfold setupScene in Es; injection Es as <- _; reflexivity).
  rewrite Hiso. cbn [fst].
  set (r0 := mkEffectRun _ None true false p).
  set (c2 := setLoadProgress 0 (setIsLoadingPart true
               (withSceneRef (Some (List.length (runs c)))
                  (withRuns (fun rs => rs ++ [r0]) c)))).
  assert (H2 : runs c2 !! List.length (runs c) = Some r0)
    by (cbn; apply list_lookup_middle; reflexivity).
  intros j r Hj Hr. cbn in Hj. injection Hj as <-.
  rewrite (updateRun_same _ _ _ _ H2) in Hr.
  injection Hr as <-. cbn. exact Hs.
Qed.

(** X23 (clicks need a model).  After the viewer is rendered for a model
    URL, until that load settles, and after the viewer is unmounted, clicks
    change nothing: no selection, no callback, no material and no camera
    move. *)
Theorem clicks_need_a_model
    (setFromObject : Heap -> Object3D -> Box3 float) (tan : float -> float)
    (intersectObject : Raycaster -> Heap -> Object3D -> list Intersection)
    (w : World) (p : Props) (points : list (float * float)) :
  isolatedPart p = None ->
  let rendered := step setFromObject tan intersectObject w (Render p) in
  let unmounted := step setFromObject tan intersectObject w Unmount in
  run setFromObject tan intersectObject rendered (clicks points) = rendered
  /\ run setFromObject tan intersectObject unmounted (clicks points) = unmounted.
Proof.
  intros Hiso rendered unmounted. subst rendered unmounted. cbn [step].
  split; apply clicks_noModel.
  - apply runEffect_noModel; [exact Hiso | apply cleanupEffect_noModel].
  - apply cleanupEffect_noModel.
Qed.

Lemma clicks_need_a_model_witness :
  run unitBox tanAtHalfOf45 hitBracket
      (step unitBox tanAtHalfOf45 hitBracket loadedWorld
            (Render (viewerProps "b.glb")))
      (clicks twoClicks)
  = step unitBox tanAtHalfOf45 hitBracket loadedWorld
         (Render (viewerProps "b.glb")).
Proof.
  apply (clicks_need_a_model unitBox tanAtHalfOf45 hitBracket loadedWorld
           (viewerProps "b.glb") twoClicks).
  reflexivity.
Defined.

End LifecycleFacts.
(* ------------------------------------------------------------------ *)
(** *** Facts about the gallery *)

Module GalleryFacts.
Import Gallery.
Local Open Scope Z_scope.

Lemma ceilOfQuotient_six a : ceilOfQuotient a 6 = (a + 5) / 6.
Proof.
  unfold ceilOfQuotient, Qround.Qceiling, Qround.Qfloor. cbn.
  rewrite Z.mul_1_r.
  Z.div_mod_to_equations. lia.
Qed.

Lemma totalPaginas_eq {A} (l : list A) :
  totalPaginas l = Z.max 1 ((Z.of_nat (length l) + 5) / 6).
Proof. unfold totalPaginas, MODELOS_POR_PAGINA. rewrite ceilOfQuotient_six. reflexivity. Qed.

Lemma page_eq {A} (l : list A) (p : nat) :
  modelosParaExibir l (Z.of_nat p) = take 6 (drop (6 * p) l).
Proof.
  unfold modelosParaExibir, slice, relativeIndex, MODELOS_POR_PAGINA.
  cbv zeta.
  destruct (Z.ltb_spec (Z.of_nat p * 6) 0) as [?|_]; [lia|].
  destruct (Z.ltb_spec (Z.of_nat p * 6 + 6) 0) as [?|_]; [lia|].
  destruct (decide (6 * p <= length l)%nat) as [Hle|Hgt].
  - replace (Z.to_nat (Z.min (Z.of_nat p * 6) (Z.of_nat (length l)))) with (6 * p)%nat by lia.
    destruct (decide (6 * p + 6 <= length l)%nat) as [Hle2|Hgt2].
    + f_equal. lia.
    + rewrite (take_ge _ 6) by (rewrite length_drop; lia).
      apply take_ge. rewrite length_drop. lia.
  - rewrite (drop_ge l (6 * p)) by lia. rewrite take_nil.
    replace (Z.to_nat (Z.min (Z.of_nat p * 6) (Z.of_nat (length l)))) with (length l) by lia.
    rewrite drop_all. apply take_nil.
Qed.

Lemma chunks {A} (k : nat) : forall l : list A,
  (length l <= 6 * k)%nat ->
  concat (map (fun p => take 6 (drop (6 * p) l)) (seq 0 k)) = l.
Proof.
  induction k as [|k IH]; intros l Hl.
  - destruct l; [reflexivity | cbn in Hl; lia].
  - cbn [seq map concat]. rewrite <- seq_shift, map_map.
    etrans; [|apply (take_drop 6 l)]. f_equal.
    etrans; [|apply (IH (drop 6 l)); rewrite length_drop; lia].
    f_equal. apply map_ext. intros p. rewrite drop_drop. do 2 f_equal. lia.
Qed.

Lemma page_length {A} (l : list A) (p : nat) :
  length (take 6 (drop (6 * p) l)) = Nat.min 6 (length l - 6 * p).
Proof. rewrite length_take, length_drop. reflexivity. Qed.

(** X24 (the pages of the gallery cover the models).  The pages
    [0 .. totalPaginas - 1], one after the other, show every model exactly
    once and in order; each of these pages shows at most six models and,
    when there are models at all, at least one; a page from [totalPaginas]
    on shows nothing. *)
Theorem gallery_pages_cover {A : Type} (modelos : list A) :
  concat (map (fun p => modelosParaExibir modelos (Z.of_nat p))
              (seq 0 (Z.to_nat (totalPaginas modelos)))) = modelos
  /\ (forall p, 0 <= p < totalPaginas modelos ->
        (length (modelosParaExibir modelos p) <= 6)%nat
        /\ (modelos <> [] -> modelosParaExibir modelos p <> []))
  /\ (forall p, totalPaginas modelos <= p -> modelosParaExibir modelos p = []).
Proof.
  pose proof (totalPaginas_eq modelos) as Ht.
  assert (Hdiv : 6 * ((Z.of_nat (length modelos) + 5) / 6) - 5
                 <= Z.of_nat (length modelos)
                 <= 6 * ((Z.of_nat (length modelos) + 5) / 6))
    by (Z.div_mod_to_equations; lia).
  split; [|split].
  - erewrite map_ext; [|intros p; apply page_eq].
    apply chunks. lia.
  - intros p Hp. rewrite <- (Z2Nat.id p) by lia. rewrite page_eq. split.
    + rewrite page_length. lia.
    + intros Hne Hnil. apply (f_equal length) in Hnil.
      rewrite page_length in Hnil. cbn [length] in Hnil.
      destruct modelos; [congruence|]. cbn [length] in *. lia.
  - intros p Hp. rewrite <- (Z2Nat.id p) by lia. rewrite page_eq.
    apply length_zero_iff_nil. rewrite page_length. lia.
Qed.

Lemma press_in_range {A} (modelos : list A) p b :
  0 <= p < totalPaginas modelos -> 0 <= press modelos p b < totalPaginas modelos.
Proof.
  intros Hp. destruct b; cbn [press]; unfold proximaPagina, paginaAnterior; lia.
Qed.

Lemma navigate_in_range {A} (modelos : list A) bs : forall p,
  0 <= p < totalPaginas modelos ->
  0 <= navigate modelos bs p < totalPaginas modelos.
Proof.
  induction bs as [|b bs IH]; intros p Hp; [exact Hp|].
  cbn [navigate fold_left]. apply IH, press_in_range, Hp.
Qed.

(** X25 (paging stays in range).  Starting from the first page, after any
    sequence of presses of the two buttons the page index is between [0]
    and [totalPaginas - 1]; and each button is disabled exactly when its
    handler would leave the page as it is. *)
Theorem gallery_navigation {A : Type} (modelos : list A) (pressed : list Press) :
  let p := navigate modelos pressed 0 in
  0 <= p < totalPaginas modelos
  /\ (proximaDisabled modelos p = true <-> proximaPagina modelos p = p)
  /\ (anteriorDisabled p = true <-> paginaAnterior p = p).
Proof.
  intros p.
  assert (Hp : 0 <= p < totalPaginas modelos).
  { apply navigate_in_range. pose proof (totalPaginas_eq modelos). lia. }
  split; [exact Hp|].
  unfold proximaDisabled, anteriorDisabled, proximaPagina, paginaAnterior.
  split.
  - destruct (Z.geb_spec p (totalPaginas modelos - 1)); split; intros; (congruence || lia).
  - destruct (Z.eqb_spec p 0); split; intros; (congruence || lia).
Qed.

End GalleryFacts.
(* ------------------------------------------------------------------ *)
(** *** Facts about thumbnails *)

Module ThumbnailFacts.
Import Names Numbers Scene Selection Thumbnails Properties Notions Samples Fixtures.
Import SnapshotFacts HeapFacts DisposalFacts CloneFacts.
Local Open Scope list_scope.

#[local] Arguments extractPartByName : simpl never.
#[local] Arguments disposeObject : simpl never.

(** **** Contents of the materials *)

Lemma contentsFrom_refl h : contentsFrom h h.
Proof. intros r m Hm. eauto. Qed.

Lemma contentsFrom_trans h1 h2 h3 :
  contentsFrom h1 h2 -> contentsFrom h2 h3 -> contentsFrom h1 h3.
Proof.
  intros H12 H23 r m Hm. destruct (H23 r m Hm) as [r2 H2]. apply (H12 r2 m H2).
Qed.

Lemma contentsFrom_same h h' : materials h' = materials h -> contentsFrom h h'.
Proof. intros He r m Hm. rewrite He in Hm. eauto. Qed.

Lemma cloneMaterial_contents r h : contentsFrom h (snd (cloneMaterial r h)).
Proof.
  unfold cloneMaterial, newMaterial.
  intros r' m Hm. destruct (materials h !! r) as [c|] eqn:Ec;
    cbn [snd materials] in Hm.
  - destruct (decide (r' = nextMaterial h)) as [->|Hne].
    + rewrite lookup_insert_eq in Hm. injection Hm as <-. eauto.
    + rewrite lookup_insert_ne in Hm by congruence. eauto.
  - apply lookup_delete_Some in Hm as [_ Hm]. eauto.
Qed.

Lemma mapM_cloneMaterial_contents rs : forall h,
  contentsFrom h (snd (mapM cloneMaterial rs h)).
Proof.
  induction rs as [|r rs IH]; intros h; [apply contentsFrom_refl|].
  cbn [mapM]. unfold bind.
  pose proof (cloneMaterial_contents r h) as H1.
  destruct (cloneMaterial r h) as [r' h1]. cbn [snd] in H1.
  specialize (IH h1). destruct (mapM cloneMaterial rs h1) as [rs' h2].
  cbn [snd ret] in *. eapply contentsFrom_trans; eassumption.
Qed.

Lemma cloneSlot_contents s h : contentsFrom h (snd (cloneSlot s h)).
Proof.
  destruct s as [r|rs]; unfold cloneSlot, bind.
  - pose proof (cloneMaterial_contents r h) as H1.
    destruct (cloneMaterial r h) as [r' h1]. exact H1.
  - pose proof (mapM_cloneMaterial_contents rs h) as H1.
    destruct (mapM cloneMaterial rs h) as [rs' h1]. exact H1.
Qed.

Lemma cloneMeshData_contents c h : contentsFrom h (snd (cloneMeshData c h)).
Proof.
  rewrite cloneMeshData_run. destruct (isMesh c); [|apply contentsFrom_refl].
  destruct (cloneGeometryOf_spec c h) as (_ & Hmat & _).
  set (hg := snd (bind (getGeometry c) _ h)) in *.
  eapply contentsFrom_trans; [apply contentsFrom_same, Hmat|].
  rewrite cloneMaterialOf_run.
  destruct (materialOf hg !! uid c) as [slot|]; [|apply contentsFrom_refl].
  eapply contentsFrom_trans; [apply cloneSlot_contents|].
  apply contentsFrom_same. apply setMaterial_spec.
Qed.

Lemma cloneMeshData_all_contents l : forall h,
  contentsFrom h (snd (forEachM cloneMeshData l h)).
Proof.
  induction l as [|a l IH]; intros h; [apply contentsFrom_refl|].
  rewrite forEachM_cons.
  eapply contentsFrom_trans; [apply cloneMeshData_contents | apply IH].
Qed.

Lemma extractStep_contents cleanedTarget acc child h :
  contentsFrom h (snd (extractStep cleanedTarget acc child h)).
Proof.
  rewrite extractStep_run.
  destruct (isEmpty (name child)); [apply contentsFrom_refl|].
  destruct (String.eqb _ _); [|apply contentsFrom_refl]. cbn [snd].
  eapply contentsFrom_trans; [|apply cloneMeshData_all_contents].
  apply contentsFrom_same. apply (cloneObject_frame child h).
Qed.

Lemma extraction_contents setFromObject model partName h :
  contentsFrom h (snd (extractPartByName setFromObject model partName h)).
Proof.
  destruct (extraction_result setFromObject model partName h) as [_ Hheap].
  assert (Hfold : forall l acc h0,
            contentsFrom h0
              (snd (foldM (extractStep (trim (toLowerCase partName))) acc l h0))).
  { induction l as [|a l IH]; intros acc h0; [apply contentsFrom_refl|].
    cbn [foldM]. unfold bind.
    pose proof (extractStep_contents (trim (toLowerCase partName)) acc a h0) as H1.
    destruct (extractStep _ acc a h0) as [acc1 h1]. cbn [snd] in H1.
    eapply contentsFrom_trans; [exact H1 | apply IH]. }
  specialize (Hfold (traverse model) None h).
  destruct (fst (foldM _ None (traverse model) h)) as [target|].
  - eapply contentsFrom_trans; [exact Hfold|].
    apply contentsFrom_same. apply Hheap.
  - rewrite Hheap. exact Hfold.
Qed.

(** **** What a disposal reaches *)

Lemma disposeAll_grows l : forall h x,
  (x ∈ disposedMaterials h ->
   x ∈ disposedMaterials (snd (forEachM disposeOne l h)))
  /\ (x ∈ disposedTextures h ->
      x ∈ disposedTextures (snd (forEachM disposeOne l h))).
Proof.
  induction l as [|a l IH]; intros h x; [auto|].
  rewrite forEachM_cons.
  destruct (disposeOne_spec a h) as (_ & _ & _ & Sd & St).
  destruct (IH (snd (disposeOne a h)) x) as [Id It].
  split; intros Hx.
  - apply Id. rewrite Sd. apply elem_of_app. left. exact Hx.
  - apply It. rewrite St. apply elem_of_app. left. exact Hx.
Qed.

(** Every material that a mesh of the list references, and every texture
    of such a material, is disposed, whether or not the meshes are distinct
    objects. *)
Lemma disposeAll_includes l : forall h c,
  c ∈ l -> isMesh c = true ->
  forall r, r ∈ materialsOfMesh h c ->
    r ∈ disposedMaterials (snd (forEachM disposeOne l h))
    /\ forall t, t ∈ texturesOf h r ->
         t ∈ disposedTextures (snd (forEachM disposeOne l h)).
Proof.
  induction l as [|a l IH]; intros h c Hc Him r Hr.
  { apply elem_of_nil in Hc. destruct Hc. }
  rewrite forEachM_cons.
  destruct (disposeOne_spec a h) as (So & Sm & _ & Sd & St).
  set (h1 := snd (disposeOne a h)) in *.
  assert (Hlater : c ∈ l -> materialOf h1 !! uid c = materialOf h !! uid c ->
            r ∈ disposedMaterials (snd (forEachM disposeOne l h1))
            /\ forall t, t ∈ texturesOf h r ->
                 t ∈ disposedTextures (snd (forEachM disposeOne l h1))).
  { intros Hin Hslot.
    assert (Hr1 : r ∈ materialsOfMesh h1 c).
    { unfold materialsOfMesh in *. rewrite Hslot. exact Hr. }
    destruct (IH h1 c Hin Him r Hr1) as [Hd Ht]. split; [exact Hd|].
    intros t Htex. apply Ht.
    rewrite (texturesOf_same h h1 r); [exact Htex | apply So]. }
  destruct (isMesh a) eqn:Hma.
  - destruct (decide (uid a = uid c)) as [Heq|Hne].
    + assert (Hsame : materialsOfMesh h a = materialsOfMesh h c)
        by (unfold materialsOfMesh; rewrite Heq; reflexivity).
      split.
      * apply disposeAll_grows. fold h1. rewrite Sd, Hsame.
        apply elem_of_app. right. exact Hr.
      * intros t Ht. apply disposeAll_grows. fold h1. rewrite St, Hsame.
        apply elem_of_app. right.
        apply list_elem_of_In, in_flat_map. exists r.
        split; apply list_elem_of_In; assumption.
    + apply Hlater.
      * apply elem_of_cons in Hc as [->|Hc]; [congruence | exact Hc].
      * rewrite Sm. destruct (materialOf h !! uid a); [|reflexivity].
        apply lookup_insert_ne. exact Hne.
  - apply Hlater.
    + apply elem_of_cons in Hc as [->|Hc]; [congruence | exact Hc].
    + rewrite Sm. reflexivity.
Qed.

Lemma disposeAll_textures_bounded (P : nat -> Prop) l : forall h,
  Forall P (disposedTextures h) ->
  (forall r, r ∈ dom (materials h) -> Forall P (texturesOf h r)) ->
  Forall P (disposedTextures (snd (forEachM disposeOne l h))).
Proof.
  induction l as [|a l IH]; intros h Hlog Hall; [exact Hlog|].
  rewrite forEachM_cons.
  destruct (disposeOne_spec a h) as (So & _ & _ & _ & St).
  set (h1 := snd (disposeOne a h)) in *.
  assert (Hmat : materials h1 = materials h) by apply So.
  apply IH.
  - rewrite St. apply Forall_app. split; [exact Hlog|].
    destruct (isMesh a); [|constructor].
    apply Forall_forall. intros t Ht.
    apply list_elem_of_In, in_flat_map in Ht as (r & _ & Ht).
    apply list_elem_of_In in Ht.
    unfold texturesOf in Ht. destruct (materials h !! r) as [m|] eqn:Em.
    + assert (Hr : r ∈ dom (materials h)) by (apply elem_of_dom; eauto).
      specialize (Hall r Hr). rewrite Forall_forall in Hall. apply Hall.
      unfold texturesOf. rewrite Em. exact Ht.
    + apply elem_of_nil in Ht. destruct Ht.
  - intros r Hr. rewrite Hmat in Hr.
    rewrite (texturesOf_same h h1 r Hmat). apply Hall, Hr.
Qed.

(** Disposing a part that [extractPartByName] returned, in the heap that it
    returned. *)
Lemma dispose_extracted setFromObject model partName h part :
  fst (extractPartByName setFromObject model partName h) = Some part ->
  let h1 := snd (extractPartByName setFromObject model partName h) in
  let h2 := snd (disposeObject part h1) in
  untouchedBelow (nextObject h) h h2
  /\ extends h h2
  /\ (forall r, r ∈ disposedMaterials h2 ->
        r ∈ disposedMaterials h \/ nextMaterial h <= r)
  /\ (forall g, g ∈ disposedGeometries h2 ->
        g ∈ disposedGeometries h \/ nextGeometry h <= g)
  /\ (forall t, t ∈ disposedTextures h2 ->
        t ∈ disposedTextures h
        \/ exists r0 m0, materials h !! r0 = Some m0 /\ t ∈ textures m0)
  /\ (forall c, c ∈ meshesOf part ->
        materialsOfMesh h2 c = []
        /\ (forall g, g ∈ geometriesOfMesh h1 c -> g ∈ disposedGeometries h2)
        /\ forall r, r ∈ materialsOfMesh h1 c ->
             r ∈ disposedMaterials h2
             /\ forall t, t ∈ texturesOf h1 r -> t ∈ disposedTextures h2).
Proof.
  intros Hres h1 h2.
  destruct (extraction_final setFromObject model partName h)
    as (_ & Hun & Hext & _ & (Hd1 & Hd2 & Hd3) & Hacc).
  pose proof (extraction_contents setFromObject model partName h) as Hcont.
  fold h1 in Hun, Hext, Hd1, Hd2, Hd3, Hacc, Hcont.
  destruct (Hacc part Hres) as [Hrange Hown].
  rewrite Forall_forall in Hrange.
  subst h2. unfold disposeObject.
  destruct (disposeAll_slots (traverse part) h1) as (So & Sf & Sin & Sg).
  pose proof (disposeAll_bounded
                (fun r => r ∈ disposedMaterials h \/ nextMaterial h <= r)
                (traverse part) h1) as Hb.
  pose proof (disposeAll_textures_bounded
                (fun t => t ∈ disposedTextures h
                          \/ exists r0 m0, materials h !! r0 = Some m0
                                           /\ t ∈ textures m0)
                (traverse part) h1) as Hbt.
  pose proof (disposeAll_includes (traverse part) h1) as Hinc.
  fold (meshesOf part) in Sf, Sin, Sg.
  set (h2 := snd (forEachM disposeOne (traverse part) h1)) in *.
  destruct So as (Sgeo & Spos & Smat & _ & Snm & _).
  split; [|split; [|split; [|split; [|split]]]].
  - intros u Hu. destruct (Hun u Hu) as (Um & Ug & Up).
    rewrite Sgeo, Spos. split; [|split; assumption].
    rewrite Sf; [exact Um|].
    intros Hin. apply list_elem_of_fmap in Hin as (c & -> & Hc).
    apply list_elem_of_filter in Hc as [_ Hc].
    specialize (Hrange c Hc). cbn in Hrange. lia.
  - destruct Hext as [He1 He2]. split; [lia|].
    intros r Hr. rewrite Smat. apply He2, Hr.
  - intros r Hr. revert r Hr. apply Forall_forall. apply Hb.
    + rewrite Hd2. apply Forall_forall. auto.
    + intros c Hc Him. apply Forall_forall. intros r Hr. right.
      apply (Hown c Hc Him), Hr.
  - intros g Hg. rewrite Sg in Hg. apply elem_of_app in Hg as [Hg|Hg].
    + left. rewrite <- Hd1. exact Hg.
    + right. apply list_elem_of_In, in_flat_map in Hg as (c & Hc & Hg).
      apply list_elem_of_In in Hc, Hg.
      apply list_elem_of_filter in Hc as [Him Hc].
      apply (Hown c Hc Him), Hg.
  - intros t Ht. revert t Ht. apply Forall_forall. apply Hbt.
    + rewrite Hd3. apply Forall_forall. auto.
    + intros r Hr. apply Forall_forall. intros t Ht. right.
      unfold texturesOf in Ht.
      destruct (materials h1 !! r) as [m|] eqn:Em;
        [|apply elem_of_nil in Ht; destruct Ht].
      destruct (Hcont r m Em) as [r0 Hr0]. eauto.
  - intros c Hc. split; [|split].
    + unfold materialsOfMesh.
      rewrite (Sin (uid c)) by (apply list_elem_of_fmap_2, Hc).
      destruct (materialOf h1 !! uid c); reflexivity.
    + intros g Hg. rewrite Sg. apply elem_of_app. right.
      apply list_elem_of_In, in_flat_map. exists c.
      split; apply list_elem_of_In; assumption.
    + apply list_elem_of_filter in Hc as [Him Hc].
      apply (Hinc c Hc Him).
Qed.

(** X26 (what the thumbnail of a part releases).  When [generateThumbnail]
    makes the thumbnail of a part of a model that the loader returns, the
    objects that existed before keep their material slots, geometries and
    positions, the materials that existed keep their content, and every
    material and geometry that gets disposed was allocated by the call: no
    material and no geometry of the model is released.  Textures are: a
    clone of a material shares its textures, and every texture that gets
    disposed is a texture of a material that existed before the call.  If
    the part is found, the thumbnail is shown and cached under the key of
    the part, and every mesh of the rendered clone ends without materials,
    its geometry, its materials and all their textures disposed; if not,
    the error flag is set, no thumbnail is shown and the cache is left as it
    was. *)
Theorem part_thumbnail_disposals
    (setFromObject : Heap -> Object3D -> Box3 float)
    (loadAsync : string -> LoadResult)
    (toDataURL : Heap -> Object3D -> Z -> Z -> Z -> string)
    (urlModelo : string) (partName : option string) (name : string)
    (retry : bool) (m : Miniatura) (cache : ThumbnailCache) (h : Heap)
    (modelGroup : Object3D) :
  loadAsync urlModelo = Loaded modelGroup ->
  truthyName partName = Some name ->
  (retry = false ->
   cachedThumbnail cache (getCacheKey urlModelo partName) = None) ->
  let out := generateThumbnail setFromObject loadAsync toDataURL
               urlModelo partName retry m cache h in
  let m' := fst (fst out) in
  let cache' := snd (fst out) in
  let h' := snd out in
  let h1 := snd (extractPartByName setFromObject modelGroup name h) in
  untouchedBelow (nextObject h) h h'
  /\ extends h h'
  /\ (forall r, r ∈ disposedMaterials h' ->
        r ∈ disposedMaterials h \/ nextMaterial h <= r)
  /\ (forall g, g ∈ disposedGeometries h' ->
        g ∈ disposedGeometries h \/ nextGeometry h <= g)
  /\ (forall t, t ∈ disposedTextures h' ->
        t ∈ disposedTextures h
        \/ exists r0 m0, materials h !! r0 = Some m0 /\ t ∈ textures m0)
  /\ match fst (extractPartByName setFromObject modelGroup name h) with
     | Some part =>
         hasError m' = false
         /\ (exists dataUrl, thumbDataUrl m' = Some dataUrl
               /\ cache' !! getCacheKey urlModelo partName = Some dataUrl)
         /\ forall c, c ∈ meshesOf part ->
              materialsOfMesh h' c = []
              /\ (forall g, g ∈ geometriesOfMesh h1 c ->
                    g ∈ disposedGeometries h')
              /\ forall r, r ∈ materialsOfMesh h1 c ->
                   r ∈ disposedMaterials h'
                   /\ forall t, t ∈ texturesOf h1 r -> t ∈ disposedTextures h'
     | None =>
         hasError m' = true /\ thumbDataUrl m' = None /\ cache' = cache
     end.
Proof.
  intros Hload Hname Hmiss out m' cache' h' h1. subst m' cache' h' out.
  unfold generateThumbnail.
  assert (Hc : (if retry then None
                else cachedThumbnail cache (getCacheKey urlModelo partName))
               = None) by (destruct retry; auto).
  rewrite Hc, Hload, Hname.
  destruct (fst (extractPartByName setFromObject modelGroup name h))
    as [part|] eqn:Hres.
  - destruct (dispose_extracted setFromObject modelGroup name h part Hres)
      as (H1 & H2 & H3 & H4 & H5 & H6).
    fold h1 in H1, H2, H3, H4, H5, H6.
    destruct (extractPartByName setFromObject modelGroup name h) as [res h0].
    cbn [fst snd] in *. subst res h1. unfold renderThumbnailToDataURL.
    destruct (disposeObject part h0) as [[] h2]. cbn [fst snd] in *.
    split; [exact H1|]. split; [exact H2|]. split; [exact H3|].
    split; [exact H4|]. split; [exact H5|].
    split; [reflexivity|]. split; [|exact H6].
    eexists. split; [reflexivity | apply lookup_insert_eq].
  - destruct (extraction_final setFromObject modelGroup name h)
      as (_ & Hun & Hext & _ & (Hd1 & Hd2 & Hd3) & _).
    fold h1 in Hun, Hext, Hd1, Hd2, Hd3.
    destruct (extractPartByName setFromObject modelGroup name h) as [res h0].
    cbn [fst snd] in *. subst res h1. cbn [fst snd].
    split; [exact Hun|]. split; [exact Hext|].
    split; [intros r Hr; left; rewrite <- Hd2; exact Hr|].
    split; [intros g Hg; left; rewrite <- Hd1; exact Hg|].
    split; [intros t Ht; left; rewrite <- Hd3; exact Ht|].
    auto.
Qed.

(** The thumbnail of the bracket: the brackets of the model keep their
    material, and that material is not disposed; its texture, which the
    clone shares, is. *)
Lemma part_thumbnail_disposals_witness :
  let out := generateThumbnail unitBox loadsTwoBrackets somePng
               "a.glb" (Some "bracket") false (mkMiniatura None false) ∅
               twoBracketsHeap in
  untouchedBelow (nextObject twoBracketsHeap) twoBracketsHeap (snd out)
  /\ hasError (fst (fst out)) = false
  /\ (0 ∉ disposedMaterials (snd out))
  /\ texturesOf twoBracketsHeap 0 = [7]
  /\ (7 ∈ disposedTextures (snd out)).
Proof.
  pose proof (part_thumbnail_disposals unitBox loadsTwoBrackets somePng
                "a.glb" (Some "bracket") "bracket" false
                (mkMiniatura None false) ∅ twoBracketsHeap twoBrackets
                eq_refl eq_refl (fun _ => eq_refl)) as H.
  cbv zeta in H. destruct H as (H1 & _ & H3 & _ & _ & H6).
  split; [exact H1|].
  assert (Hf : fst (extractPartByName unitBox twoBrackets "bracket"
                      twoBracketsHeap)
               = Some (mkObject3D 4 "Bracket-02" true []))
    by (vm_compute; reflexivity).
  rewrite Hf in H6. destruct H6 as (He & _ & Hmesh).
  split; [exact He|]. split; [|split; [reflexivity|]].
  - intros Hin. destruct (H3 0 Hin) as [Hold|Hnew].
    + vm_compute in Hold. apply elem_of_nil in Hold. destruct Hold.
    + vm_compute in Hnew. lia.
  - destruct (Hmesh (mkObject3D 4 "Bracket-02" true [])) as (_ & _ & Hmat);
      [vm_compute; left|].
    assert (Hslot : materialsOfMesh
                      (snd (extractPartByName unitBox twoBrackets "bracket"
                              twoBracketsHeap))
                      (mkObject3D 4 "Bracket-02" true []) = [2])
      by (vm_compute; reflexivity).
    destruct (Hmat 2) as [_ Htex]; [rewrite Hslot; left|].
    apply Htex. vm_compute. left.
Defined.

(** X27 (a thumbnail is generated once).  When a call of
    [generateThumbnail] ends with a thumbnail, and its data URL is not the
    empty string, then a later call without [retry] for the same URL and
    part, from any [Miniatura3D], shows that thumbnail and loads, extracts,
    renders and disposes nothing: the cache and the heap stay as they
    are. *)
Theorem thumbnail_generated_once
    (setFromObject : Heap -> Object3D -> Box3 float)
    (loadAsync : string -> LoadResult)
    (toDataURL : Heap -> Object3D -> Z -> Z -> Z -> string)
    (urlModelo : string) (partName : option string) (retry : bool)
    (m other : Miniatura) (cache : ThumbnailCache) (h : Heap)
    (dataUrl : string) :
  let out := generateThumbnail setFromObject loadAsync toDataURL
               urlModelo partName retry m cache h in
  thumbDataUrl (fst (fst out)) = Some dataUrl ->
  isEmpty dataUrl = false ->
  generateThumbnail setFromObject loadAsync toDataURL
    urlModelo partName false other (snd (fst out)) (snd out)
  = (setThumbDataUrl (Some dataUrl) other, snd (fst out), snd out).
Proof.
  intros out Hurl Hne.
  assert (Hc : cachedThumbnail (snd (fst out)) (getCacheKey urlModelo partName)
               = Some dataUrl).
  { subst out. unfold generateThumbnail in Hurl |- *.
    destruct (if retry then None
              else cachedThumbnail cache (getCacheKey urlModelo partName))
      as [hit|] eqn:Ehit.
    - cbn [fst snd] in *. injection Hurl as ->.
      destruct retry; [discriminate | exact Ehit].
    - destruct (loadAsync urlModelo) as [modelGroup|err];
        [|discriminate Hurl].
      destruct (match truthyName partName with
                | Some name => extractPartByName setFromObject modelGroup name h
                | None => (Some modelGroup, h)
                end) as [[object|] h1]; [|discriminate Hurl].
      destruct (renderThumbnailToDataURL toDataURL object _ _ _ h1) as [d h2].
      cbn [fst snd] in *. injection Hurl as ->.
      unfold cachedThumbnail, ThumbnailCache. rewrite lookup_insert_eq.
      cbn [truthyName]. rewrite Hne. reflexivity. }
  unfold generateThumbnail at 1. rewrite Hc. reflexivity.
Qed.

Lemma thumbnail_generated_once_witness :
  let out := generateThumbnail unitBox loadsTwoBrackets somePng
               "a.glb" (Some "bracket") false (mkMiniatura None false) ∅
               twoBracketsHeap in
  generateThumbnail unitBox loadsTwoBrackets somePng
    "a.glb" (Some "bracket") false (mkMiniatura None true)
    (snd (fst out)) (snd out)
  = (mkMiniatura (Some "data:image/png;base64,iVBORw0KGgo=") true,
     snd (fst out), snd out).
Proof.
  apply (thumbnail_generated_once unitBox loadsTwoBrackets somePng
           "a.glb" (Some "bracket") false (mkMiniatura None false)
           (mkMiniatura None true) ∅ twoBracketsHeap
           "data:image/png;base64,iVBORw0KGgo=").
  - vm_compute. reflexivity.
  - reflexivity.
Defined.

End ThumbnailFacts.
